(** * pyvips.voperation: dynamic dispatch of libvips operations

    A shallow embedding of [src/pyvips/voperation.py]: the search helper
    [_find_inside], the introspection class [Introspect], and
    [Operation.set] / [Operation.call].  libvips itself and the rest of the
    pyvips package (the [Image] class, [GValue], [VipsObject]) are outside
    the module; they appear as the fields of the record [libvips], over an
    arbitrary engine state [W], and the theorems are stated for every
    such engine. *)

From Stdlib Require Import ZArith String Ascii List Lia.
From stdpp Require Import gmap strings list fin_maps.

Set Warnings "-register-all,-clear-no-such-hyp".

Open Scope string_scope.
Open Scope Z_scope.
Open Scope list_scope.

(** ** Values *)

(** The identity of an [Image] wrapper object. *)
Abbreviation img := positive (only parsing).

(** The Python values that flow through [Operation.call].  [VList] and
    [VTuple] are the two sequence types [_find_inside] descends into. *)
Inductive value : Type :=
| VNone
| VBool (b : bool)
| VInt (z : Z)
| VStr (s : string)
| VImage (i : img)
| VList (l : list value)
| VTuple (l : list value).

(** Induction over [value] that reaches the elements of sequences. *)
Section value_induction.
Variable P : value -> Prop.
Hypothesis HNone : P VNone.
Hypothesis HBool : forall b, P (VBool b).
Hypothesis HInt : forall z, P (VInt z).
Hypothesis HStr : forall s, P (VStr s).
Hypothesis HImage : forall i, P (VImage i).
Hypothesis HList : forall l, Forall P l -> P (VList l).
Hypothesis HTuple : forall l, Forall P l -> P (VTuple l).

Fixpoint value_ind' (v : value) : P v :=
  let all :=
    fix all (l : list value) : Forall P l :=
      match l with
      | [] => @List.Forall_nil value P
      | x :: rest => @List.Forall_cons value P x rest (value_ind' x) (all rest)
      end in
  match v with
  | VNone => HNone
  | VBool b => HBool b
  | VInt z => HInt z
  | VStr s => HStr s
  | VImage i => HImage i
  | VList l => HList l (all l)
  | VTuple l => HTuple l (all l)
  end.
End value_induction.

Definition is_None (v : value) : bool :=
  match v with VNone => true | _ => false end.

(** [isinstance(x, pyvips.Image)] *)
Definition is_Image (v : value) : bool :=
  match v with VImage _ => true | _ => false end.

(** ** [_find_inside]

    The predicates handed to [_find_inside] are closures that update a
    variable of the enclosing call ([references], or an image's
    [_references]); [S] is that variable and a predicate returns its new
    content beside its verdict. *)
Fixpoint _find_inside {S : Type} (pred : value -> S -> bool * S)
    (thing : value) (s : S) {struct thing} : value * S :=
  let '(found, s1) := pred thing s in
  if found then (thing, s1)
  else
    match thing with
    | VList l | VTuple l =>
        (fix loop (l : list value) (s : S) {struct l} : value * S :=
           match l with
           | [] => (VNone, s)
           | x :: rest =>
               let '(result, s2) := _find_inside pred x s in
               if is_None result then loop rest s2 else (result, s2)
           end) l s1
    | _ => (VNone, s1)
    end.

(** The loop of [_find_inside] over the elements of a sequence. *)
Fixpoint _find_inside_loop {S : Type} (pred : value -> S -> bool * S)
    (l : list value) (s : S) : value * S :=
  match l with
  | [] => (VNone, s)
  | x :: rest =>
      let '(result, s2) := _find_inside pred x s in
      if is_None result then _find_inside_loop pred rest s2 else (result, s2)
  end.

(** The images of a value in depth-first, left-to-right order. *)
Fixpoint images (v : value) : list img :=
  match v with
  | VImage i => [i]
  | VList l | VTuple l =>
      (fix go (l : list value) : list img :=
         match l with
         | [] => []
         | x :: rest => images x ++ go rest
         end) l
  | _ => []
  end.

Definition images_of_list (l : list value) : list img :=
  concat (map images l).

(** ** Argument flags *)

(** values for VipsArgumentFlags *)
Definition _REQUIRED : Z := 1.
Definition _CONSTRUCT : Z := 2.
Definition _SET_ONCE : Z := 4.
Definition _SET_ALWAYS : Z := 8.
Definition _INPUT : Z := 16.
Definition _OUTPUT : Z := 32.
Definition _DEPRECATED : Z := 64.
Definition _MODIFY : Z := 128.

(** [(flags & mask) != 0] and [(flags & mask) == 0] *)
Definition flag_set (flags mask : Z) : bool := negb (Z.land flags mask =? 0).
Definition flag_clear (flags mask : Z) : bool := Z.land flags mask =? 0.

(** ** Exceptions and results *)

(** The exceptions [Operation.call] can end with.  The [Error_*]
    constructors are pyvips' [Error], one per message of the module:
    - [Error_no_such_operation]: 'no such operation {0}'
    - [Error_unable_to_get_arguments]: 'unable to get arguments from operation'
    - [Error_needs_arguments]: '{0} needs {1} arguments, but {2} given'
    - [Error_unable_to_call]: 'unable to call {0}' (raised both when the
      option string is refused and when the build fails)
    - [Error_does_not_support]: '{0} does not support optional argument {1}'
    [KeyError], [AttributeError] and [TypeError] are Python's own, and
    [Foreign] is anything raised inside code outside the module. *)
Inductive exn : Type :=
| Error_no_such_operation (operation_name : string)
| Error_unable_to_get_arguments
| Error_needs_arguments (operation_name : string) (needs given : nat)
| Error_unable_to_call (operation_name : string)
| Error_does_not_support (operation_name name : string)
| KeyError (key : string)
| AttributeError
| TypeError
| Foreign (message : string).

Inductive result (A : Type) : Type :=
| Ok (a : A)
| Raise (e : exn).
Arguments Ok {A} a.
Arguments Raise {A} e.

(** What a call into code outside the module comes back with: a value,
    or an exception of its own. *)
Inductive outcome (A : Type) : Type :=
| Done (a : A)
| Fails (message : string).
Arguments Done {A} a.
Arguments Fails {A} message.

(** ** The introspection record *)

(** One entry of [Introspect.details]. *)
Record arg_details : Type := {
  d_name : string;
  d_flags : Z;
  d_blurb : string;
  d_type : Z
}.

Record Introspect : Type := {
  name : string;
  description : string;
  flags : Z;
  arguments : list (string * Z);
  details : gmap string arg_details;
  required_input : list string;
  optional_input : list string;
  required_output : list string;
  optional_output : list string
}.

(** [name.replace(old, new)] for one-character [old] and [new]. *)
Fixpoint replace (old new : ascii) (s : string) : string :=
  match s with
  | EmptyString => EmptyString
  | String c rest =>
      String (if Ascii.eqb c old then new else c) (replace old new rest)
  end.

(** The four lists of argument names that [Introspect.__init__] fills. *)
Record categories : Type := {
  c_required_input : list string;
  c_optional_input : list string;
  c_required_output : list string;
  c_optional_output : list string
}.

(** One turn of the loop [for name, flags in self.arguments] that sorts
    the arguments into the four lists. *)
Definition categorise (c : categories) (arg : string * Z) : categories :=
  let '(name, flags) := arg in
  let ri := c_required_input c in
  let ro := c_required_output c in
  let '(ri, ro) :=
    if flag_set flags _INPUT && flag_set flags _REQUIRED &&
       flag_clear flags _DEPRECATED
    then
      (ri ++ [name],
       (* required inputs which we MODIFY are also required outputs *)
       if flag_set flags _MODIFY then ro ++ [name] else ro)
    else (ri, ro) in
  let ro :=
    if flag_set flags _OUTPUT && flag_set flags _REQUIRED &&
       flag_clear flags _DEPRECATED
    then ro ++ [name] else ro in
  let oi :=
    if flag_set flags _INPUT && flag_clear flags _REQUIRED
    then c_optional_input c ++ [name] else c_optional_input c in
  let oo :=
    if flag_set flags _OUTPUT && flag_clear flags _REQUIRED
    then c_optional_output c ++ [name] else c_optional_output c in
  {| c_required_input := ri; c_optional_input := oi;
     c_required_output := ro; c_optional_output := oo |}.

Definition no_categories : categories :=
  {| c_required_input := []; c_optional_input := [];
     c_required_output := []; c_optional_output := [] |}.

(** [add_args] of [Introspect.__init__]: keep construct-time arguments,
    with '-' turned into '_'. *)
Definition add_args (arguments : list (string * Z)) (arg : string * Z)
    : list (string * Z) :=
  let '(name, flags) := arg in
  if flag_set flags _CONSTRUCT
  then arguments ++ [(replace "-" "_" name, flags)]
  else arguments.

(** ** The engine and the rest of pyvips *)

(** The calls made on the operation object, as the engine sees them. *)
Inductive event : Type :=
| Call_set_string (operation_name : string) (options : value)
| Call_set (operation_name name : string) (v : value)
| Call_build (operation_name : string)
| Call_get (operation_name name : string)
| Call_unref_outputs (operation_name : string).

(** What [voperation.py] imports: libvips through [vips_lib], and the
    methods of [VipsObject], [GValue] and [Image] it calls.  [W] is the
    state of the engine, which every call that can change it threads. *)
Record libvips (W : Type) : Type := {
  (** [vips_lib.vips_operation_new(name) != ffi.NULL] *)
  vips_operation_new : string -> bool;
  get_description : string -> string;
  vips_operation_get_flags : string -> Z;
  at_least_libvips_8_7 : bool;
  (** [vips_object_get_args]: [None] when its result is not 0, else the
      names and flags of the arguments in declaration order *)
  vips_object_get_args : string -> option (list (string * Z));
  get_blurb : string -> string -> string;
  get_typeof : string -> string -> Z;
  (** [GValue.image_type] and [GValue.array_image_type] *)
  image_type : Z;
  array_image_type : Z;
  (** [op.set_string(string_options)] *)
  set_string : string -> value -> W -> outcome bool * W;
  (** [pyvips.Image._imageize(match_image, value)] *)
  _imageize : value -> value -> W -> outcome value * W;
  (** [image.copy()] and [image.copy_memory()] *)
  copy : img -> W -> outcome img * W;
  copy_memory : img -> W -> outcome img * W;
  (** [VipsObject.set(name, value)] *)
  VipsObject_set : string -> string -> value -> W -> outcome unit * W;
  (** [vips_lib.vips_cache_operation_build(op.pointer) != ffi.NULL] *)
  vips_cache_operation_build : string -> W -> bool * W;
  (** [op.get(name)], that is [VipsObject.get] *)
  VipsObject_get : string -> string -> W -> outcome value * W;
  vips_object_unref_outputs : string -> W -> W
}.
Arguments vips_operation_new {W} _ _.
Arguments get_description {W} _ _.
Arguments vips_operation_get_flags {W} _ _.
Arguments at_least_libvips_8_7 {W} _.
Arguments vips_object_get_args {W} _ _.
Arguments get_blurb {W} _ _ _.
Arguments get_typeof {W} _ _ _.
Arguments image_type {W} _.
Arguments array_image_type {W} _.
Arguments set_string {W} _ _ _ _.
Arguments _imageize {W} _ _ _ _.
Arguments copy {W} _ _ _.
Arguments copy_memory {W} _ _ _.
Arguments VipsObject_set {W} _ _ _ _ _.
Arguments vips_cache_operation_build {W} _ _ _.
Arguments VipsObject_get {W} _ _ _ _.
Arguments vips_object_unref_outputs {W} _ _ _.

(** ** Python dictionaries and keyword arguments *)

(** An image's [_references], and the [references] of a call: a
    dictionary from buffer identifiers to the buffers kept alive. *)
Abbreviation refdict := (gmap positive Z) (only parsing).

(** [d.update(other)]: the entries of [other] are added to [d], and win
    on a shared key. *)
Definition update (d other : refdict) : refdict := other ∪ d.

(** [x._references] in a heap of image wrappers. *)
Definition refs_of (heap : gmap img refdict) (x : img) : refdict :=
  default ∅ (heap !! x).

(** [**kwargs], in the order the caller wrote them. *)
Abbreviation kwargs_t := (list (string * value)) (only parsing).

(** [name in kwargs] *)
Definition has_key (name : string) (kwargs : kwargs_t) : bool :=
  existsb (fun kv => String.eqb (fst kv) name) kwargs.

(** [kwargs.pop(name, default)]: the value, and the dictionary left. *)
Definition pop (name : string) (default : value) (kwargs : kwargs_t)
    : value * kwargs_t :=
  (match List.find (fun kv => String.eqb (fst kv) name) kwargs with
   | Some kv => snd kv
   | None => default
   end,
   List.filter (fun kv => negb (String.eqb (fst kv) name)) kwargs).

(** [name in names] for a list of names. *)
Definition in_list (name : string) (names : list string) : bool :=
  existsb (String.eqb name) names.

(** Python's truth value, as [if match_image:] takes it.  An [Image] is
    an object with neither [__bool__] nor [__len__], so it is true. *)
Definition truthy (v : value) : bool :=
  match v with
  | VNone => false
  | VBool b => b
  | VInt z => negb (z =? 0)
  | VStr s => negb (String.eqb s "")
  | VImage _ => true
  | VList l | VTuple l => match l with [] => false | _ => true end
  end.

(** [for x in value]: the elements of a sequence, the characters of a
    string; anything else is not iterable. *)
Definition iterate (v : value) : result (list value) :=
  match v with
  | VList l | VTuple l => Ok l
  | VStr s =>
      Ok (map (fun c => VStr (String c EmptyString)) (list_ascii_of_string s))
  | _ => Raise TypeError
  end.

(** ** What a call returns *)

(** An element of the [result] list of [Operation.call]: a value read
    from the operation, or the dictionary [opts] of optional outputs. *)
Inductive item : Type :=
| Value (v : value)
| Named (opts : gmap string value).

Inductive returned : Type :=
| Return_None
| Return_item (x : item)
| Return_list (l : list item).

(** The end of [Operation.call]: [None] for an empty [result], its only
    element when there is one, the list otherwise. *)
Definition unwrap (result : list item) : returned :=
  match result with
  | [] => Return_None
  | [x] => Return_item x
  | _ => Return_list result
  end.

(** ** State

    What outlives a step of a call: the [_references] of every image
    wrapper, the class attribute [Introspect._introspect_cache], the
    records sent to [logger.info], the calls made on operation objects,
    and the engine.  [_references] is an attribute of the Python wrapper:
    the engine has no access to it, and the only code of the module that
    writes it is [set_reference] in [Operation.call].  A wrapper that is
    not in [heap] has no reference yet. *)
Record state (W : Type) : Type := {
  heap : gmap img refdict;
  _introspect_cache : gmap string Introspect;
  log : list (string * string);
  calls : list event;
  world : W
}.
Arguments heap {W} _.
Arguments _introspect_cache {W} _.
Arguments log {W} _.
Arguments calls {W} _.
Arguments world {W} _.
Arguments Build_state {W} _ _ _ _ _.

(** A computation that reads and writes the state and may raise. *)
Definition M (W A : Type) : Type := state W -> result A * state W.

Definition pure {W A} (a : A) : M W A := fun s => (Ok a, s).

Definition raise {W A} (e : exn) : M W A := fun s => (Raise e, s).

Definition bind {W A B} (m : M W A) (k : A -> M W B) : M W B :=
  fun s => match m s with
           | (Ok a, s') => k a s'
           | (Raise e, s') => (Raise e, s')
           end.

(** A call into the engine. *)
Definition engine {W A} (f : W -> outcome A * W) : M W A :=
  fun s =>
    let '(o, w) := f (world s) in
    (match o with Done a => Ok a | Fails message => Raise (Foreign message) end,
     {| heap := heap s; _introspect_cache := _introspect_cache s;
           log := log s; calls := calls s; world := w |}).

Definition record_call {W} (e : event) : M W unit :=
  fun s =>
    (Ok tt, {| heap := heap s; _introspect_cache := _introspect_cache s;
               log := log s; calls := calls s ++ [e]; world := world s |}).

Definition logger_info {W} (operation_name name : string) : M W unit :=
  fun s =>
    (Ok tt, {| heap := heap s; _introspect_cache := _introspect_cache s;
               log := log s ++ [(operation_name, name)];
               calls := calls s; world := world s |}).

Definition get_heap {W} : M W (gmap img refdict) := fun s => (Ok (heap s), s).

Definition set_heap {W} (h : gmap img refdict) : M W unit :=
  fun s =>
    (Ok tt, {| heap := h; _introspect_cache := _introspect_cache s;
               log := log s; calls := calls s; world := world s |}).

Definition of_result {W A} (r : result A) : M W A := fun s => (r, s).

(** ** A small engine

    An engine with four operations, used to run the model on concrete
    calls.  Its state holds the identity of the next image wrapper it
    will hand out, the content behind each wrapper (one number), and the
    wrappers the operation under construction will write to. *)
Record demo_world : Type := {
  next : positive;
  pix : gmap positive Z;
  writable : list positive
}.

Definition demo_args (operation_name : string) : option (list (string * Z)) :=
  if String.eqb operation_name "add" then
    Some [("left", 19); ("right", 19); ("out", 35)]
  else if String.eqb operation_name "draw_rect" then
    Some [("image", 147); ("ink", 19)]
  else if String.eqb operation_name "stats" then
    Some [("in", 19); ("out", 35); ("extra", 34); ("old-size", 82);
          ("nickname", 17)]
  else if String.eqb operation_name "flush" then
    Some [("in", 19)]
  else None.

Definition demo_typeof (operation_name name : string) : Z :=
  if in_list name ["left"; "right"; "in"; "out"; "image"] then 1 else 3.

(** A new wrapper with content [c]. *)
Definition demo_new (c : Z) (w : demo_world) : positive * demo_world :=
  (next w,
   {| next := Pos.succ (next w); pix := <[next w := c]> (pix w);
      writable := writable w |}).

(** The engine's own test for a modify-in-place argument. *)
Definition demo_modify (operation_name name : string) : bool :=
  match demo_args operation_name with
  | Some raw_args =>
      existsb (fun arg =>
                 String.eqb (replace "-" "_" (fst arg)) name &&
                 flag_set (snd arg) _CONSTRUCT && flag_set (snd arg) _MODIFY)
        raw_args
  | None => false
  end.

Definition demo : libvips demo_world := {|
  vips_operation_new := fun n =>
    match demo_args n with Some _ => true | None => false end;
  get_description := fun n => n;
  vips_operation_get_flags := fun _ => 0;
  at_least_libvips_8_7 := true;
  vips_object_get_args := demo_args;
  get_blurb := fun _ n => n;
  get_typeof := demo_typeof;
  image_type := 1;
  array_image_type := 2;
  set_string := fun _ options w =>
    (match options with
     | VStr s => Done (String.eqb s "")
     | _ => Fails "a string is needed"
     end, w);
  _imageize := fun _ v w =>
    match v with
    | VImage _ => (Done v, w)
    | _ => let '(i, w') := demo_new 0 w in (Done (VImage i), w')
    end;
  copy := fun i w =>
    let '(c, w') := demo_new (default 0 (pix w !! i)) w in (Done c, w');
  copy_memory := fun i w =>
    let '(c, w') := demo_new (default 0 (pix w !! i)) w in (Done c, w');
  VipsObject_set := fun operation_name n v w =>
    (Done tt,
     if demo_modify operation_name n
     then {| next := next w; pix := pix w;
             writable := images v ++ writable w |}
     else w);
  vips_cache_operation_build := fun _ w =>
    (true,
     {| next := next w;
        pix := fold_right (fun i p => alter Z.succ i p) (pix w) (writable w);
        writable := [] |});
  VipsObject_get := fun operation_name n w =>
    if demo_typeof operation_name n =? 1
    then let '(i, w') := demo_new 1 w in (Done (VImage i), w')
    else (Done (VInt 0), w);
  vips_object_unref_outputs := fun _ w => w
|}.

(** The content behind a wrapper of the small engine, and the wrappers
    its operation holds to write to. *)
Definition demo_pixels (w : demo_world) (x : positive) : option Z :=
  if (x <? next w)%positive then pix w !! x else None.

Definition demo_held (w : demo_world) (x : positive) : Prop :=
  x ∈ writable w.

(** A state with two images, [1] and [2], that keep one buffer alive
    each, and nothing cached. *)
Definition demo_state : state demo_world := {|
  heap := <[2%positive := {[20%positive := 200]}]>
            (<[1%positive := {[10%positive := 100]}]> ∅);
  _introspect_cache := ∅;
  log := [];
  calls := [];
  world := {| next := 3; pix := <[2%positive := 20]> (<[1%positive := 10]> ∅);
              writable := [] |}
|}.

(** ** The documentation generators: what they use and how they end *)

(** What [generate_docstring] and [generate_sphinx] use of [GValue] and
    of Python's [str]: [GValue.gtype_to_python], and [c.upper()] for a
    string [c] of one character. *)
Record python_strings : Type := {
  gtype_to_python : Z -> string;
  upper : ascii -> string
}.

(** The exceptions of the generators: pyvips'
    [Error('No such operator.', 'operator ... is deprecated')], Python's
    [IndexError], and the exceptions [Introspect.get] and the look-ups in
    [intro.details] end with. *)
Inductive doc_exn : Type :=
| Error_deprecated (operation_name : string)
| IndexError
| Raised (e : exn).

Inductive doc_result (A : Type) : Type :=
| Returns (a : A)
| Throws (e : doc_exn).
Arguments Returns {A} _.
Arguments Throws {A} _.

(** The small engine as a libvips older than 8.7. *)
Definition demo_old : libvips demo_world := {|
  vips_operation_new := vips_operation_new demo;
  get_description := get_description demo;
  vips_operation_get_flags := vips_operation_get_flags demo;
  at_least_libvips_8_7 := false;
  vips_object_get_args := vips_object_get_args demo;
  get_blurb := get_blurb demo;
  get_typeof := get_typeof demo;
  image_type := image_type demo;
  array_image_type := array_image_type demo;
  set_string := set_string demo;
  _imageize := _imageize demo;
  copy := copy demo;
  copy_memory := copy_memory demo;
  VipsObject_set := VipsObject_set demo;
  vips_cache_operation_build := vips_cache_operation_build demo;
  VipsObject_get := VipsObject_get demo;
  vips_object_unref_outputs := vips_object_unref_outputs demo
|}.

(** Strings for the small engine: its type [1] is the image, and only
    the letters [a] to [z] have an upper case. *)
Definition demo_strings : python_strings := {|
  gtype_to_python := fun gtype => if gtype =? 1 then "Image" else "int";
  upper := fun c =>
    let n := nat_of_ascii c in
    String (if (97 <=? n)%nat && (n <=? 122)%nat
            then ascii_of_nat (n - 32) else c) EmptyString
|}.

Section voperation.
Context {W : Type} (vips_lib : libvips W).

Notation "x <- m ;; k" := (bind m (fun x => k))
  (at level 100, m at next level, right associativity).
Notation "m ;; k" := (bind m (fun _ => k))
  (at level 100, right associativity).

(** ** [Introspect] *)

(** [Introspect.__init__].  On a libvips older than 8.7 the
    constructor reads [self.object], an attribute an [Introspect] does
    not have. *)
Definition Introspect_init (operation_name : string) : result Introspect :=
  if negb (vips_operation_new vips_lib operation_name)
  then Raise (Error_no_such_operation operation_name)
  else if at_least_libvips_8_7 vips_lib then
    match vips_object_get_args vips_lib operation_name with
    | None => Raise Error_unable_to_get_arguments
    | Some args =>
        (* build a list of constructor arg [name, flags] pairs *)
        let arguments := fold_left add_args args [] in
        (* build a hash from arg name to detailed arg information *)
        let details :=
          fold_left
            (fun (details : gmap string arg_details) '(name, flags) =>
               <[name := {| d_name := name; d_flags := flags;
                            d_blurb := get_blurb vips_lib operation_name name;
                            d_type := get_typeof vips_lib operation_name name
                         |}]> details)
            arguments ∅ in
        (* lists of arg names by category *)
        let c := fold_left categorise arguments no_categories in
        Ok {| name := operation_name;
              description := get_description vips_lib operation_name;
              flags := vips_operation_get_flags vips_lib operation_name;
              arguments := arguments;
              details := details;
              required_input := c_required_input c;
              optional_input := c_optional_input c;
              required_output := c_required_output c;
              optional_output := c_optional_output c |}
    end
  else Raise AttributeError.

(** [Introspect.get] *)
Definition Introspect_get (operation_name : string) : M W Introspect :=
  fun s =>
    match _introspect_cache s !! operation_name with
    | Some intro => (Ok intro, s)
    | None =>
        match Introspect_init operation_name with
        | Ok intro =>
            (Ok intro,
             {| heap := heap s;
                _introspect_cache :=
                  <[operation_name := intro]> (_introspect_cache s);
                log := log s; calls := calls s; world := world s |})
        | Raise e => (Raise e, s)
        end
    end.

(** ** [Operation] *)

(** [Operation.new_from_name]; the operation object is named by the
    operation it was made from. *)
Definition Operation_new_from_name (operation_name : string) : M W string :=
  if negb (vips_operation_new vips_lib operation_name)
  then raise (Error_no_such_operation operation_name)
  else pure operation_name.

(** [[pyvips.Image._imageize(match_image, x) for x in value]] *)
Fixpoint imageize_each (match_image : value) (xs : list value)
    : M W (list value) :=
  match xs with
  | [] => pure []
  | x :: rest =>
      y <- engine (_imageize vips_lib match_image x) ;;
      ys <- imageize_each match_image rest ;;
      pure (y :: ys)
  end.

(** [value.copy().copy_memory()]: only an image has these methods. *)
Definition unique_copy (val : value) : M W value :=
  match val with
  | VImage i =>
      c <- engine (copy vips_lib i) ;;
      m <- engine (copy_memory vips_lib c) ;;
      pure (VImage m)
  | _ => raise AttributeError
  end.

(** [Operation.set] *)
Definition Operation_set (op name : string) (flags : Z)
    (match_image val : value) : M W unit :=
  (* if the object wants an image and we have a constant, _imageize it;
     if the object wants an image array, _imageize any constants in the
     array *)
  val <-
    (if truthy match_image then
       let gtype := get_typeof vips_lib op name in
       if gtype =? image_type vips_lib then
         engine (_imageize vips_lib match_image val)
       else if gtype =? array_image_type vips_lib then
         xs <- of_result (iterate val) ;;
         ys <- imageize_each match_image xs ;;
         pure (VList ys)
       else pure val
     else pure val) ;;
  (* MODIFY args need to be copied before they are set *)
  val <-
    (if flag_set flags _MODIFY then unique_copy val else pure val) ;;
  record_call (Call_set op name val) ;;
  engine (VipsObject_set vips_lib op name val).

(** [add_reference] of [Operation.call], a closure over [references]. *)
Definition add_reference (heap : gmap img refdict) (x : value)
    (references : refdict) : bool * refdict :=
  (false,
   match x with
   | VImage i => update references (refs_of heap i)
   | _ => references
   end).

(** [set_reference] of [Operation.call]; it updates [x._references]
    in place. *)
Definition set_reference (references : refdict) (x : value)
    (heap : gmap img refdict) : bool * gmap img refdict :=
  (false,
   match x with
   | VImage i => <[i := update (refs_of heap i) references]> heap
   | _ => heap
   end).

(** The loop [for name, value in zip(intro.required_input, args)]. *)
Fixpoint set_required_inputs (op : string) (intro : Introspect)
    (match_image : value) (pairs : list (string * value))
    (references : refdict) : M W refdict :=
  match pairs with
  | [] => pure references
  | (name, val) :: rest =>
      h <- get_heap ;;
      let references :=
        snd (_find_inside (add_reference h) val references) in
      match details intro !! name with
      | None => raise (KeyError name)
      | Some d =>
          Operation_set op name (d_flags d) match_image val ;;
          set_required_inputs op intro match_image rest references
      end
  end.

(** The loop [for name in kwargs]. *)
Fixpoint set_kwargs (op : string) (intro : Introspect)
    (match_image : value) (kwargs : kwargs_t)
    (references : refdict) : M W refdict :=
  match kwargs with
  | [] => pure references
  | (name, val) :: rest =>
      match details intro !! name with
      | None => raise (KeyError name)
      | Some d =>
          if negb (in_list name (optional_input intro)) &&
             negb (in_list name (optional_output intro))
          then raise (Error_does_not_support op name)
          else
            (if flag_set (d_flags d) _DEPRECATED
             then logger_info op name else pure tt) ;;
            h <- get_heap ;;
            let references :=
              snd (_find_inside (add_reference h) val references) in
            Operation_set op name (d_flags d) match_image val ;;
            set_kwargs op intro match_image rest references
      end
  end.

(** [value = op.get(name); _find_inside(set_reference, value)] *)
Definition fetch (op : string) (references : refdict) (name : string)
    : M W value :=
  record_call (Call_get op name) ;;
  val <- engine (VipsObject_get vips_lib op name) ;;
  h <- get_heap ;;
  set_heap (snd (_find_inside (set_reference references) val h)) ;;
  pure val.

(** The loop [for name in intro.required_output]. *)
Fixpoint get_required_outputs (op : string) (references : refdict)
    (names : list string) (result : list item) : M W (list item) :=
  match names with
  | [] => pure result
  | name :: rest =>
      val <- fetch op references name ;;
      get_required_outputs op references rest (result ++ [Value val])
  end.

(** The loop [for name in intro.optional_output]. *)
Fixpoint get_optional_outputs (op : string) (references : refdict)
    (kwargs : kwargs_t) (names : list string) (opts : gmap string value)
    : M W (gmap string value) :=
  match names with
  | [] => pure opts
  | name :: rest =>
      if has_key name kwargs then
        val <- fetch op references name ;;
        get_optional_outputs op references kwargs rest
          (<[name := val]> opts)
      else get_optional_outputs op references kwargs rest opts
  end.

(** [Operation.call] *)
Definition call (operation_name : string) (args : list value)
    (kwargs : kwargs_t) : M W returned :=
  (* pull out the special string_options kwarg *)
  let '(string_options, kwargs) := pop "string_options" (VStr "") kwargs in
  op <- Operation_new_from_name operation_name ;;
  intro <- Introspect_get operation_name ;;
  if negb (length (required_input intro) =? length args)%nat then
    raise (Error_needs_arguments operation_name
             (length (required_input intro)) (length args))
  else
    (* set any string options before any args so they can't be
       overridden *)
    record_call (Call_set_string op string_options) ;;
    ok <- engine (set_string vips_lib op string_options) ;;
    if negb ok then raise (Error_unable_to_call operation_name)
    else
      (* the first image argument is the thing we expand constants to
         match *)
      let match_image :=
        fst (_find_inside (fun x (_ : unit) => (is_Image x, tt))
               (VTuple args) tt) in
      (* collect the set of all input references here *)
      let references : refdict := ∅ in
      (* set required input args *)
      references <-
        set_required_inputs op intro match_image
          (combine (required_input intro) args) references ;;
      (* set any kwargs *)
      references <- set_kwargs op intro match_image kwargs references ;;
      (* build operation *)
      record_call (Call_build op) ;;
      built <- engine (fun w =>
                 let '(b, w') := vips_cache_operation_build vips_lib op w in
                 (Done b, w')) ;;
      if negb built then raise (Error_unable_to_call operation_name)
      else
        (* fetch required output args (plus modified input images) *)
        result <-
          get_required_outputs op references (required_output intro) [] ;;
        (* fetch optional output args *)
        opts <-
          get_optional_outputs op references kwargs
            (optional_output intro) ∅ ;;
        let result :=
          if (0 <? size opts)%nat then result ++ [Named opts] else result in
        record_call (Call_unref_outputs op) ;;
        engine (fun w => (Done tt, vips_object_unref_outputs vips_lib op w)) ;;
        pure (unwrap result).


(** The references a value contributes to [references]. *)
Definition collect (h : gmap img refdict) (xs : list img)
    (references : refdict) : refdict :=
  fold_left (fun r i => update r (refs_of h i)) xs references.

(** Attaching [references] to a list of images. *)
Definition attach (references : refdict) (xs : list img)
    (h : gmap img refdict) : gmap img refdict :=
  fold_left (fun h i => <[i := update (refs_of h i) references]> h) xs h.

(** A relation between the states before and after that every step of
    a computation keeps. *)
Definition respects (R : state W -> state W -> Prop) {A : Type}
    (m : M W A) : Prop :=
  forall s, R s (snd (m s)).

(** The state relations used below: what a step leaves alone. *)
Definition same_heap (s s' : state W) : Prop := heap s' = heap s.

Definition same_cache (s s' : state W) : Prop :=
  _introspect_cache s' = _introspect_cache s.

Definition same_python (s s' : state W) : Prop :=
  same_heap s s' /\ same_cache s s'.

(** The optional outputs a call asks for: the names of [names] that are
    keys of [kwargs], in the order of [names]. *)
Definition requested (kwargs : kwargs_t) (names : list string) : list string :=
  List.filter (fun name => has_key name kwargs) names.

(** [opts[name] = value] for each fetched pair, in order. *)
Definition store_named (fetched : list (string * value))
    (opts : gmap string value) : gmap string value :=
  fold_left (fun o nv => <[fst nv := snd nv]> o) fetched opts.

(** The elements of what a call returned. *)
Definition returned_items (r : returned) : list item :=
  match r with
  | Return_None => []
  | Return_item x => [x]
  | Return_list l => l
  end.

(** Image [i] is found in an element of the result: inside a value, or
    inside a value of the dictionary of optional outputs. *)
Definition item_has_image (x : item) (i : img) : Prop :=
  match x with
  | Value v => i ∈ images v
  | Named opts => exists name v, opts !! name = Some v /\ i ∈ images v
  end.

Definition found_in (r : returned) (i : img) : Prop :=
  exists x, x ∈ returned_items r /\ item_has_image x i.

(** The dictionary of optional outputs in what a call returned, empty
    when there is none. *)
Definition returned_named (r : returned) : gmap string value :=
  match last (returned_items r) with
  | Some (Named opts) => opts
  | _ => ∅
  end.

(** The union of the reference sets of the images reachable in the
    positional and named inputs. *)
Definition input_references (h : gmap img refdict) (args : list value)
    (kwargs : kwargs_t) : gset positive :=
  ⋃ (map (fun y => dom (refs_of h y))
       (images_of_list (args ++ map snd kwargs))).

(** How [Operation.set] turns the caller's value [v0] into the value [v]
    it hands to [VipsObject.set]: first the promotion against the match
    image, by the declared type of the argument, then the copy of a
    MODIFY argument. *)
Definition promoted (match_image v0 p : value) (gtype : Z) : Prop :=
  if truthy match_image then
    if gtype =? image_type vips_lib then
      exists w w', _imageize vips_lib match_image v0 w = (Done p, w')
    else if gtype =? array_image_type vips_lib then
      exists xs ys,
        iterate v0 = Ok xs /\ p = VList ys /\
        Forall2 (fun x y =>
                   exists w w', _imageize vips_lib match_image x w = (Done y, w'))
          xs ys
    else p = v0
  else p = v0.

Definition copied (flags : Z) (p v : value) : Prop :=
  if flag_set flags _MODIFY then
    exists i c m w1 w1' w2 w2',
      p = VImage i /\ copy vips_lib i w1 = (Done c, w1') /\
      copy_memory vips_lib c w2 = (Done m, w2') /\ v = VImage m
  else v = p.

Definition marshalled (op name : string) (flags : Z)
    (match_image v0 v : value) : Prop :=
  exists p,
    promoted match_image v0 p (get_typeof vips_lib op name) /\
    copied flags p v.

(** An event of a call after the option string was applied: no second
    option string, and every argument set comes from a pair of [pairs],
    marshalled by the flags [intro] has for its name. *)
Definition argument_event (op : string) (intro : Introspect)
    (match_image : value) (pairs : list (string * value)) (e : event)
    : Prop :=
  match e with
  | Call_set_string _ _ => False
  | Call_set o n v =>
      o = op /\
      exists v0 d,
        (n, v0) ∈ pairs /\ details intro !! n = Some d /\
        marshalled op n (d_flags d) match_image v0 v
  | _ => True
  end.

Definition same_calls (s s' : state W) : Prop := calls s' = calls s.

(** The event sets an argument. *)
Definition is_set (e : event) : Prop :=
  match e with Call_set _ _ _ => True | _ => False end.

(** The calls on the operation grow by events that satisfy [P], and the
    introspection cache stays as it is. *)
Definition extends (P : event -> Prop) (s s' : state W) : Prop :=
  same_cache s s' /\ exists new, calls s' = calls s ++ new /\ Forall P new.

(** [_find_inside(lambda x: isinstance(x, pyvips.Image), args)], read
    off the depth-first list of images. *)
Definition first_image (args : list value) : value :=
  match images_of_list args with
  | [] => VNone
  | i :: _ => VImage i
  end.

(** Every exception a computation can end with satisfies [Q]. *)
Definition raises_only (Q : exn -> Prop) {A : Type} (m : M W A) : Prop :=
  forall s e s', m s = (Raise e, s') -> Q e.

(** The exceptions of the marshalling of one argument: Python's own, and
    those of the code outside the module. *)
Definition marshalling_exn (Q : exn -> Prop) : Prop :=
  Q AttributeError /\ Q TypeError /\ forall message, Q (Foreign message).


(** The classification rules, as tests on the flags of an argument. *)
Definition is_required_input (flags : Z) : bool :=
  flag_set flags _INPUT && flag_set flags _REQUIRED &&
  flag_clear flags _DEPRECATED.

Definition is_required_output (flags : Z) : bool :=
  flag_set flags _OUTPUT && flag_set flags _REQUIRED &&
  flag_clear flags _DEPRECATED.

Definition is_optional_input (flags : Z) : bool :=
  flag_set flags _INPUT && flag_clear flags _REQUIRED.

Definition is_optional_output (flags : Z) : bool :=
  flag_set flags _OUTPUT && flag_clear flags _REQUIRED.

(** The names of the arguments whose flags pass a test, in order. *)
Definition names_where (test : Z -> bool) (arguments : list (string * Z))
    : list string :=
  map fst (List.filter (fun arg => test (snd arg)) arguments).

(** What one argument adds to the required outputs: its name when it is
    a required input that is modified, and its name when it is a
    required output. *)
Definition as_required_output (arg : string * Z) : list string :=
  (if is_required_input (snd arg) && flag_set (snd arg) _MODIFY
   then [fst arg] else []) ++
  (if is_required_output (snd arg) then [fst arg] else []).

(** ** The engine's contract for modify-in-place arguments

    [Image.copy], [Image.copy_memory] and the engine's writes are outside
    the module.  [pixels w x] is the content behind the image wrapper [x]
    in the engine state [w], when there is one, and [held w x] says that
    an operation holds [x] as an argument it will write to. *)
Definition allocated {P : Type} (pixels : W -> img -> option P)
    (w : W) (x : img) : Prop :=
  pixels w x <> None.

(** A step of the engine leaves every image there is as it was, and
    takes hold of none. *)
Definition kept {P : Type} (pixels : W -> img -> option P)
    (held : W -> img -> Prop) (w w' : W) : Prop :=
  forall x, allocated pixels w x ->
    pixels w' x = pixels w x /\ (held w' x -> held w x).

(** The engine declares the argument [n] of [op] modify-in-place. *)
Definition engine_modify (op n : string) : Prop :=
  exists raw_args raw f,
    vips_object_get_args vips_lib op = Some raw_args /\
    (raw, f) ∈ raw_args /\ flag_set f _CONSTRUCT = true /\
    replace "-" "_" raw = n /\ flag_set f _MODIFY = true.

(** Modelled from the spec: what is missing is the code of [Image.copy]
    and [Image.copy_memory] and the engine's handling of modify-in-place
    arguments.  The copy is to a buffer of its own, shared with no image
    there was; the engine writes, when the operation is built, to the
    images it was handed for its modify-in-place arguments, and to no
    other; reading an output wraps it in a new object. *)
Record engine_contract {P : Type} (pixels : W -> img -> option P)
    (held : W -> img -> Prop) : Prop := {
  contract_set_string : forall op v w o w',
    set_string vips_lib op v w = (o, w') -> kept pixels held w w';
  contract_imageize : forall m v w o w',
    _imageize vips_lib m v w = (o, w') -> kept pixels held w w';
  contract_copy : forall i w o w',
    copy vips_lib i w = (o, w') -> kept pixels held w w';
  contract_copy_memory : forall c w o w',
    copy_memory vips_lib c w = (o, w') ->
    kept pixels held w w' /\
    forall m, o = Done m -> ~ allocated pixels w m;
  contract_set : forall op n v w o w',
    VipsObject_set vips_lib op n v w = (o, w') ->
    forall x, allocated pixels w x ->
      pixels w' x = pixels w x /\
      (held w' x -> held w x \/ (x ∈ images v /\ engine_modify op n));
  contract_build : forall op w b w',
    vips_cache_operation_build vips_lib op w = (b, w') ->
    forall x, allocated pixels w x -> ~ held w x ->
      pixels w' x = pixels w x /\ ~ held w' x;
  contract_get : forall op n w o w',
    VipsObject_get vips_lib op n w = (o, w') ->
    kept pixels held w w' /\
    forall v, o = Done v -> forall x, x ∈ images v -> ~ allocated pixels w x;
  contract_unref : forall op w,
    kept pixels held w (vips_object_unref_outputs vips_lib op w)
}.

(** Image [x], when the caller has it and no operation holds it, is
    after the step as it was before: same content, same references. *)
Definition untouched {P : Type} (pixels : W -> img -> option P)
    (held : W -> img -> Prop) (x : img) (s s' : state W) : Prop :=
  allocated pixels (world s) x -> ~ held (world s) x ->
  allocated pixels (world s') x /\ ~ held (world s') x /\
  pixels (world s') x = pixels (world s) x /\
  refs_of (heap s') x = refs_of (heap s) x.

(** ** Further notions for the properties of the module *)

(** The nodes of a value in the order [_find_inside] tests them: the
    value, then the nodes of its elements from left to right. *)
Fixpoint nodes (v : value) : list value :=
  v ::
  match v with
  | VList l | VTuple l =>
      (fix go (l : list value) : list value :=
         match l with
         | [] => []
         | x :: rest => nodes x ++ go rest
         end) l
  | _ => []
  end.

Definition nodes_of_list (l : list value) : list value :=
  concat (map nodes l).

(** The name has no '-'. *)
Definition dash_free (s : string) : Prop :=
  "-"%char ∉ list_ascii_of_string s.

(** The renaming [add_args] applies to an argument it keeps. *)
Definition renamed (arg : string * Z) : string * Z :=
  (replace "-" "_" (fst arg), snd arg).

(** [Operation.call] after the build: the outputs are read, then
    released. *)
Definition call_outputs (op : string) (intro : Introspect)
    (kwargs : kwargs_t) (references : refdict) : M W returned :=
  result <-
    get_required_outputs op references (required_output intro) [] ;;
  opts <-
    get_optional_outputs op references kwargs (optional_output intro) ∅ ;;
  let result :=
    if (0 <? size opts)%nat then result ++ [Named opts] else result in
  record_call (Call_unref_outputs op) ;;
  engine (fun w => (Done tt, vips_object_unref_outputs vips_lib op w)) ;;
  pure (unwrap result).

(** [Operation.call] from the option string on: what is left of it once
    the operation object [op] and the descriptor [intro] are there and
    the number of positional arguments is right. *)
Definition call_body (operation_name op : string) (intro : Introspect)
    (string_options : value) (args : list value) (kwargs : kwargs_t)
    : M W returned :=
  record_call (Call_set_string op string_options) ;;
  ok <- engine (set_string vips_lib op string_options) ;;
  if negb ok then raise (Error_unable_to_call operation_name)
  else
    let match_image :=
      fst (_find_inside (fun x (_ : unit) => (is_Image x, tt))
             (VTuple args) tt) in
    let references : refdict := ∅ in
    references <-
      set_required_inputs op intro match_image
        (combine (required_input intro) args) references ;;
    references <- set_kwargs op intro match_image kwargs references ;;
    record_call (Call_build op) ;;
    built <- engine (fun w =>
               let '(b, w') := vips_cache_operation_build vips_lib op w in
               (Done b, w')) ;;
    if negb built then raise (Error_unable_to_call operation_name)
    else call_outputs op intro kwargs references.

(** The state after [e] was recorded and the engine moved to [w]. *)
Definition after_call (s : state W) (e : event) (w : W) : state W :=
  {| heap := heap s; _introspect_cache := _introspect_cache s;
     log := log s; calls := calls s ++ [e]; world := w |}.

Definition same_log (s s' : state W) : Prop := log s' = log s.

(** The event reads an output. *)
Definition is_get (e : event) : Prop :=
  match e with Call_get _ _ => True | _ => False end.

(** An event without the value that was marshalled for the engine. *)
Definition erase (e : event) : event :=
  match e with
  | Call_set o n _ => Call_set o n VNone
  | e => e
  end.

(** What the engine sees of a call up to the last output read: the
    option string, the required inputs in the order of the descriptor,
    the named arguments in the order of the caller, the build, the
    required outputs, and the optional outputs that were asked for. *)
Definition engine_protocol (op : string) (intro : Introspect)
    (string_options : value) (kwargs : kwargs_t) : list event :=
  Call_set_string op string_options ::
  map (fun n => Call_set op n VNone)
    (required_input intro ++ map fst kwargs) ++
  Call_build op ::
  map (Call_get op)
    (required_output intro ++ requested kwargs (optional_output intro)).

(** The named arguments of [kwargs] that the descriptor flags as
    deprecated, in the order of the caller. *)
Definition deprecated_names (intro : Introspect) (kwargs : kwargs_t)
    : list string :=
  List.filter
    (fun n => match details intro !! n with
              | Some d => flag_set (d_flags d) _DEPRECATED
              | None => false
              end)
    (map fst kwargs).

(** The heap after [references] was attached to some images. *)
Definition attached (references : refdict) (s s' : state W) : Prop :=
  exists xs, heap s' = attach references xs (heap s).

(** The exception comes from the code outside the module. *)
Definition is_Foreign (e : exn) : Prop :=
  match e with Foreign _ => True | _ => False end.

(** The exception is neither a [KeyError] nor the refusal of a named
    argument. *)
Definition not_about_names (e : exn) : Prop :=
  match e with
  | KeyError _ | Error_does_not_support _ _ => False
  | _ => True
  end.

(** ** The documentation generators *)

Definition _OPERATION_DEPRECATED : Z := 8.

Definition and_then {A B : Type} (r : doc_result A)
    (k : A -> doc_result B) : doc_result B :=
  match r with
  | Returns a => k a
  | Throws e => Throws e
  end.

Notation "x <~ r ; k" := (and_then r (fun x => k))
  (at level 100, r at next level, right associativity).

(** The line feed. *)
Definition nl : string := String (ascii_of_nat 10) EmptyString.

(** [intro.details[name]] *)
Definition details_of (intro : Introspect) (name : string)
    : doc_result arg_details :=
  match details intro !! name with
  | Some d => Returns d
  | None => Throws (Raised (KeyError name))
  end.

(** The loop that finds [member_x], the first required input whose type
    is the image type. *)
Fixpoint find_member_x (intro : Introspect) (names : list string)
    : doc_result (option string) :=
  match names with
  | [] => Returns None
  | name :: rest =>
      d <~ details_of intro name ;
      if d_type d =? image_type vips_lib then Returns (Some name)
      else find_member_x intro rest
  end.

(** [s[0].upper() + s[1:]] *)
Definition capitalised (py : python_strings) (s : string)
    : doc_result string :=
  match s with
  | EmptyString => Throws IndexError
  | String c rest => Returns (upper py c +:+ rest)
  end.

(** [[f(x) for x in names]] *)
Fixpoint for_each {A B : Type} (f : A -> doc_result B) (l : list A)
    : doc_result (list B) :=
  match l with
  | [] => Returns []
  | x :: rest =>
      y <~ f x ;
      ys <~ for_each f rest ;
      Returns (y :: ys)
  end.

(** [x + ' = ' + GValue.gtype_to_python(intro.details[x]['type'])] *)
Definition with_default (py : python_strings) (intro : Introspect)
    (x : string) : doc_result string :=
  d <~ details_of intro x ;
  Returns (x +:+ " = " +:+ gtype_to_python py (d_type d)).

(** [argstr] of [generate_docstring] *)
Definition argstr (py : python_strings) (intro : Introspect)
    (name : string) : doc_result string :=
  d <~ details_of intro name ;
  Returns ("    " +:+ name +:+ " (" +:+ gtype_to_python py (d_type d) +:+
           "): " +:+ d_blurb d +:+ nl).

(** [for name in names: result += line(name)] *)
Fixpoint add_lines (line : string -> doc_result string)
    (names : list string) (result : string) : doc_result string :=
  match names with
  | [] => Returns result
  | name :: rest =>
      l <~ line name ;
      add_lines line rest (result +:+ l)
  end.

(** The example line the two generators share, from the name of the
    operation on: [x.name(] or [pyvips.Image.name(], the required inputs,
    the optional inputs with their types, and the closing bracket. *)
Definition example_call (py : python_strings) (operation_name : string)
    (intro : Introspect) (member_x : option string) (result : string)
    : doc_result string :=
  let result :=
    match member_x with
    | Some x => result +:+ x +:+ "." +:+ operation_name +:+ "("
    | None => result +:+ "pyvips.Image." +:+ operation_name +:+ "("
    end in
  let result := result +:+ String.concat ", " (required_input intro) in
  let result :=
    if (0 <? length (optional_input intro))%nat &&
       (0 <? length (required_input intro))%nat
    then result +:+ ", " else result in
  defaults <~ for_each (with_default py intro) (optional_input intro) ;
  Returns (result +:+ String.concat ", " defaults +:+ ")").

(** The text [generate_docstring] builds from a descriptor. *)
Definition docstring (py : python_strings) (operation_name : string)
    (intro : Introspect) : doc_result string :=
  (* find the first required input image arg, if any ... that will be
     self *)
  member_x <~ find_member_x intro (required_input intro) ;
  first <~ capitalised py (description intro) ;
  let result := first +:+ "." +:+ nl +:+ nl in
  let result := result +:+ "Example:" +:+ nl in
  let result :=
    result +:+ "   " +:+ String.concat ", " (required_output intro) +:+
    " = " in
  result <~ example_call py operation_name intro member_x result ;
  let result := result +:+ nl in
  let result := result +:+ nl +:+ "Returns:" +:+ nl in
  result <~ add_lines (argstr py intro) (required_output intro) result ;
  let names :=
    match member_x with Some x => [x] | None => [] end ++
    required_input intro in
  let result := result +:+ nl +:+ "Args:" +:+ nl in
  result <~ add_lines (argstr py intro) names result ;
  result <~
    (if (0 <? length (optional_input intro))%nat
     then add_lines (argstr py intro) (optional_input intro)
            (result +:+ nl +:+ "Keyword args:" +:+ nl)
     else Returns result) ;
  result <~
    (if (0 <? length (optional_output intro))%nat
     then add_lines (argstr py intro) (optional_output intro)
            (result +:+ nl +:+ "Other Parameters:" +:+ nl)
     else Returns result) ;
  Returns (result +:+ nl +:+ "Raises:" +:+ nl +:+ "    :class:`.Error`" +:+ nl).

(** The state of the generators: the state of the calls, and the class
    attribute [Operation._docstring_cache]. *)
Record doc_state : Type := {
  python : state W;
  _docstring_cache : gmap string string
}.

(** [Operation.generate_docstring] *)
Definition generate_docstring (py : python_strings)
    (operation_name : string) (s : doc_state)
    : doc_result string * doc_state :=
  match _docstring_cache s !! operation_name with
  | Some cached => (Returns cached, s)
  | None =>
      match Introspect_get operation_name (python s) with
      | (Raise e, p) =>
          (Throws (Raised e),
           {| python := p; _docstring_cache := _docstring_cache s |})
      | (Ok intro, p) =>
          if flag_set (flags intro) _OPERATION_DEPRECATED
          then (Throws (Error_deprecated operation_name),
                {| python := p; _docstring_cache := _docstring_cache s |})
          else
            match docstring py operation_name intro with
            | Throws e =>
                (Throws e,
                 {| python := p; _docstring_cache := _docstring_cache s |})
            | Returns result =>
                (* add to cache to save building again *)
                (Returns result,
                 {| python := p;
                    _docstring_cache :=
                      <[operation_name := result]> (_docstring_cache s) |})
            end
      end
  end.

(** [':param {0} {1}: {2}\n'] of [generate_sphinx] *)
Definition param_line (py : python_strings) (intro : Introspect)
    (name : string) : doc_result string :=
  d <~ details_of intro name ;
  Returns (":param " +:+ gtype_to_python py (d_type d) +:+ " " +:+ name +:+
           ": " +:+ d_blurb d +:+ nl).

(** [':param bool {0}: enable output: {1}\n'] of [generate_sphinx] *)
Definition enable_line (intro : Introspect) (name : string)
    : doc_result string :=
  d <~ details_of intro name ;
  Returns (":param bool " +:+ name +:+ ": enable output: " +:+ d_blurb d +:+
           nl).

(** [GValue.gtype_to_python(intro.details[name]['type'])] *)
Definition python_type (py : python_strings) (intro : Introspect)
    (name : string) : doc_result string :=
  d <~ details_of intro name ;
  Returns (gtype_to_python py (d_type d)).

(** The text [generate_sphinx] builds from a descriptor. *)
Definition sphinx (py : python_strings) (operation_name : string)
    (intro : Introspect) : doc_result string :=
  member_x <~ find_member_x intro (required_input intro) ;
  let result :=
    match member_x with
    | Some _ => ".. method:: "
    | None => ".. staticmethod:: "
    end in
  defaults <~ for_each (with_default py intro) (optional_input intro) ;
  let args :=
    required_input intro ++ defaults ++
    map (fun x => x +:+ " = bool") (optional_output intro) in
  let result :=
    result +:+ operation_name +:+ "(" +:+ String.concat ", " args +:+ ")" +:+
    nl +:+ nl in
  first <~ capitalised py (description intro) ;
  let result := result +:+ first +:+ "." +:+ nl +:+ nl in
  let result := result +:+ "Example:" +:+ nl in
  let result :=
    result +:+ "    " +:+ String.concat ", " (required_output intro) +:+
    " = " in
  result <~ example_call py operation_name intro member_x result ;
  let result := result +:+ nl +:+ nl in
  result <~
    add_lines (param_line py intro)
      (required_input intro ++ optional_input intro) result ;
  result <~ add_lines (enable_line intro) (optional_output intro) result ;
  output_types <~ for_each (python_type py intro) (required_output intro) ;
  let output_type :=
    match output_types with
    | [t] => t
    | _ => "list[" +:+ String.concat ", " output_types +:+ "]"
    end in
  let output_type :=
    if (0 <? length (optional_output intro))%nat
    then output_type +:+ " or list[" +:+
         String.concat ", " (output_types ++ ["Dict[str, mixed]"]) +:+ "]"
    else output_type in
  let result := result +:+ ":rtype: " +:+ output_type +:+ nl in
  Returns (result +:+ ":raises Error:" +:+ nl).

(** [Operation.generate_sphinx] *)
Definition generate_sphinx (py : python_strings) (operation_name : string)
    : state W -> doc_result string * state W :=
  fun s =>
    match Introspect_get operation_name s with
    | (Raise e, s1) => (Throws (Raised e), s1)
    | (Ok intro, s1) =>
        (if flag_set (flags intro) _OPERATION_DEPRECATED
         then Throws (Error_deprecated operation_name)
         else sphinx py operation_name intro,
         s1)
    end.

(** Every name in one of the four lists of the descriptor has an entry
    in its [details]. *)
Definition covered (intro : Introspect) : Prop :=
  forall n,
    n ∈ required_input intro ++ optional_input intro ++
        required_output intro ++ optional_output intro ->
    is_Some (details intro !! n).

(** The lines joined, as [result += line] leaves them. *)
Definition joined (lines : list string) : string :=
  fold_right String.append EmptyString lines.

(** The first name whose entry in [details] has the image type. *)
Definition first_image_input (intro : Introspect) (names : list string)
    : option string :=
  head (List.filter
          (fun n => match details intro !! n with
                    | Some d => d_type d =? image_type vips_lib
                    | None => false
                    end)
          names).

(** * Properties *)

(** ** [_find_inside] *)

Lemma _find_inside_unfold {S : Type} (pred : value -> S -> bool * S)
    (thing : value) (s : S) :
  _find_inside pred thing s =
    let '(found, s1) := pred thing s in
    if found then (thing, s1)
    else match thing with
         | VList l | VTuple l => _find_inside_loop pred l s1
         | _ => (VNone, s1)
         end.
Proof.
  destruct thing; simpl; destruct (pred _ s) as [found s1];
    destruct found; try reflexivity.
  - revert s1. induction l as [ | x l IH ]; intros s1; [ reflexivity | ].
    simpl. destruct (_find_inside pred x s1) as [r s2].
    destruct (is_None r); [ apply IH | reflexivity ].
  - revert s1. induction l as [ | x l IH ]; intros s1; [ reflexivity | ].
    simpl. destruct (_find_inside pred x s1) as [r s2].
    destruct (is_None r); [ apply IH | reflexivity ].
Qed.

Lemma images_VList l : images (VList l) = images_of_list l.
Proof.
  simpl. induction l as [ | x l IH ]; [ reflexivity | ].
  unfold images_of_list. simpl. f_equal. exact IH.
Qed.

Lemma images_VTuple l : images (VTuple l) = images_of_list l.
Proof.
  simpl. induction l as [ | x l IH ]; [ reflexivity | ].
  unfold images_of_list. simpl. f_equal. exact IH.
Qed.

Lemma images_of_list_cons x l :
  images_of_list (x :: l) = images x ++ images_of_list l.
Proof. reflexivity. Qed.

Lemma images_of_list_app l1 l2 :
  images_of_list (l1 ++ l2) = images_of_list l1 ++ images_of_list l2.
Proof. unfold images_of_list. by rewrite map_app, concat_app. Qed.

(** A predicate that never stops the search, and changes its variable
    at images only, visits the images depth first, left to right. *)
Section collector.
Context {S : Type} (pred : value -> S -> bool * S) (g : img -> S -> S).
Hypothesis pred_image : forall i s, pred (VImage i) s = (false, g i s).
Hypothesis pred_other :
  forall v s, is_Image v = false -> pred v s = (false, s).

Lemma _find_inside_collector v s :
  _find_inside pred v s = (VNone, fold_left (fun s i => g i s) (images v) s).
Proof.
  revert s. induction v as [ | b | z | str | i | l IH | l IH ] using value_ind';
    intros s; rewrite _find_inside_unfold;
    try (rewrite pred_other by reflexivity; reflexivity).
  - rewrite pred_image. reflexivity.
  - rewrite pred_other by reflexivity. rewrite images_VList.
    revert s. induction IH as [ | x l Hx _ IHl ]; intros s; [ reflexivity | ].
    simpl. rewrite Hx. simpl. rewrite images_of_list_cons, fold_left_app.
    apply IHl.
  - rewrite pred_other by reflexivity. rewrite images_VTuple.
    revert s. induction IH as [ | x l Hx _ IHl ]; intros s; [ reflexivity | ].
    simpl. rewrite Hx. simpl. rewrite images_of_list_cons, fold_left_app.
    apply IHl.
Qed.
End collector.

Lemma find_add_reference h v references :
  _find_inside (add_reference h) v references =
    (VNone, collect h (images v) references).
Proof.
  apply (_find_inside_collector (add_reference h)
           (fun i r => update r (refs_of h i))).
  - reflexivity.
  - intros [] ?; simpl; intros; (reflexivity || discriminate).
Qed.

Lemma find_set_reference references v h :
  _find_inside (set_reference references) v h =
    (VNone, attach references (images v) h).
Proof.
  apply (_find_inside_collector (set_reference references)
           (fun i h => <[i := update (refs_of h i) references]> h)).
  - reflexivity.
  - intros [] ?; simpl; intros; (reflexivity || discriminate).
Qed.

(** The search for the match image returns the first image in
    depth-first order. *)
Lemma find_is_Image_loop l :
  _find_inside_loop (fun x (_ : unit) => (is_Image x, tt)) l tt =
    (match images_of_list l with [] => VNone | i :: _ => VImage i end, tt).
Proof.
  induction l as [ | x l IHl ]; [ reflexivity | ].
  simpl. rewrite images_of_list_cons.
  assert (Hx : _find_inside (fun x (_ : unit) => (is_Image x, tt)) x tt =
               (match images x with [] => VNone | i :: _ => VImage i end, tt)).
  { clear IHl l.
    induction x as [ | b | z | str | i | l IH | l IH ] using value_ind';
      try reflexivity.
    - rewrite _find_inside_unfold, images_VList. simpl.
      induction IH as [ | y l Hy _ IHl ]; [ reflexivity | ].
      simpl. rewrite Hy, images_of_list_cons.
      destruct (images y); simpl; [ exact IHl | reflexivity ].
    - rewrite _find_inside_unfold, images_VTuple. simpl.
      induction IH as [ | y l Hy _ IHl ]; [ reflexivity | ].
      simpl. rewrite Hy, images_of_list_cons.
      destruct (images y); simpl; [ exact IHl | reflexivity ]. }
  rewrite Hx. destruct (images x); simpl; [ exact IHl | reflexivity ].
Qed.

(** ** Running a computation *)

Lemma bind_inv {A B : Type} (m : M W A) (k : A -> M W B) s r s' :
  bind m k s = (r, s') ->
  (exists a s1, m s = (Ok a, s1) /\ k a s1 = (r, s')) \/
  (exists e, m s = (Raise e, s') /\ r = Raise e).
Proof.
  unfold bind. destruct (m s) as [[a | e] s1]; intros H.
  - left. eauto.
  - right. exists e. by inversion H.
Qed.

Lemma bind_Ok_inv {A B : Type} (m : M W A) (k : A -> M W B) s b s' :
  bind m k s = (Ok b, s') ->
  exists a s1, m s = (Ok a, s1) /\ k a s1 = (Ok b, s').
Proof.
  intros H. apply bind_inv in H as [H | (e & _ & H)]; [ exact H | discriminate ].
Qed.

Lemma bind_Ok {A B : Type} (m : M W A) (k : A -> M W B) s a s1 :
  m s = (Ok a, s1) -> bind m k s = k a s1.
Proof. unfold bind. by intros ->. Qed.

Lemma bind_pure {A B : Type} (a : A) (k : A -> M W B) s :
  bind (pure a) k s = k a s.
Proof. reflexivity. Qed.

Lemma bind_Raise {A B : Type} (m : M W A) (k : A -> M W B) s e s1 :
  m s = (Raise e, s1) -> bind m k s = (Raise e, s1).
Proof. unfold bind. by intros ->. Qed.

Section respects.
Context (R : state W -> state W -> Prop).
Hypothesis R_refl : forall s, R s s.
Hypothesis R_trans : forall s1 s2 s3, R s1 s2 -> R s2 s3 -> R s1 s3.

Lemma respects_pure {A : Type} (a : A) : respects R (pure a).
Proof. intros s. apply R_refl. Qed.

Lemma respects_raise {A : Type} e : respects R (@raise W A e).
Proof. intros s. apply R_refl. Qed.

Lemma respects_of_result {A : Type} (r : result A) : respects R (of_result r).
Proof. intros s. apply R_refl. Qed.

Lemma respects_get_heap : respects R get_heap.
Proof. intros s. apply R_refl. Qed.

Lemma respects_bind {A B : Type} (m : M W A) (k : A -> M W B) :
  respects R m -> (forall a, respects R (k a)) -> respects R (bind m k).
Proof.
  intros Hm Hk s. unfold bind. specialize (Hm s).
  destruct (m s) as [[a | e] s1]; simpl in *; [ | exact Hm ].
  eapply R_trans; [ exact Hm | apply Hk ].
Qed.

Lemma respects_run {A : Type} (m : M W A) s r s' :
  respects R m -> m s = (r, s') -> R s s'.
Proof. intros Hm H. specialize (Hm s). by rewrite H in Hm. Qed.

Lemma respects_if {A : Type} (b : bool) (m1 m2 : M W A) :
  respects R m1 -> respects R m2 -> respects R (if b then m1 else m2).
Proof. by destruct b. Qed.
End respects.

(** ** What the steps of a call leave alone *)

Lemma same_python_refl s : same_python s s.
Proof. by split. Qed.

Lemma same_python_trans s1 s2 s3 :
  same_python s1 s2 -> same_python s2 s3 -> same_python s1 s3.
Proof.
  unfold same_python, same_heap, same_cache.
  intros [H1 H2] [H3 H4]. split; congruence.
Qed.

Lemma same_cache_refl s : same_cache s s.
Proof. reflexivity. Qed.

Lemma same_cache_trans s1 s2 s3 :
  same_cache s1 s2 -> same_cache s2 s3 -> same_cache s1 s3.
Proof. unfold same_cache. congruence. Qed.

Lemma engine_python {A : Type} (f : W -> outcome A * W) :
  respects same_python (engine f).
Proof. intros s. unfold engine. by destruct (f (world s)). Qed.

Lemma record_call_python e : respects same_python (record_call e).
Proof. by intros s. Qed.

Lemma logger_info_python o n : respects same_python (logger_info o n).
Proof. by intros s. Qed.

Create HintDb frame.

Ltac frame_step Hrefl Htrans :=
  first
    [ solve [ auto with frame ]
    | lazymatch goal with
      | |- respects _ (bind _ _) =>
          apply (respects_bind _ Htrans); [ | intros ? ]
      | |- respects _ (if _ then _ else _) => apply respects_if; [ | ]
      | |- respects _ (pure _) => apply (respects_pure _ Hrefl)
      | |- respects _ (raise _) => apply (respects_raise _ Hrefl)
      | |- respects _ (of_result _) => apply (respects_of_result _ Hrefl)
      | |- respects _ get_heap => apply (respects_get_heap _ Hrefl)
      end ].

Ltac python_frame := repeat frame_step same_python_refl same_python_trans.

#[local] Hint Resolve engine_python record_call_python logger_info_python
  : frame.

Lemma imageize_each_python m xs : respects same_python (imageize_each m xs).
Proof. induction xs as [ | x xs IH ]; simpl; python_frame. Qed.

Lemma unique_copy_python v : respects same_python (unique_copy v).
Proof. destruct v; simpl; python_frame. Qed.

#[local] Hint Resolve imageize_each_python unique_copy_python : frame.

Lemma Operation_set_python op n f m v :
  respects same_python (Operation_set op n f m v).
Proof. unfold Operation_set. python_frame. Qed.

#[local] Hint Resolve Operation_set_python : frame.

Lemma set_required_inputs_python op intro m pairs references :
  respects same_python (set_required_inputs op intro m pairs references).
Proof.
  revert references.
  induction pairs as [ | [n v] pairs IH ]; intros references; simpl.
  - python_frame.
  - frame_step same_python_refl same_python_trans; [ python_frame | ].
    destruct (details intro !! n); python_frame.
Qed.

Lemma set_kwargs_python op intro m kwargs references :
  respects same_python (set_kwargs op intro m kwargs references).
Proof.
  revert references.
  induction kwargs as [ | [n v] kwargs IH ]; intros references; simpl.
  - python_frame.
  - destruct (details intro !! n); python_frame.
Qed.

(** ** Collecting and attaching references *)

Lemma update_idemp (d references : refdict) :
  update (update d references) references = update d references.
Proof.
  unfold update. by rewrite (assoc_L (∪)), (idemp_L (∪)).
Qed.

Lemma dom_update (d other : refdict) : dom (update d other) = dom d ∪ dom other.
Proof. unfold update. rewrite dom_union_L. set_solver. Qed.

Lemma collect_app h xs ys references :
  collect h (xs ++ ys) references = collect h ys (collect h xs references).
Proof. unfold collect. apply fold_left_app. Qed.

Lemma dom_collect h xs references :
  dom (collect h xs references) =
    dom references ∪ ⋃ (map (fun y => dom (refs_of h y)) xs).
Proof.
  revert references. induction xs as [ | x xs IH ]; intros references; simpl.
  - set_solver.
  - unfold collect in *. simpl. rewrite IH, dom_update. set_solver.
Qed.

Lemma attach_app references xs ys h :
  attach references (xs ++ ys) h = attach references ys (attach references xs h).
Proof. unfold attach. apply fold_left_app. Qed.

Lemma refs_of_insert (h : gmap img refdict) (y x : img) (d : refdict) :
  refs_of (<[y := d]> h) x = if decide (y = x) then d else refs_of h x.
Proof.
  unfold refs_of. rewrite lookup_insert. by destruct (decide (y = x)).
Qed.

(** After attaching, an image of the list carries its old references
    and the new ones; any other image is as it was. *)
Lemma refs_of_attach references xs h x :
  refs_of (attach references xs h) x =
    if decide (x ∈ xs) then update (refs_of h x) references else refs_of h x.
Proof.
  revert h. induction xs as [ | y xs IH ]; intros h.
  - simpl. destruct (decide (x ∈ [])) as [Hx | Hx]; [ | done ].
    by apply elem_of_nil in Hx.
  - change (attach references (y :: xs) h) with
      (attach references xs (<[y := update (refs_of h y) references]> h)).
    rewrite IH, refs_of_insert.
    destruct (decide (y = x)) as [-> | Hne].
    + destruct (decide (x ∈ xs)), (decide (x ∈ x :: xs)) as [ | Hn ];
        try done; try (by rewrite update_idemp);
        exfalso; apply Hn; by left.
    + destruct (decide (x ∈ xs)) as [Hx | Hx],
        (decide (x ∈ y :: xs)) as [Hy | Hy]; try done.
      * exfalso. apply Hy. by right.
      * exfalso. apply elem_of_cons in Hy as [-> | ]; done.
Qed.

(** ** The loops of a call that succeed *)

Lemma get_heap_inv s h s1 : @get_heap W s = (Ok h, s1) -> h = heap s /\ s1 = s.
Proof. unfold get_heap. intros H. by inversion H. Qed.

Lemma set_required_inputs_Ok op intro m pairs references s references' s' :
  set_required_inputs op intro m pairs references s = (Ok references', s') ->
  references' = collect (heap s) (images_of_list (map snd pairs)) references.
Proof.
  revert references s.
  induction pairs as [ | [n v] pairs IH ]; intros references s H; simpl in H.
  - by inversion H.
  - apply bind_Ok_inv in H as (h & s1 & Hh & H).
    apply get_heap_inv in Hh as [-> ->].
    destruct (details intro !! n) as [d | ]; [ | discriminate ].
    apply bind_Ok_inv in H as ([] & s2 & Hset & H).
    apply IH in H. rewrite H.
    pose proof (Operation_set_python op n (d_flags d) m v s) as [Hh _].
    rewrite Hset in Hh. simpl in Hh. unfold same_heap in Hh. rewrite Hh.
    simpl. rewrite images_of_list_cons, collect_app.
    by rewrite find_add_reference.
Qed.

Lemma set_kwargs_Ok op intro m kwargs references s references' s' :
  set_kwargs op intro m kwargs references s = (Ok references', s') ->
  references' = collect (heap s) (images_of_list (map snd kwargs)) references.
Proof.
  revert references s.
  induction kwargs as [ | [n v] kwargs IH ]; intros references s H; simpl in H.
  - by inversion H.
  - destruct (details intro !! n) as [d | ]; [ | discriminate ].
    destruct (negb (in_list n (optional_input intro)) &&
              negb (in_list n (optional_output intro))); [ discriminate | ].
    apply bind_Ok_inv in H as ([] & s1 & Hlog & H).
    assert (Hs1 : heap s1 = heap s).
    { destruct (flag_set (d_flags d) _DEPRECATED); by inversion Hlog. }
    apply bind_Ok_inv in H as (h & s2 & Hh & H).
    apply get_heap_inv in Hh as [-> ->].
    apply bind_Ok_inv in H as ([] & s3 & Hset & H).
    apply IH in H. rewrite H.
    pose proof (Operation_set_python op n (d_flags d) m v s1) as [Hh _].
    rewrite Hset in Hh. simpl in Hh. unfold same_heap in Hh. rewrite Hh, Hs1.
    simpl. rewrite images_of_list_cons, collect_app.
    by rewrite find_add_reference.
Qed.

Lemma fetch_Ok op references n s v s' :
  fetch op references n s = (Ok v, s') ->
  heap s' = attach references (images v) (heap s) /\ same_cache s s'.
Proof.
  unfold fetch. intros H.
  apply bind_Ok_inv in H as ([] & s1 & H1 & H). inversion H1; subst s1; clear H1.
  apply bind_Ok_inv in H as (v' & s2 & H2 & H).
  apply bind_Ok_inv in H as (h & s3 & Hh & H).
  apply get_heap_inv in Hh as [-> ->].
  apply bind_Ok_inv in H as ([] & s4 & H4 & H).
  inversion H; subst; clear H. inversion H4; subst; clear H4. simpl.
  rewrite find_set_reference. simpl.
  unfold engine in H2. simpl in H2.
  destruct (VipsObject_get vips_lib op n (world s)) as [r w]. inversion H2; subst.
  by split.
Qed.

Lemma get_required_outputs_Ok op references names result s result' s' :
  get_required_outputs op references names result s = (Ok result', s') ->
  exists vals,
    result' = result ++ map Value vals /\
    length vals = length names /\
    heap s' = attach references (images_of_list vals) (heap s) /\
    same_cache s s'.
Proof.
  revert result s. induction names as [ | n names IH ]; intros result s H;
    simpl in H.
  - inversion H; subst. exists []. by rewrite app_nil_r.
  - apply bind_Ok_inv in H as (v & s1 & Hv & H).
    apply fetch_Ok in Hv as [Hh Hc].
    apply IH in H as (vals & -> & Hlen & Hh' & Hc').
    exists (v :: vals). repeat split.
    + by rewrite <- app_assoc.
    + simpl. by rewrite Hlen.
    + by rewrite Hh', Hh, images_of_list_cons, attach_app.
    + by eapply same_cache_trans.
Qed.

Lemma get_optional_outputs_Ok op references kwargs names opts s opts' s' :
  get_optional_outputs op references kwargs names opts s = (Ok opts', s') ->
  exists fetched,
    map fst fetched = requested kwargs names /\
    opts' = store_named fetched opts /\
    heap s' = attach references (images_of_list (map snd fetched)) (heap s) /\
    same_cache s s'.
Proof.
  revert opts s. induction names as [ | n names IH ]; intros opts s H;
    simpl in H.
  - inversion H; subst. by exists [].
  - unfold requested. simpl. destruct (has_key n kwargs).
    + apply bind_Ok_inv in H as (v & s1 & Hv & H).
      apply fetch_Ok in Hv as [Hh Hc].
      apply IH in H as (fetched & Hf & -> & Hh' & Hc').
      exists ((n, v) :: fetched). repeat split.
      * simpl. by rewrite Hf.
      * simpl. by rewrite Hh', Hh, images_of_list_cons, attach_app.
      * by eapply same_cache_trans.
    + apply IH in H as (fetched & Hf & -> & Hh' & Hc'). by exists fetched.
Qed.

(** ** [Introspect.get] and the start of a call *)

Lemma Introspect_get_Ok op s intro s1 :
  Introspect_get op s = (Ok intro, s1) ->
  heap s1 = heap s /\ calls s1 = calls s /\ world s1 = world s /\
  log s1 = log s /\ _introspect_cache s1 !! op = Some intro.
Proof.
  unfold Introspect_get. intros H.
  destruct (_introspect_cache s !! op) as [i | ] eqn:Hc.
  - inversion H; subst. by repeat split.
  - destruct (Introspect_init op) as [i | e]; inversion H; subst; simpl.
    repeat split. apply lookup_insert_eq.
Qed.

Lemma Introspect_get_Raise op s e s1 :
  Introspect_get op s = (Raise e, s1) -> s1 = s.
Proof.
  unfold Introspect_get. intros H.
  destruct (_introspect_cache s !! op) as [i | ]; [ discriminate | ].
  destruct (Introspect_init op) as [i | e']; by inversion H.
Qed.

Lemma Operation_new_from_name_inv op s r s1 :
  Operation_new_from_name op s = (r, s1) ->
  s1 = s /\
  (r = Ok op /\ vips_operation_new vips_lib op = true \/
   r = Raise (Error_no_such_operation op) /\
   vips_operation_new vips_lib op = false).
Proof.
  unfold Operation_new_from_name.
  destruct (vips_operation_new vips_lib op); simpl; intros H;
    inversion H; subst; auto.
Qed.

(** What a call that returns went through. *)
Lemma call_Ok_inv op args kwargs s r s' :
  call op args kwargs s = (Ok r, s') ->
  exists intro vals fetched,
    let kw := snd (pop "string_options" (VStr "") kwargs) in
    let references :=
      collect (heap s) (images_of_list (args ++ map snd kw)) ∅ in
    let opts := store_named fetched ∅ in
    _introspect_cache s' !! op = Some intro /\
    length (required_input intro) = length args /\
    length vals = length (required_output intro) /\
    map fst fetched = requested kw (optional_output intro) /\
    r = unwrap (map Value vals ++
                if (0 <? size opts)%nat then [Named opts] else []) /\
    heap s' = attach references (images_of_list (vals ++ map snd fetched))
                (heap s).
Proof.
  unfold call. destruct (pop "string_options" (VStr "") kwargs) as [so kw].
  cbv beta iota. intros H.
  apply bind_Ok_inv in H as (op' & s0 & Hnew & H).
  apply Operation_new_from_name_inv in Hnew as [-> [[Hop _] | [Hop _]]];
    [ | discriminate ].
  inversion Hop; subst op'; clear Hop.
  apply bind_Ok_inv in H as (intro & s1 & Hintro & H).
  apply Introspect_get_Ok in Hintro as (Hh1 & _ & _ & _ & Hcache).
  destruct (length (required_input intro) =? length args)%nat eqn:Hlen;
    cbn [negb] in H; [ | discriminate ].
  apply Nat.eqb_eq in Hlen.
  apply bind_Ok_inv in H as ([] & s2 & H2 & H). inversion H2; subst s2; clear H2.
  apply bind_Ok_inv in H as (ok & s3 & H3 & H).
  pose proof (respects_run _ _ _ _ _ (engine_python _) H3) as Hs3.
  destruct Hs3 as [Hh3 Hc3]. unfold same_heap, same_cache in Hh3, Hc3.
  simpl in Hh3, Hc3.
  destruct ok; cbn [negb] in H; [ | discriminate ].
  apply bind_Ok_inv in H as (refs1 & s4 & H4 & H).
  pose proof (respects_run _ _ _ _ _
                (set_required_inputs_python _ _ _ _ _) H4) as [Hh4 Hc4].
  unfold same_heap, same_cache in Hh4, Hc4.
  apply set_required_inputs_Ok in H4.
  apply bind_Ok_inv in H as (refs2 & s5 & H5 & H).
  pose proof (respects_run _ _ _ _ _
                (set_kwargs_python _ _ _ _ _) H5) as [Hh5 Hc5].
  unfold same_heap, same_cache in Hh5, Hc5.
  apply set_kwargs_Ok in H5.
  apply bind_Ok_inv in H as ([] & s6 & H6 & H). inversion H6; subst s6; clear H6.
  apply bind_Ok_inv in H as (built & s7 & H7 & H).
  unfold engine in H7. simpl in H7.
  destruct (vips_cache_operation_build vips_lib op (world s5)) as [b w7].
  inversion H7; subst built s7; clear H7.
  destruct b; cbn [negb] in H; [ | discriminate ].
  apply bind_Ok_inv in H as (result & s8 & H8 & H).
  apply get_required_outputs_Ok in H8 as (vals & -> & Hvals & Hh8 & Hc8).
  apply bind_Ok_inv in H as (opts & s9 & H9 & H).
  apply get_optional_outputs_Ok in H9 as (fetched & Hf & -> & Hh9 & Hc9).
  apply bind_Ok_inv in H as ([] & s10 & H10 & H).
  inversion H10; subst s10; clear H10.
  apply bind_Ok_inv in H as ([] & s11 & H11 & H).
  inversion H11; subst s11; clear H11.
  inversion H; subst r s'; clear H. simpl.
  exists intro, vals, fetched.
  unfold same_cache in Hc8, Hc9. simpl in Hc8, Hh8.
  split; [ by rewrite Hc9, Hc8, Hc5, Hc4, Hc3 | ].
  do 3 (split; [ done | ]). split.
  - destruct (0 <? size (store_named fetched ∅))%nat; [ done | ].
    by rewrite app_nil_r.
  - rewrite Hh9, Hh8, (images_of_list_app vals), attach_app, Hh5, Hh4, Hh3, Hh1.
    rewrite H5, H4, Hh4, Hh3, Hh1.
    rewrite (images_of_list_app args), collect_app.
    assert (Hsnd : map snd (combine (required_input intro) args) = args).
    { clear -Hlen. revert args Hlen.
      induction (required_input intro) as [ | n l IH ]; intros [ | a args] Hlen;
        simpl in *; try done. f_equal. apply IH. lia. }
    by rewrite Hsnd.
Qed.

(** ** What a call returns *)

Lemma returned_items_unwrap l : returned_items (unwrap l) = l.
Proof. by destruct l as [ | x [ | y l ] ]. Qed.

Lemma elem_of_images_of_list x l :
  x ∈ images_of_list l <-> exists v, v ∈ l /\ x ∈ images v.
Proof.
  induction l as [ | y l IH ].
  - split; [ intros H; by apply elem_of_nil in H | ].
    intros (v & Hv & _). by apply elem_of_nil in Hv.
  - rewrite images_of_list_cons, elem_of_app, IH. split.
    + intros [Hx | (v & Hv & Hx)].
      * exists y. split; [ by left | done ].
      * exists v. split; [ by right | done ].
    + intros (v & Hv & Hx). apply elem_of_cons in Hv as [-> | Hv]; eauto.
Qed.

Lemma store_named_lookup fetched opts n v :
  store_named fetched opts !! n = Some v ->
  (n, v) ∈ fetched \/ opts !! n = Some v.
Proof.
  revert opts. induction fetched as [ | [n' v'] fetched IH ]; intros opts H.
  - by right.
  - change (store_named ((n', v') :: fetched) opts)
      with (store_named fetched (<[n' := v']> opts)) in H.
    apply IH in H as [H | H].
    + left. by right.
    + rewrite lookup_insert in H. destruct (decide (n' = n)) as [-> | ].
      * inversion H; subst. left. by left.
      * by right.
Qed.

Lemma dom_store_named fetched opts :
  dom (store_named fetched opts) = dom opts ∪ list_to_set (map fst fetched).
Proof.
  revert opts. induction fetched as [ | [n v] fetched IH ]; intros opts.
  - simpl. set_solver.
  - change (store_named ((n, v) :: fetched) opts)
      with (store_named fetched (<[n := v]> opts)).
    rewrite IH, dom_insert_L. simpl. set_solver.
Qed.

Lemma size_positive_nonempty (opts : gmap string value) :
  (0 <? size opts)%nat = negb (bool_decide (opts = ∅)).
Proof.
  destruct (bool_decide_reflect (opts = ∅)) as [-> | Hne]; simpl.
  - by rewrite map_size_empty.
  - apply Nat.ltb_lt.
    assert (size opts <> 0%nat); [ | lia ].
    by intros He%map_size_empty_iff.
Qed.

(** Every image found in what a call returned was among the images
    the references were attached to. *)
Lemma found_in_unwrap vals fetched x :
  let opts := store_named fetched ∅ in
  found_in (unwrap (map Value vals ++
                    if (0 <? size opts)%nat then [Named opts] else [])) x ->
  x ∈ images_of_list (vals ++ map snd fetched).
Proof.
  intros opts (it & Hit & Hx). rewrite returned_items_unwrap in Hit.
  rewrite images_of_list_app. apply elem_of_app.
  apply elem_of_app in Hit as [Hit | Hit].
  - left. apply list_elem_of_fmap in Hit as (v & -> & Hv).
    apply elem_of_images_of_list. eauto.
  - right. destruct (0 <? size opts)%nat; [ | by apply elem_of_nil in Hit ].
    apply list_elem_of_singleton in Hit as ->.
    destruct Hx as (n & v & Hnv & Hx).
    apply store_named_lookup in Hnv as [Hnv | Hnv]; [ | done ].
    apply elem_of_images_of_list. exists v. split; [ | done ].
    apply list_elem_of_fmap. by exists (n, v).
Qed.

Lemma returned_named_unwrap vals fetched :
  let opts := store_named fetched ∅ in
  returned_named (unwrap (map Value vals ++
                          if (0 <? size opts)%nat then [Named opts] else []))
  = opts.
Proof.
  intros opts. unfold returned_named. rewrite returned_items_unwrap.
  rewrite size_positive_nonempty.
  destruct (bool_decide_reflect (opts = ∅)) as [He | Hne]; simpl.
  - rewrite app_nil_r, He.
    destruct (last (map Value vals)) as [ [ v | o ] | ] eqn:Hl; try done.
    apply last_Some in Hl as (l' & Hl).
    assert (Hin : (Named o : item) ∈ map Value vals).
    { rewrite Hl. apply elem_of_app. right. by left. }
    apply list_elem_of_fmap in Hin as (v & Hv & _). discriminate.
  - by rewrite last_snoc.
Qed.

(** The references attached to the images of a successful call. *)
Lemma call_attached op args kwargs s r s' x :
  call op args kwargs s = (Ok r, s') ->
  found_in r x ->
  dom (refs_of (heap s') x) =
    dom (refs_of (heap s) x) ∪
    input_references (heap s) args
      (snd (pop "string_options" (VStr "") kwargs)).
Proof.
  intros H Hx.
  apply call_Ok_inv in H as (intro & vals & fetched & _ & _ & _ & _ & -> & ->).
  apply found_in_unwrap in Hx.
  rewrite refs_of_attach. rewrite decide_True by done.
  rewrite dom_update, dom_collect, dom_empty_L.
  unfold input_references. set_solver.
Qed.

(** C1: after a call returns, every image found among its outputs
    (inside nested lists and tuples, or inside the dictionary of optional
    outputs) has as reference set the union of the set it had with the
    reference sets of all the images reachable in the positional and
    named inputs, as they were when the call was made; nothing it carried
    is dropped, and an output that carried no reference ends with exactly
    the union of the inputs' sets. *)
Theorem call_references_union op args kwargs s r s' :
  call op args kwargs s = (Ok r, s') ->
  forall x, found_in r x ->
    let inputs :=
      input_references (heap s) args
        (snd (pop "string_options" (VStr "") kwargs)) in
    dom (refs_of (heap s') x) = dom (refs_of (heap s) x) ∪ inputs /\
    dom (refs_of (heap s) x) ⊆ dom (refs_of (heap s') x) /\
    (dom (refs_of (heap s) x) = ∅ -> dom (refs_of (heap s') x) = inputs).
Proof.
  intros H x Hx inputs.
  pose proof (call_attached _ _ _ _ _ _ _ H Hx) as Heq. fold inputs in Heq.
  split; [ exact Heq | ]. split.
  - rewrite Heq. set_solver.
  - intros He. rewrite Heq, He. set_solver.
Qed.


(** ** The calls made on the operation *)

Lemma same_calls_refl s : same_calls s s.
Proof. reflexivity. Qed.

Lemma same_calls_trans s1 s2 s3 :
  same_calls s1 s2 -> same_calls s2 s3 -> same_calls s1 s3.
Proof. unfold same_calls. congruence. Qed.

Ltac calls_frame := repeat frame_step same_calls_refl same_calls_trans.

Lemma engine_calls {A : Type} (f : W -> outcome A * W) :
  respects same_calls (engine f).
Proof. intros s. unfold engine. by destruct (f (world s)). Qed.

Lemma logger_info_calls o n : respects same_calls (logger_info o n).
Proof. by intros s. Qed.

Lemma set_heap_calls h : respects same_calls (set_heap h).
Proof. by intros s. Qed.

#[local] Hint Resolve engine_calls logger_info_calls set_heap_calls : frame.

Lemma imageize_each_calls m xs : respects same_calls (imageize_each m xs).
Proof. induction xs as [ | x xs IH ]; simpl; calls_frame. Qed.

Lemma unique_copy_calls v : respects same_calls (unique_copy v).
Proof. destruct v; simpl; calls_frame. Qed.

#[local] Hint Resolve imageize_each_calls unique_copy_calls : frame.

Lemma engine_inv {A : Type} (f : W -> outcome A * W) s a s' :
  engine f s = (Ok a, s') -> f (world s) = (Done a, world s').
Proof.
  unfold engine. destruct (f (world s)) as [[a' | msg] w]; intros H;
    by inversion H.
Qed.

Lemma imageize_each_Ok m xs s ys s' :
  imageize_each m xs s = (Ok ys, s') ->
  Forall2 (fun x y => exists w w', _imageize vips_lib m x w = (Done y, w'))
    xs ys.
Proof.
  revert s ys. induction xs as [ | x xs IH ]; intros s ys H; simpl in H.
  - inversion H. constructor.
  - apply bind_Ok_inv in H as (y & s1 & Hy & H).
    apply bind_Ok_inv in H as (ys' & s2 & Hys & H).
    inversion H; subst. constructor; [ | by eapply IH ].
    apply engine_inv in Hy. eauto.
Qed.

Lemma unique_copy_Ok flags p s v s' :
  flag_set flags _MODIFY = true ->
  unique_copy p s = (Ok v, s') -> copied flags p v.
Proof.
  intros Hf H. unfold copied. rewrite Hf.
  destruct p; simpl in H; try discriminate.
  apply bind_Ok_inv in H as (c & s1 & Hc & H).
  apply bind_Ok_inv in H as (m & s2 & Hm & H).
  inversion H; subst. apply engine_inv in Hc, Hm.
  by exists i, c, m, (world s), (world s1), (world s1), (world s').
Qed.

(** [Operation.set] makes at most one call on the operation, a [set] of
    the marshalled value. *)
Lemma Operation_set_calls op n f m v0 s r s' :
  Operation_set op n f m v0 s = (r, s') ->
  calls s' = calls s \/
  exists v, calls s' = calls s ++ [Call_set op n v] /\ marshalled op n f m v0 v.
Proof.
  unfold Operation_set. intros H.
  apply bind_inv in H as [(p & s1 & Hp & H) | (e & Hp & _)].
  2:{ left. revert Hp. apply (respects_run same_calls). calls_frame. }
  assert (Hs1 : calls s1 = calls s).
  { revert Hp. apply (respects_run same_calls). calls_frame. }
  assert (Hprom : promoted m v0 p (get_typeof vips_lib op n)).
  { unfold promoted. destruct (truthy m); [ | by inversion Hp ].
    destruct (get_typeof vips_lib op n =? image_type vips_lib).
    { apply engine_inv in Hp. eauto. }
    destruct (get_typeof vips_lib op n =? array_image_type vips_lib);
      [ | by inversion Hp ].
    apply bind_Ok_inv in Hp as (xs & s2 & Hxs & Hp).
    apply bind_Ok_inv in Hp as (ys & s3 & Hys & Hp).
    inversion Hp; subst. inversion Hxs; subst.
    exists xs, ys. repeat split; try done. by eapply imageize_each_Ok. }
  apply bind_inv in H as [(v & s2 & Hv & H) | (e & Hv & _)].
  2:{ left. rewrite <- Hs1. revert Hv. apply (respects_run same_calls).
      calls_frame. }
  assert (Hs2 : calls s2 = calls s1).
  { revert Hv. apply (respects_run same_calls). calls_frame. }
  assert (Hcop : copied f p v).
  { destruct (flag_set f _MODIFY) eqn:Hf.
    - by eapply unique_copy_Ok.
    - unfold copied. rewrite Hf. by inversion Hv. }
  right. exists v. split; [ | by exists p ].
  apply bind_inv in H as [([] & s3 & H3 & H) | (e & H3 & _)];
    [ | discriminate ].
  inversion H3; subst s3; clear H3.
  apply (respects_run same_calls _ _ _ _ (engine_calls _)) in H.
  unfold same_calls in H. simpl in H. by rewrite H, Hs2, Hs1.
Qed.

Lemma extends_refl P s : extends P s s.
Proof. split; [ done | ]. exists []. by rewrite app_nil_r. Qed.

Lemma extends_trans P s1 s2 s3 :
  extends P s1 s2 -> extends P s2 s3 -> extends P s1 s3.
Proof.
  intros [Hc1 (n1 & H1 & F1)] [Hc2 (n2 & H2 & F2)]. split.
  - by eapply same_cache_trans.
  - exists (n1 ++ n2). split; [ by rewrite H2, H1, app_assoc | ].
    by apply Forall_app.
Qed.

Ltac extends_frame P := repeat frame_step (extends_refl P) (extends_trans P).

Lemma quiet_extends P {A : Type} (m : M W A) :
  respects same_python m -> respects same_calls m -> respects (extends P) m.
Proof.
  intros Hp Hc s. destruct (Hp s) as [_ Hcache]. specialize (Hc s).
  split; [ done | ]. exists []. rewrite app_nil_r. split; [ done | constructor ].
Qed.

Lemma engine_extends P {A : Type} (f : W -> outcome A * W) :
  respects (extends P) (engine f).
Proof. apply quiet_extends; auto with frame. Qed.

Lemma logger_info_extends P o n : respects (extends P) (logger_info o n).
Proof. apply quiet_extends; auto with frame. Qed.

Lemma set_heap_extends P h : respects (extends P) (set_heap h).
Proof.
  intros s. split; [ done | ]. exists []. simpl. rewrite app_nil_r.
  split; [ done | constructor ].
Qed.

Lemma record_call_extends (P : event -> Prop) e :
  P e -> respects (extends P) (record_call e).
Proof.
  intros He s. split; [ done | ]. exists [e]. split; [ done | ].
  by constructor.
Qed.

Lemma Operation_set_extends (P : event -> Prop) op n f m v0 :
  (forall v, marshalled op n f m v0 v -> P (Call_set op n v)) ->
  respects (extends P) (Operation_set op n f m v0).
Proof.
  intros HP s. destruct (Operation_set op n f m v0 s) as [r s'] eqn:H.
  split.
  - by apply (respects_run _ _ _ _ _ (Operation_set_python _ _ _ _ _)) in H
      as [_ Hc].
  - apply Operation_set_calls in H as [H | (v & H & Hm)].
    + exists []. simpl. rewrite app_nil_r. split; [ done | constructor ].
    + exists [Call_set op n v]. split; [ done | ]. constructor; auto.
Qed.

#[local] Hint Resolve engine_extends logger_info_extends set_heap_extends
  : frame.

Lemma set_required_inputs_extends_gen (P : event -> Prop) op intro m pairs
    references :
  (forall n v0 d v,
     (n, v0) ∈ pairs -> details intro !! n = Some d ->
     marshalled op n (d_flags d) m v0 v -> P (Call_set op n v)) ->
  respects (extends P) (set_required_inputs op intro m pairs references).
Proof.
  revert references.
  induction pairs as [ | [n v] pairs IH ]; intros references HP; simpl.
  - extends_frame P.
  - frame_step (extends_refl P) (extends_trans P); [ extends_frame P | ].
    destruct (details intro !! n) as [d | ] eqn:Hd; extends_frame P.
    + apply Operation_set_extends. intros v' Hm.
      apply (HP n v d v'); [ by left | done | done ].
    + apply IH. intros n' v0 d' v' Hin. apply HP. by right.
Qed.

Lemma set_kwargs_extends_gen (P : event -> Prop) op intro m kwargs references :
  (forall n v0 d v,
     (n, v0) ∈ kwargs -> details intro !! n = Some d ->
     marshalled op n (d_flags d) m v0 v -> P (Call_set op n v)) ->
  respects (extends P) (set_kwargs op intro m kwargs references).
Proof.
  revert references.
  induction kwargs as [ | [n v] kwargs IH ]; intros references HP; simpl.
  - extends_frame P.
  - destruct (details intro !! n) as [d | ] eqn:Hd; extends_frame P.
    + apply Operation_set_extends. intros v' Hm.
      apply (HP n v d v'); [ by left | done | done ].
    + apply IH. intros n' v0 d' v' Hin. apply HP. by right.
Qed.

Lemma set_required_inputs_extends op intro m all pairs references :
  (forall p, p ∈ pairs -> p ∈ all) ->
  respects (extends (argument_event op intro m all))
    (set_required_inputs op intro m pairs references).
Proof.
  intros Hsub. apply set_required_inputs_extends_gen.
  intros n v0 d v Hin Hd Hm. split; [ done | ].
  exists v0, d. split; [ by apply Hsub | done ].
Qed.

Lemma set_kwargs_extends op intro m all kwargs references :
  (forall p, p ∈ kwargs -> p ∈ all) ->
  respects (extends (argument_event op intro m all))
    (set_kwargs op intro m kwargs references).
Proof.
  intros Hsub. apply set_kwargs_extends_gen.
  intros n v0 d v Hin Hd Hm. split; [ done | ].
  exists v0, d. split; [ by apply Hsub | done ].
Qed.

Lemma fetch_extends op intro m all references n :
  respects (extends (argument_event op intro m all)) (fetch op references n).
Proof.
  unfold fetch. extends_frame (argument_event op intro m all).
  by apply record_call_extends.
Qed.

#[local] Hint Resolve fetch_extends : frame.

Lemma get_required_outputs_extends op intro m all references names result :
  respects (extends (argument_event op intro m all))
    (get_required_outputs op references names result).
Proof.
  revert result. induction names as [ | n names IH ]; intros result; simpl;
    extends_frame (argument_event op intro m all).
Qed.

Lemma get_optional_outputs_extends op intro m all references kwargs names opts :
  respects (extends (argument_event op intro m all))
    (get_optional_outputs op references kwargs names opts).
Proof.
  revert opts. induction names as [ | n names IH ]; intros opts; simpl;
    extends_frame (argument_event op intro m all).
Qed.

#[local] Hint Resolve get_required_outputs_extends
  get_optional_outputs_extends : frame.

Lemma find_match_image args :
  fst (_find_inside (fun x (_ : unit) => (is_Image x, tt)) (VTuple args) tt) =
    first_image args.
Proof.
  rewrite _find_inside_unfold. simpl. by rewrite find_is_Image_loop.
Qed.

(** The calls a call of an operation makes on it: none, or the option
    string first and then arguments marshalled from the caller's. *)
Lemma call_events op args kwargs s r s' :
  call op args kwargs s = (r, s') ->
  calls s' = calls s \/
  exists intro rest,
    (exists s1, Introspect_get op s = (Ok intro, s1)) /\
    _introspect_cache s' !! op = Some intro /\
    length (required_input intro) = length args /\
    calls s' =
      calls s ++
      Call_set_string op (fst (pop "string_options" (VStr "") kwargs)) :: rest /\
    Forall (argument_event op intro (first_image args)
              (combine (required_input intro) args ++
               snd (pop "string_options" (VStr "") kwargs))) rest.
Proof.
  unfold call. destruct (pop "string_options" (VStr "") kwargs) as [so kw].
  cbv beta iota. rewrite find_match_image. intros H.
  apply bind_inv in H as [(op' & s0 & Hnew & H) | (e & Hnew & _)].
  2:{ apply Operation_new_from_name_inv in Hnew as [-> _]. by left. }
  apply Operation_new_from_name_inv in Hnew as [-> [[Hop _] | [Hop _]]];
    [ | discriminate ].
  inversion Hop; subst op'; clear Hop.
  apply bind_inv in H as [(intro & s1 & Hintro & H) | (e & Hintro & _)].
  2:{ apply Introspect_get_Raise in Hintro as ->. by left. }
  pose proof (Introspect_get_Ok _ _ _ _ Hintro)
    as (_ & Hcalls & _ & _ & Hcache).
  destruct (length (required_input intro) =? length args)%nat eqn:Hlen;
    cbn [negb] in H.
  2:{ inversion H; subst. by left. }
  apply Nat.eqb_eq in Hlen.
  apply bind_inv in H as [([] & s2 & H2 & H) | (e & H2 & _)];
    [ | discriminate ].
  inversion H2; subst s2; clear H2.
  right. exists intro.
  set (P := argument_event op intro (first_image args)
              (combine (required_input intro) args ++ kw)).
  eapply (respects_run (extends P)) in H.
  - destruct H as [Hc (rest & Hrest & HP)].
    exists rest. unfold same_cache in Hc. simpl in *.
    split; [ by exists s1 | ].
    rewrite Hc, Hrest, Hcalls, <- app_assoc. done.
  - repeat first
      [ frame_step (extends_refl P) (extends_trans P)
      | apply record_call_extends; exact I
      | apply set_required_inputs_extends; intros p Hp; apply elem_of_app;
        by left
      | apply set_kwargs_extends; intros p Hp; apply elem_of_app; by right
      | apply get_required_outputs_extends
      | apply get_optional_outputs_extends ].
Qed.

(** The calls of the loops that read the outputs, when they succeed. *)
Lemma fetch_Ok_calls op references n s v s' :
  fetch op references n s = (Ok v, s') -> calls s' = calls s ++ [Call_get op n].
Proof.
  unfold fetch. intros H.
  apply bind_Ok_inv in H as ([] & s1 & H1 & H). inversion H1; subst s1; clear H1.
  apply bind_Ok_inv in H as (v' & s2 & H2 & H).
  apply (respects_run same_calls _ _ _ _ (engine_calls _)) in H2.
  apply bind_Ok_inv in H as (h & s3 & Hh & H).
  apply get_heap_inv in Hh as [-> ->].
  apply bind_Ok_inv in H as ([] & s4 & H4 & H).
  inversion H; subst; clear H. inversion H4; subst; clear H4. simpl.
  exact H2.
Qed.

Lemma get_required_outputs_Ok_calls op references names result s result' s' :
  get_required_outputs op references names result s = (Ok result', s') ->
  calls s' = calls s ++ map (Call_get op) names.
Proof.
  revert result s. induction names as [ | n names IH ]; intros result s H;
    simpl in H.
  - inversion H; subst. by rewrite app_nil_r.
  - apply bind_Ok_inv in H as (v & s1 & Hv & H).
    apply fetch_Ok_calls in Hv. apply IH in H.
    rewrite H, Hv, <- app_assoc. reflexivity.
Qed.

Lemma get_optional_outputs_Ok_calls op references kwargs names opts s opts' s' :
  get_optional_outputs op references kwargs names opts s = (Ok opts', s') ->
  calls s' = calls s ++ map (Call_get op) (requested kwargs names).
Proof.
  revert opts s. induction names as [ | n names IH ]; intros opts s H;
    simpl in H.
  - inversion H; subst. by rewrite app_nil_r.
  - unfold requested. simpl. destruct (has_key n kwargs).
    + apply bind_Ok_inv in H as (v & s1 & Hv & H).
      apply fetch_Ok_calls in Hv. apply IH in H.
      rewrite H, Hv, <- app_assoc. reflexivity.
    + by apply IH in H.
Qed.

(** The calls of a call that returns: the option string, the arguments,
    the build, the required outputs in order, the requested optional
    outputs in order, and the release of the outputs. *)
Lemma call_Ok_calls op args kwargs s r s' :
  call op args kwargs s = (Ok r, s') ->
  exists intro sets,
    _introspect_cache s' !! op = Some intro /\
    Forall is_set sets /\
    calls s' =
      calls s ++
      Call_set_string op (fst (pop "string_options" (VStr "") kwargs)) ::
      sets ++
      Call_build op ::
      map (Call_get op) (required_output intro) ++
      map (Call_get op)
        (requested (snd (pop "string_options" (VStr "") kwargs))
           (optional_output intro)) ++
      [Call_unref_outputs op].
Proof.
  intros H.
  pose proof (call_Ok_inv _ _ _ _ _ _ H) as (intro0 & _ & _ & Hc0 & _).
  revert H. unfold call.
  destruct (pop "string_options" (VStr "") kwargs) as [so kw].
  cbv beta iota. intros H.
  apply bind_Ok_inv in H as (op' & s0 & Hnew & H).
  apply Operation_new_from_name_inv in Hnew as [-> [[Hop _] | [Hop _]]];
    [ | discriminate ].
  inversion Hop; subst op'; clear Hop.
  apply bind_Ok_inv in H as (intro & s1 & Hintro & H).
  apply Introspect_get_Ok in Hintro as (_ & Hcalls & _ & _ & Hcache).
  destruct (length (required_input intro) =? length args)%nat;
    cbn [negb] in H; [ | discriminate ].
  apply bind_Ok_inv in H as ([] & s2 & H2 & H). inversion H2; subst s2; clear H2.
  apply bind_Ok_inv in H as (ok & s3 & H3 & H).
  pose proof (respects_run _ _ _ _ _ (engine_python _) H3) as [_ Hc3].
  apply (respects_run same_calls _ _ _ _ (engine_calls _)) in H3.
  unfold same_calls in H3. unfold same_cache in Hc3. simpl in H3, Hc3.
  destruct ok; cbn [negb] in H; [ | discriminate ].
  apply bind_Ok_inv in H as (refs1 & s4 & H4 & H).
  pose proof (respects_run _ _ _ _ _
                (set_required_inputs_python _ _ _ _ _) H4) as [_ Hc4].
  apply (respects_run (extends is_set)) in H4 as [_ (sets1 & H4 & F1)];
    [ | by apply set_required_inputs_extends_gen ].
  apply bind_Ok_inv in H as (refs2 & s5 & H5 & H).
  pose proof (respects_run _ _ _ _ _
                (set_kwargs_python _ _ _ _ _) H5) as [_ Hc5].
  apply (respects_run (extends is_set)) in H5 as [_ (sets2 & H5 & F2)];
    [ | by apply set_kwargs_extends_gen ].
  apply bind_Ok_inv in H as ([] & s6 & H6 & H). inversion H6; subst s6; clear H6.
  apply bind_Ok_inv in H as (built & s7 & H7 & H).
  apply (respects_run same_calls _ _ _ _ (engine_calls _)) in H7 as Hc7.
  pose proof (respects_run _ _ _ _ _ (engine_python _) H7) as [_ Hp7].
  unfold same_calls in Hc7. unfold same_cache in Hp7. simpl in Hc7, Hp7.
  destruct built; cbn [negb] in H; [ | discriminate ].
  apply bind_Ok_inv in H as (result & s8 & H8 & H).
  pose proof (get_required_outputs_Ok _ _ _ _ _ _ _ H8)
    as (_ & _ & _ & _ & Hp8).
  apply get_required_outputs_Ok_calls in H8.
  apply bind_Ok_inv in H as (opts & s9 & H9 & H).
  pose proof (get_optional_outputs_Ok _ _ _ _ _ _ _ _ H9)
    as (_ & _ & _ & _ & Hp9).
  apply get_optional_outputs_Ok_calls in H9.
  apply bind_Ok_inv in H as ([] & s10 & H10 & H).
  inversion H10; subst s10; clear H10.
  apply bind_Ok_inv in H as ([] & s11 & H11 & H).
  apply (respects_run same_calls _ _ _ _ (engine_calls _)) in H11 as Hc11.
  pose proof (respects_run _ _ _ _ _ (engine_python _) H11) as [_ Hp11].
  unfold same_calls in Hc11. unfold same_cache in Hp11, Hp8, Hp9, Hc4, Hc5.
  simpl in Hc11, Hp11.
  inversion H; subst r s'; clear H.
  exists intro, (sets1 ++ sets2).
  split; [ by rewrite Hp11, Hp9, Hp8, Hp7, Hc5, Hc4, Hc3 | ].
  split; [ by apply Forall_app | ].
  rewrite Hc11, H9, H8, Hc7, H5, H4, H3, Hcalls.
  rewrite <- !app_assoc. simpl. rewrite <- ?app_assoc. reflexivity.
Qed.

(** C9: in a call that succeeds, the outputs read from the operation
    after the build are its required outputs and then those of its
    optional outputs whose name is a key of the named arguments; such an
    optional output is in the dictionary of optional outputs, and no
    other is, whatever value the key has; and every image found in a
    value of that dictionary has had the references of all the inputs
    attached. *)
Theorem optional_outputs_opt_in op args kwargs s r s' :
  call op args kwargs s = (Ok r, s') ->
  let kw := snd (pop "string_options" (VStr "") kwargs) in
  exists intro,
    _introspect_cache s' !! op = Some intro /\
    (forall name, name ∈ optional_output intro ->
       (is_Some (returned_named r !! name) <-> has_key name kw = true)) /\
    (forall name v x, returned_named r !! name = Some v -> x ∈ images v ->
       dom (refs_of (heap s') x) =
         dom (refs_of (heap s) x) ∪ input_references (heap s) args kw) /\
    (exists sets,
       Forall is_set sets /\
       calls s' =
         calls s ++
         Call_set_string op (fst (pop "string_options" (VStr "") kwargs)) ::
         sets ++
         Call_build op ::
         map (Call_get op) (required_output intro) ++
         map (Call_get op) (requested kw (optional_output intro)) ++
         [Call_unref_outputs op]).
Proof.
  intros H kw.
  pose proof (call_Ok_inv _ _ _ _ _ _ H)
    as (intro & vals & fetched & Hc & _ & _ & Hf & Hr & _).
  exists intro. split; [ done | ]. split; [ | split ].
  - intros name Hname. rewrite Hr, returned_named_unwrap.
    rewrite <- elem_of_dom, dom_store_named, Hf, dom_empty_L.
    unfold requested. fold kw. rewrite elem_of_union, elem_of_list_to_set.
    rewrite list_elem_of_In, filter_In, <- list_elem_of_In. set_solver.
  - intros name v x Hv Hx.
    apply (call_attached _ _ _ _ _ _ _ H).
    exists (Named (returned_named r)). split; [ | by exists name, v ].
    rewrite Hr, returned_named_unwrap, returned_items_unwrap.
    apply elem_of_app. right.
    rewrite Hr, returned_named_unwrap in Hv.
    rewrite size_positive_nonempty, bool_decide_eq_false_2; [ by left | ].
    intros He. by rewrite He in Hv.
  - apply call_Ok_calls in H as (intro' & sets & Hc' & HF & Hcalls).
    rewrite Hc in Hc'. inversion Hc'; subst intro'.
    by exists sets.
Qed.

(** ** The exceptions of a call *)

Lemma raises_only_bind Q {A B : Type} (m : M W A) (k : A -> M W B) :
  raises_only Q m -> (forall a, raises_only Q (k a)) ->
  raises_only Q (bind m k).
Proof.
  intros Hm Hk s e s' H.
  apply bind_inv in H as [(a & s1 & _ & H) | (e' & H & He)].
  - by eapply Hk.
  - inversion He; subst. by eapply Hm.
Qed.

Lemma raises_only_if Q {A : Type} (b : bool) (m1 m2 : M W A) :
  raises_only Q m1 -> raises_only Q m2 -> raises_only Q (if b then m1 else m2).
Proof. by destruct b. Qed.

Lemma raises_only_pure Q {A : Type} (a : A) : raises_only Q (@pure W A a).
Proof. intros s e s' H. discriminate. Qed.

Lemma raises_only_raise (Q : exn -> Prop) {A : Type} e :
  Q e -> raises_only Q (@raise W A e).
Proof. intros He s e' s' H. by inversion H; subst. Qed.

Lemma raises_only_engine (Q : exn -> Prop) {A : Type}
    (f : W -> outcome A * W) :
  (forall message, Q (Foreign message)) -> raises_only Q (engine f).
Proof.
  intros HQ s e s'. unfold engine.
  destruct (f (world s)) as [[a | msg] w]; intros H; inversion H; subst.
  apply HQ.
Qed.

Lemma raises_only_record_call Q e : raises_only Q (@record_call W e).
Proof. intros s e' s' H. discriminate. Qed.

Lemma raises_only_logger_info Q o n : raises_only Q (@logger_info W o n).
Proof. intros s e' s' H. discriminate. Qed.

Lemma raises_only_get_heap Q : raises_only Q (@get_heap W).
Proof. intros s e' s' H. discriminate. Qed.

Lemma raises_only_set_heap Q h : raises_only Q (@set_heap W h).
Proof. intros s e' s' H. discriminate. Qed.

Create HintDb raises.

#[local] Hint Resolve raises_only_pure raises_only_record_call
  raises_only_logger_info raises_only_get_heap raises_only_set_heap : raises.

Ltac raises_step :=
  first
    [ solve [ auto with raises ]
    | lazymatch goal with
      | |- raises_only _ (bind _ _) => apply raises_only_bind; [ | intros ? ]
      | |- raises_only _ (if _ then _ else _) => apply raises_only_if; [ | ]
      | |- raises_only _ (engine _) => apply raises_only_engine; assumption
      | |- raises_only _ (raise _) => apply raises_only_raise
      end ].

Lemma raises_only_imageize_each Q m xs :
  (forall message, Q (Foreign message)) -> raises_only Q (imageize_each m xs).
Proof. intros HQ. induction xs as [ | x xs IH ]; simpl; repeat raises_step. Qed.

Lemma raises_only_Operation_set Q op n f m v :
  marshalling_exn Q -> raises_only Q (Operation_set op n f m v).
Proof.
  intros (HA & HT & HF). unfold Operation_set. repeat raises_step.
  - intros s e s' H. unfold of_result in H.
    destruct v; simpl in H; inversion H; by subst.
  - by apply raises_only_imageize_each.
  - destruct a; simpl; repeat raises_step; done.
Qed.







Lemma Introspect_init_Raise op e :
  Introspect_init op = Raise e ->
  e = Error_no_such_operation op \/ e = Error_unable_to_get_arguments \/
  e = AttributeError.
Proof.
  unfold Introspect_init.
  destruct (vips_operation_new vips_lib op); simpl;
    [ | intros H; inversion H; auto ].
  destruct (at_least_libvips_8_7 vips_lib); [ | intros H; inversion H; auto ].
  destruct (vips_object_get_args vips_lib op); intros H; inversion H; auto.
Qed.



(** The first named argument: a name that is in [intro.details] but in
    neither list of optional arguments is refused with the module's own
    error; a name that is not in [intro.details] fails in the look-up. *)
Lemma set_kwargs_not_optional op intro m n v rest references s d :
  details intro !! n = Some d ->
  in_list n (optional_input intro) = false ->
  in_list n (optional_output intro) = false ->
  set_kwargs op intro m ((n, v) :: rest) references s =
    (Raise (Error_does_not_support op n), s).
Proof. intros Hd Hi Ho. simpl. by rewrite Hd, Hi, Ho. Qed.

Lemma set_kwargs_unknown_name op intro m n v rest references s :
  details intro !! n = None ->
  set_kwargs op intro m ((n, v) :: rest) references s = (Raise (KeyError n), s).
Proof. intros Hd. simpl. by rewrite Hd. Qed.

(** ** The checks at the start of a call *)

Lemma call_wrong_arity op args kwargs s intro s1 :
  vips_operation_new vips_lib op = true ->
  Introspect_get op s = (Ok intro, s1) ->
  length (required_input intro) <> length args ->
  call op args kwargs s =
    (Raise (Error_needs_arguments op (length (required_input intro))
              (length args)), s1).
Proof.
  intros Hnew Hintro Hlen. unfold call.
  destruct (pop "string_options" (VStr "") kwargs) as [so kw].
  cbv beta iota. unfold Operation_new_from_name. rewrite Hnew. cbn [negb].
  rewrite bind_pure, (bind_Ok _ _ _ _ _ Hintro).
  apply Nat.eqb_neq in Hlen. by rewrite Hlen.
Qed.

Lemma call_options_refused op args kwargs s intro s1 w' :
  vips_operation_new vips_lib op = true ->
  Introspect_get op s = (Ok intro, s1) ->
  length (required_input intro) = length args ->
  set_string vips_lib op (fst (pop "string_options" (VStr "") kwargs))
    (world s1) = (Done false, w') ->
  call op args kwargs s =
    (Raise (Error_unable_to_call op),
     {| heap := heap s1; _introspect_cache := _introspect_cache s1;
        log := log s1;
        calls := calls s1 ++
                 [Call_set_string op
                    (fst (pop "string_options" (VStr "") kwargs))];
        world := w' |}).
Proof.
  intros Hnew Hintro Hlen Hso. unfold call.
  destruct (pop "string_options" (VStr "") kwargs) as [so kw].
  cbv beta iota. unfold Operation_new_from_name. rewrite Hnew. cbn [negb].
  rewrite bind_pure, (bind_Ok _ _ _ _ _ Hintro).
  apply Nat.eqb_eq in Hlen. rewrite Hlen. cbn [negb].
  rewrite (bind_Ok (record_call _) _ _ _ _ eq_refl).
  unfold bind at 1. unfold engine at 1. simpl in *. by rewrite Hso.
Qed.

(** C4: when the operation is known and its descriptor has [N] required
    inputs, a call with a number of positional arguments other than [N]
    ends with the error '... needs N arguments, but M given', whatever
    the named arguments and the option string are. *)
Theorem call_arity_mismatch op args kwargs s intro s1 :
  vips_operation_new vips_lib op = true ->
  Introspect_get op s = (Ok intro, s1) ->
  length (required_input intro) <> length args ->
  call op args kwargs s =
    (Raise (Error_needs_arguments op (length (required_input intro))
              (length args)), s1).
Proof. apply call_wrong_arity. Qed.

(** C5, as the code has it: the number of positional arguments is
    checked first, and a mismatch is reported without the option string
    being applied; then the option string is applied, and its refusal
    ends the call with 'unable to call ...'; and whenever a typed
    argument is set on the operation, the option string was applied
    before it. *)
Theorem options_after_arity_before_arguments op args kwargs s intro s1 :
  vips_operation_new vips_lib op = true ->
  Introspect_get op s = (Ok intro, s1) ->
  let options := fst (pop "string_options" (VStr "") kwargs) in
  (length (required_input intro) <> length args ->
   fst (call op args kwargs s) =
     Raise (Error_needs_arguments op (length (required_input intro))
              (length args)) /\
   calls (snd (call op args kwargs s)) = calls s) /\
  (length (required_input intro) = length args ->
   forall w', set_string vips_lib op options (world s1) = (Done false, w') ->
   fst (call op args kwargs s) = Raise (Error_unable_to_call op) /\
   calls (snd (call op args kwargs s)) =
     calls s ++ [Call_set_string op options]) /\
  (forall before n v after,
     calls (snd (call op args kwargs s)) =
       calls s ++ before ++ Call_set op n v :: after ->
     exists between, before = Call_set_string op options :: between).
Proof.
  intros Hnew Hintro options.
  pose proof (Introspect_get_Ok _ _ _ _ Hintro) as (_ & Hcalls & _).
  split; [ | split ].
  - intros Hlen. rewrite (call_wrong_arity _ _ _ _ _ _ Hnew Hintro Hlen).
    by split.
  - intros Hlen w' Hso.
    rewrite (call_options_refused _ _ _ _ _ _ _ Hnew Hintro Hlen Hso).
    simpl. by rewrite Hcalls.
  - intros before n v after Hc.
    destruct (call op args kwargs s) as [r s'] eqn:H. simpl in Hc.
    apply call_events in H as [H | (intro' & rest & _ & _ & _ & H & _)].
    + rewrite H in Hc. rewrite <- (app_nil_r (calls s)) in Hc at 1.
      apply app_inv_head in Hc. by destruct before.
    + rewrite H in Hc. apply app_inv_head in Hc.
      destruct before as [ | e before ]; [ discriminate | ].
      inversion Hc; subst. by exists before.
Qed.


(** ** The classification of the arguments *)

Lemma names_where_cons test n f arguments :
  names_where test ((n, f) :: arguments) =
    (if test f then [n] else []) ++ names_where test arguments.
Proof. unfold names_where. simpl. by destruct (test f). Qed.

Lemma categorise_fold arguments c :
  fold_left categorise arguments c =
    {| c_required_input :=
         c_required_input c ++ names_where is_required_input arguments;
       c_optional_input :=
         c_optional_input c ++ names_where is_optional_input arguments;
       c_required_output :=
         c_required_output c ++ concat (map as_required_output arguments);
       c_optional_output :=
         c_optional_output c ++ names_where is_optional_output arguments |}.
Proof.
  revert c. induction arguments as [ | [n f] arguments IH ]; intros c.
  - simpl. unfold names_where. simpl. rewrite !app_nil_r. by destruct c.
  - simpl fold_left. rewrite IH. rewrite !names_where_cons.
    unfold categorise, as_required_output, is_required_input,
      is_required_output, is_optional_input, is_optional_output.
    simpl.
    destruct (flag_set f _INPUT), (flag_set f _OUTPUT),
      (flag_set f _REQUIRED), (flag_clear f _REQUIRED),
      (flag_clear f _DEPRECATED), (flag_set f _MODIFY); simpl;
      rewrite <- ?app_assoc; simpl; rewrite ?app_nil_r; reflexivity.
Qed.

Lemma elem_of_names_where test arguments n :
  n ∈ names_where test arguments <->
  exists f, (n, f) ∈ arguments /\ test f = true.
Proof.
  unfold names_where. rewrite list_elem_of_fmap. split.
  - intros ([n' f] & -> & H). apply list_elem_of_In, filter_In in H as [H1 H2].
    exists f. split; [ by apply list_elem_of_In | done ].
  - intros (f & H1 & H2). exists (n, f). split; [ done | ].
    apply list_elem_of_In, filter_In. split; [ by apply list_elem_of_In | done ].
Qed.

Lemma elem_of_required_outputs arguments n :
  n ∈ concat (map as_required_output arguments) <->
  exists f, (n, f) ∈ arguments /\
    (is_required_input f && flag_set f _MODIFY || is_required_output f) = true.
Proof.
  induction arguments as [ | [n' f'] arguments IH ].
  - simpl. split; [ intros H; by apply elem_of_nil in H | ].
    intros (f & H & _). by apply elem_of_nil in H.
  - simpl. rewrite elem_of_app, IH. unfold as_required_output. simpl. split.
    + intros [H | (f & H & Hf)].
      * exists f'. apply elem_of_app in H as [H | H].
        -- destruct (is_required_input f' && flag_set f' _MODIFY);
             [ | by apply elem_of_nil in H ].
           apply list_elem_of_singleton in H as ->. split; [ by left | done ].
        -- destruct (is_required_output f'); [ | by apply elem_of_nil in H ].
           apply list_elem_of_singleton in H as ->.
           split; [ by left | by rewrite orb_true_r ].
      * exists f. split; [ by right | done ].
    + intros (f & H & Hf). apply elem_of_cons in H as [H | H].
      * inversion H; subst. left. apply elem_of_app.
        apply orb_true_iff in Hf as [Hf | Hf]; rewrite Hf;
          [ left | right ]; by left.
      * right. eauto.
Qed.

(** In a list of arguments with distinct names, a name has one flags. *)
Lemma arguments_functional (arguments : list (string * Z)) n f f' :
  NoDup (map fst arguments) ->
  (n, f) ∈ arguments -> (n, f') ∈ arguments -> f = f'.
Proof.
  induction arguments as [ | [n0 f0] arguments IH ]; simpl; intros Hnd H H'.
  - by apply elem_of_nil in H.
  - apply NoDup_cons in Hnd as [Hn0 Hnd].
    apply elem_of_cons in H as [H | H], H' as [H' | H'].
    + congruence.
    + inversion H; subst. exfalso. apply Hn0.
      apply list_elem_of_fmap. by exists (n0, f').
    + inversion H'; subst. exfalso. apply Hn0.
      apply list_elem_of_fmap. by exists (n0, f).
    + by apply IH.
Qed.

Lemma flag_clear_negb f mask : flag_clear f mask = negb (flag_set f mask).
Proof. unfold flag_clear, flag_set. by rewrite negb_involutive. Qed.

Ltac flags_cases f :=
  unfold is_required_input, is_required_output, is_optional_input,
    is_optional_output in *;
  rewrite ?flag_clear_negb in *;
  destruct (flag_set f _INPUT), (flag_set f _OUTPUT), (flag_set f _REQUIRED),
    (flag_set f _DEPRECATED), (flag_set f _MODIFY); simpl in *;
  try discriminate; try done.

(** C8: the four lists of a descriptor are built from the flags of its
    arguments, in declaration order: the required inputs are the
    arguments flagged input and required and not deprecated; the required
    outputs are those required inputs that are flagged modify, and the
    arguments flagged output and required and not deprecated; the
    optional inputs are the arguments flagged input and not required,
    deprecated or not; the optional outputs are the arguments flagged
    output and not required.  When the arguments have distinct names and
    none is flagged both input and output, no name is in two of the
    lists, except that a name is both a required input and a required
    output exactly when it is a required input flagged modify. *)
Theorem Introspect_classification op intro :
  Introspect_init op = Ok intro ->
  required_input intro = names_where is_required_input (arguments intro) /\
  optional_input intro = names_where is_optional_input (arguments intro) /\
  required_output intro = concat (map as_required_output (arguments intro)) /\
  optional_output intro = names_where is_optional_output (arguments intro) /\
  (NoDup (map fst (arguments intro)) ->
   (forall n f, (n, f) ∈ arguments intro ->
      flag_set f _INPUT && flag_set f _OUTPUT = false) ->
   forall n,
     ~ (n ∈ required_input intro /\ n ∈ optional_input intro) /\
     ~ (n ∈ required_input intro /\ n ∈ optional_output intro) /\
     ~ (n ∈ required_output intro /\ n ∈ optional_input intro) /\
     ~ (n ∈ required_output intro /\ n ∈ optional_output intro) /\
     ~ (n ∈ optional_input intro /\ n ∈ optional_output intro) /\
     (n ∈ required_input intro /\ n ∈ required_output intro <->
      exists f, (n, f) ∈ arguments intro /\
        is_required_input f = true /\ flag_set f _MODIFY = true)).
Proof.
  unfold Introspect_init. intros H.
  destruct (vips_operation_new vips_lib op); [ | discriminate ].
  destruct (at_least_libvips_8_7 vips_lib); [ | discriminate ].
  destruct (vips_object_get_args vips_lib op) as [raw | ]; [ | discriminate ].
  simpl in H. inversion H; subst intro; clear H. simpl.
  set (arguments := fold_left add_args raw []).
  rewrite categorise_fold. simpl.
  do 4 (split; [ reflexivity | ]).
  intros Hnd Hdir n.
  rewrite !elem_of_names_where, !elem_of_required_outputs.
  assert (Hsame : forall f f', (n, f) ∈ arguments -> (n, f') ∈ arguments ->
                               f = f')
    by (intros; by eapply arguments_functional).
  split; [ | split; [ | split; [ | split; [ | split; [ | split ] ] ] ] ].
  - intros [(f & Hf & H1) (f' & Hf' & H2)].
    rewrite (Hsame _ _ Hf' Hf) in H2. flags_cases f.
  - intros [(f & Hf & H1) (f' & Hf' & H2)].
    rewrite (Hsame _ _ Hf' Hf) in H2. flags_cases f.
  - intros [(f & Hf & H1) (f' & Hf' & H2)].
    rewrite (Hsame _ _ Hf' Hf) in H2. flags_cases f.
  - intros [(f & Hf & H1) (f' & Hf' & H2)].
    rewrite (Hsame _ _ Hf' Hf) in H2. flags_cases f.
  - intros [(f & Hf & H1) (f' & Hf' & H2)].
    rewrite (Hsame _ _ Hf' Hf) in H2. specialize (Hdir _ _ Hf).
    flags_cases f.
  - intros [(f & Hf & H1) (f' & Hf' & H2)].
    rewrite (Hsame _ _ Hf' Hf) in H2. specialize (Hdir _ _ Hf).
    exists f. split; [ done | ]. flags_cases f.
  - intros (f & Hf & H1 & H2). split; exists f; (split; [ done | ]).
    + done.
    + by rewrite H1, H2.
Qed.

(** ** The match image and the promotion of constants *)


(** ** Modify-in-place arguments *)

Section modify_in_place.
Context {P : Type} (pixels : W -> img -> option P) (held : W -> img -> Prop).
Context (x : img).
Hypothesis contract : engine_contract pixels held.

Lemma untouched_refl s : untouched pixels held x s s.
Proof. intros Ha Hh. by repeat split. Qed.

Lemma untouched_trans s1 s2 s3 :
  untouched pixels held x s1 s2 -> untouched pixels held x s2 s3 ->
  untouched pixels held x s1 s3.
Proof.
  intros H12 H23 Ha Hh. destruct (H12 Ha Hh) as (Ha2 & Hh2 & Hp2 & Hr2).
  destruct (H23 Ha2 Hh2) as (Ha3 & Hh3 & Hp3 & Hr3).
  repeat split; try done; congruence.
Qed.

Ltac untouched_frame :=
  repeat frame_step untouched_refl untouched_trans.

Lemma kept_untouched s s' :
  kept pixels held (world s) (world s') -> heap s' = heap s ->
  untouched pixels held x s s'.
Proof.
  intros Hk Hheap Ha Hh. destruct (Hk x Ha) as [Hp Hheld].
  repeat split; try done.
  - unfold allocated. by rewrite Hp.
  - auto.
  - by rewrite Hheap.
Qed.

Lemma engine_untouched {A : Type} (f : W -> outcome A * W) :
  (forall w o w', f w = (o, w') -> kept pixels held w w') ->
  respects (untouched pixels held x) (engine f).
Proof.
  intros Hf s. unfold engine. destruct (f (world s)) as [o w] eqn:E.
  simpl. apply kept_untouched; [ | done ]. simpl. by eapply Hf.
Qed.

Lemma record_call_untouched e :
  respects (untouched pixels held x) (record_call e).
Proof. intros s Ha Hh. by repeat split. Qed.

Lemma logger_info_untouched o n :
  respects (untouched pixels held x) (logger_info o n).
Proof. intros s Ha Hh. by repeat split. Qed.

Lemma imageize_untouched m v :
  respects (untouched pixels held x) (engine (_imageize vips_lib m v)).
Proof. apply engine_untouched. apply contract. Qed.

Lemma copy_untouched i :
  respects (untouched pixels held x) (engine (copy vips_lib i)).
Proof. apply engine_untouched. apply contract. Qed.

Lemma copy_memory_untouched c :
  respects (untouched pixels held x) (engine (copy_memory vips_lib c)).
Proof.
  apply engine_untouched. intros w o w' H.
  by apply (contract_copy_memory _ _ contract) in H as [H _].
Qed.

#[local] Hint Resolve record_call_untouched logger_info_untouched
  imageize_untouched copy_untouched copy_memory_untouched : frame.

Lemma imageize_each_untouched m xs :
  respects (untouched pixels held x) (imageize_each m xs).
Proof. induction xs as [ | y xs IH ]; simpl; untouched_frame. Qed.

Lemma unique_copy_untouched v :
  respects (untouched pixels held x) (unique_copy v).
Proof. destruct v; simpl; untouched_frame. Qed.

#[local] Hint Resolve imageize_each_untouched unique_copy_untouched : frame.

(** The copy handed to the engine for a MODIFY argument is not an image
    the caller has. *)
Lemma unique_copy_fresh p s v s' :
  unique_copy p s = (Ok v, s') ->
  allocated pixels (world s) x -> ~ held (world s) x -> x ∉ images v.
Proof.
  intros H Ha Hh. destruct p; simpl in H; try discriminate.
  apply bind_Ok_inv in H as (c & s1 & Hc & H).
  apply bind_Ok_inv in H as (m & s2 & Hm & H).
  inversion H; subst. simpl.
  pose proof (respects_run _ _ _ _ _ (copy_untouched i) Hc Ha Hh)
    as (Ha1 & _).
  apply engine_inv in Hm.
  apply (contract_copy_memory _ _ contract) in Hm as [_ Hfresh].
  specialize (Hfresh m eq_refl).
  intros Hx. apply list_elem_of_singleton in Hx as ->. done.
Qed.

Lemma Operation_set_untouched op n f m v0 :
  (engine_modify op n -> flag_set f _MODIFY = true) ->
  respects (untouched pixels held x) (Operation_set op n f m v0).
Proof.
  intros Hflag s. destruct (Operation_set op n f m v0 s) as [r s'] eqn:H.
  simpl. intros Ha Hh. unfold Operation_set in H.
  apply bind_inv in H as [(p & s1 & Hp & H) | (e & Hp & _)].
  2:{ revert Hp Ha Hh. apply (respects_run (untouched pixels held x)).
      untouched_frame. }
  assert (H1 : untouched pixels held x s s1).
  { revert Hp. apply (respects_run (untouched pixels held x)).
    untouched_frame. }
  destruct (H1 Ha Hh) as (Ha1 & Hh1 & Hp1 & Hr1).
  apply bind_inv in H as [(v & s2 & Hv & H) | (e & Hv & _)].
  2:{ assert (H2 : untouched pixels held x s1 s').
      { revert Hv. apply (respects_run (untouched pixels held x)).
        untouched_frame. }
      destruct (H2 Ha1 Hh1) as (? & ? & ? & ?).
      repeat split; try done; congruence. }
  assert (H2 : untouched pixels held x s1 s2).
  { revert Hv. apply (respects_run (untouched pixels held x)).
    untouched_frame. }
  destruct (H2 Ha1 Hh1) as (Ha2 & Hh2 & Hp2 & Hr2).
  assert (Hsafe : engine_modify op n -> x ∉ images v).
  { intros Hm. rewrite (Hflag Hm) in Hv. by eapply unique_copy_fresh. }
  apply bind_inv in H as [([] & s3 & H3 & H) | (e & H3 & _)];
    [ | discriminate ].
  inversion H3; subst s3; clear H3.
  unfold engine in H. simpl in H.
  destruct (VipsObject_set vips_lib op n v (world s2)) as [o w'] eqn:Hset.
  inversion H; subst r s'; clear H. simpl.
  destruct (contract_set _ _ contract _ _ _ _ _ _ Hset x Ha2) as [Hpix Hheld].
  repeat split.
  - unfold allocated. by rewrite Hpix.
  - intros Hx. apply Hheld in Hx as [Hx | [Hx Hm]]; [ done | ].
    by apply Hsafe in Hm.
  - congruence.
  - congruence.
Qed.

#[local] Hint Resolve Operation_set_untouched : frame.

Lemma set_required_inputs_untouched op intro m pairs references :
  (forall n d, details intro !! n = Some d ->
     engine_modify op n -> flag_set (d_flags d) _MODIFY = true) ->
  respects (untouched pixels held x)
    (set_required_inputs op intro m pairs references).
Proof.
  intros Hflags. revert references.
  induction pairs as [ | [n v] pairs IH ]; intros references; simpl.
  - untouched_frame.
  - frame_step untouched_refl untouched_trans; [ untouched_frame | ].
    destruct (details intro !! n) as [d | ] eqn:Hd; untouched_frame.
    apply Operation_set_untouched. eauto.
Qed.

Lemma set_kwargs_untouched op intro m kw references :
  (forall n d, details intro !! n = Some d ->
     engine_modify op n -> flag_set (d_flags d) _MODIFY = true) ->
  respects (untouched pixels held x) (set_kwargs op intro m kw references).
Proof.
  intros Hflags. revert references.
  induction kw as [ | [n v] kw IH ]; intros references; simpl.
  - untouched_frame.
  - destruct (details intro !! n) as [d | ] eqn:Hd; untouched_frame.
    apply Operation_set_untouched. eauto.
Qed.

Lemma refs_of_attach_other references xs h :
  x ∉ xs -> refs_of (attach references xs h) x = refs_of h x.
Proof. intros Hx. rewrite refs_of_attach. by rewrite decide_False. Qed.

(** Reading an output attaches references to new wrappers only. *)
Lemma fetch_untouched op references n :
  respects (untouched pixels held x) (fetch op references n).
Proof.
  intros s. destruct (fetch op references n s) as [r s'] eqn:H. simpl.
  intros Ha Hh. unfold fetch in H.
  apply bind_inv in H as [([] & s1 & H1 & H) | (e & H1 & _)];
    [ | discriminate ].
  inversion H1; subst s1; clear H1.
  unfold bind at 1 in H. unfold engine at 1 in H. simpl in H.
  destruct (VipsObject_get vips_lib op n (world s)) as [o w'] eqn:Hget.
  destruct (contract_get _ _ contract _ _ _ _ _ Hget) as [Hk Hfresh].
  destruct (Hk x Ha) as [Hpix Hheld].
  destruct o as [v | msg]; simpl in H.
  - inversion H; subst r s'; clear H. simpl.
    rewrite find_set_reference. simpl.
    split; [ | split; [ | split ] ].
    + unfold allocated. by rewrite Hpix.
    + auto.
    + done.
    + apply refs_of_attach_other. intros Hx.
      by apply (Hfresh v eq_refl x Hx).
  - inversion H; subst r s'; clear H. simpl.
    split; [ | split; [ | split ] ].
    + unfold allocated. by rewrite Hpix.
    + auto.
    + done.
    + done.
Qed.

#[local] Hint Resolve fetch_untouched : frame.

Lemma get_required_outputs_untouched op references names result :
  respects (untouched pixels held x)
    (get_required_outputs op references names result).
Proof.
  revert result. induction names as [ | n names IH ]; intros result; simpl;
    untouched_frame.
Qed.

Lemma get_optional_outputs_untouched op references kw names opts :
  respects (untouched pixels held x)
    (get_optional_outputs op references kw names opts).
Proof.
  revert opts. induction names as [ | n names IH ]; intros opts; simpl;
    untouched_frame.
Qed.

Lemma build_untouched op :
  respects (untouched pixels held x)
    (engine (fun w =>
               let '(b, w') := vips_cache_operation_build vips_lib op w in
               (Done b, w'))).
Proof.
  intros s. unfold engine. cbv beta.
  destruct (vips_cache_operation_build vips_lib op (world s)) as [b w'] eqn:Hb.
  simpl. intros Ha Hh.
  destruct (contract_build _ _ contract _ _ _ _ Hb x Ha Hh) as [Hpix Hheld].
  cbn [world heap].
  split; [ | split; [ | split ] ].
  - unfold allocated. by rewrite Hpix.
  - done.
  - done.
  - done.
Qed.

Lemma unref_untouched op :
  respects (untouched pixels held x)
    (engine (fun w => (Done tt, vips_object_unref_outputs vips_lib op w))).
Proof.
  apply engine_untouched. intros w o w' H. inversion H; subst.
  apply contract.
Qed.

Lemma set_string_untouched op v :
  respects (untouched pixels held x) (engine (set_string vips_lib op v)).
Proof. apply engine_untouched. apply contract. Qed.

(** A call leaves the images the caller has as they were, when the
    descriptor it uses has the engine's modify flags. *)
Lemma call_untouched op args kwargs s r s' :
  (forall intro s1, Introspect_get op s = (Ok intro, s1) ->
     forall n d, details intro !! n = Some d ->
       engine_modify op n -> flag_set (d_flags d) _MODIFY = true) ->
  call op args kwargs s = (r, s') ->
  untouched pixels held x s s'.
Proof.
  intros Hflags. unfold call.
  destruct (pop "string_options" (VStr "") kwargs) as [so kw].
  cbv beta iota. intros H.
  apply bind_inv in H as [(op' & s0 & Hnew & H) | (e & Hnew & _)].
  2:{ apply Operation_new_from_name_inv in Hnew as [-> _].
      apply untouched_refl. }
  apply Operation_new_from_name_inv in Hnew as [-> [[Hop _] | [Hop _]]];
    [ | discriminate ].
  inversion Hop; subst op'; clear Hop.
  apply bind_inv in H as [(intro & s1 & Hintro & H) | (e & Hintro & _)].
  2:{ apply Introspect_get_Raise in Hintro as ->. apply untouched_refl. }
  specialize (Hflags _ _ Hintro).
  apply Introspect_get_Ok in Hintro as (Hheap & _ & Hworld & _).
  assert (H01 : untouched pixels held x s s1).
  { intros Ha Hh. rewrite Hworld, Hheap. by repeat split. }
  eapply untouched_trans; [ exact H01 | ].
  revert H. apply (respects_run (untouched pixels held x)).
  repeat first
    [ frame_step untouched_refl untouched_trans
    | apply set_string_untouched
    | apply set_required_inputs_untouched; exact Hflags
    | apply set_kwargs_untouched; exact Hflags
    | apply build_untouched
    | apply get_required_outputs_untouched
    | apply get_optional_outputs_untouched
    | apply unref_untouched ].
Qed.

End modify_in_place.

Lemma elem_of_add_args raw acc n f :
  ((n, f) ∈ acc \/
   exists r, (r, f) ∈ raw /\ flag_set f _CONSTRUCT = true /\
             replace "-" "_" r = n) ->
  (n, f) ∈ fold_left add_args raw acc.
Proof.
  revert acc. induction raw as [ | [r0 f0] raw IH ]; intros acc H; simpl.
  - destruct H as [H | (r & H & _)]; [ done | by apply elem_of_nil in H ].
  - apply IH. destruct H as [H | (r & H & Hc & Hr)].
    + left. destruct (flag_set f0 _CONSTRUCT); [ | done ].
      apply elem_of_app. by left.
    + apply elem_of_cons in H as [H | H].
      * inversion H; subst. left. rewrite Hc. apply elem_of_app. right.
        by left.
      * right. eauto.
Qed.

Lemma details_lookup op arguments d0 n d :
  fold_left
    (fun (details : gmap string arg_details) '(name, flags) =>
       <[name := {| d_name := name; d_flags := flags;
                    d_blurb := get_blurb vips_lib op name;
                    d_type := get_typeof vips_lib op name |}]> details)
    arguments d0 !! n = Some d ->
  (n, d_flags d) ∈ arguments \/ d0 !! n = Some d.
Proof.
  revert d0. induction arguments as [ | [n0 f0] arguments IH ]; intros d0 H.
  - by right.
  - simpl in H. apply IH in H as [H | H].
    + left. by right.
    + rewrite lookup_insert in H. destruct (decide (n0 = n)) as [-> | ].
      * inversion H; subst. left. by left.
      * by right.
Qed.

(** A descriptor built from the engine, with distinct argument names,
    flags modify what the engine declares modify-in-place. *)
Lemma Introspect_init_modify op intro n d :
  Introspect_init op = Ok intro ->
  NoDup (map fst (arguments intro)) ->
  details intro !! n = Some d ->
  engine_modify op n -> flag_set (d_flags d) _MODIFY = true.
Proof.
  unfold Introspect_init. intros H.
  destruct (vips_operation_new vips_lib op); [ | discriminate ].
  destruct (at_least_libvips_8_7 vips_lib); [ | discriminate ].
  destruct (vips_object_get_args vips_lib op) as [raw | ] eqn:Hraw;
    [ | discriminate ].
  simpl in H. inversion H; subst intro; clear H. simpl.
  intros Hnd Hd (raw' & r & f & Hraw' & Hr & Hc & Hn & Hm).
  rewrite Hraw in Hraw'. inversion Hraw'; subst raw'; clear Hraw'.
  apply details_lookup in Hd as [Hd | Hd]; [ | by rewrite lookup_empty in Hd ].
  assert (Hf : (n, f) ∈ fold_left add_args raw []).
  { apply elem_of_add_args. right. eauto. }
  by rewrite (arguments_functional _ _ _ _ Hnd Hd Hf).
Qed.

Lemma Introspect_get_cached op s intro intro' s1 :
  Introspect_init op = Ok intro ->
  _introspect_cache s !! op = None \/ _introspect_cache s !! op = Some intro ->
  Introspect_get op s = (Ok intro', s1) -> intro' = intro.
Proof.
  unfold Introspect_get. intros Hinit [Hc | Hc] H; rewrite Hc in H.
  - rewrite Hinit in H. by inversion H.
  - by inversion H.
Qed.

(** C3: under the engine's contract for modify-in-place arguments, and
    with the descriptor the engine gives for the operation, whatever is
    set on the operation for an argument flagged modify is the result of
    [copy_memory] on a copy, and every image the caller has when the
    call is made (the one passed for a modify-in-place input among them)
    has after the call the content and the references it had, whether
    the call returns or raises. *)
Theorem modify_argument_is_copied {P : Type}
    (pixels : W -> img -> option P) (held : W -> img -> Prop)
    op args kwargs s r s' intro :
  engine_contract pixels held ->
  Introspect_init op = Ok intro ->
  _introspect_cache s !! op = None \/ _introspect_cache s !! op = Some intro ->
  NoDup (map fst (arguments intro)) ->
  call op args kwargs s = (r, s') ->
  (forall new o n v d,
     calls s' = calls s ++ new -> Call_set o n v ∈ new ->
     details intro !! n = Some d -> flag_set (d_flags d) _MODIFY = true ->
     exists i c m w1 w1' w2 w2',
       copy vips_lib i w1 = (Done c, w1') /\
       copy_memory vips_lib c w2 = (Done m, w2') /\ v = VImage m) /\
  (forall x, allocated pixels (world s) x -> ~ held (world s) x ->
     pixels (world s') x = pixels (world s) x /\
     refs_of (heap s') x = refs_of (heap s) x).
Proof.
  intros contract Hinit Hcache Hnd H. split.
  - intros new o n v d Hnew Hin Hd Hf.
    apply call_events in H
      as [H | (intro' & rest & (s1 & Hget) & _ & _ & H & HF)].
    { rewrite H in Hnew. rewrite <- (app_nil_r (calls s)) in Hnew at 1.
      apply app_inv_head in Hnew. subst new. by apply elem_of_nil in Hin. }
    rewrite (Introspect_get_cached _ _ _ _ _ Hinit Hcache Hget) in HF.
    rewrite H in Hnew. apply app_inv_head in Hnew. subst new.
    apply elem_of_cons in Hin as [Hin | Hin]; [ discriminate | ].
    rewrite Forall_forall in HF. apply HF in Hin.
    destruct Hin as (-> & v0 & d' & _ & Hd' & p & _ & Hcop).
    rewrite Hd in Hd'. inversion Hd'; subst d'.
    unfold copied in Hcop. rewrite Hf in Hcop.
    destruct Hcop as (i & c & m & w1 & w1' & w2 & w2' & _ & Hc & Hm & ->).
    by exists i, c, m, w1, w1', w2, w2'.
  - intros x Ha Hh.
    assert (Hu : untouched pixels held x s s').
    { eapply call_untouched; [ exact contract | | exact H ].
      intros intro' s1 Hget n d Hd Hm.
      rewrite (Introspect_get_cached _ _ _ _ _ Hinit Hcache Hget) in Hd.
      by eapply Introspect_init_modify. }
    by destruct (Hu Ha Hh) as (_ & _ & ? & ?).
Qed.


(** * Further properties of the module *)

(** ** [_find_inside] with a predicate that has no effect *)

Lemma nodes_VList l : nodes (VList l) = VList l :: nodes_of_list l.
Proof.
  simpl. f_equal. induction l as [ | x l IH ]; [ reflexivity | ].
  unfold nodes_of_list. simpl. f_equal. exact IH.
Qed.

Lemma nodes_VTuple l : nodes (VTuple l) = VTuple l :: nodes_of_list l.
Proof.
  simpl. f_equal. induction l as [ | x l IH ]; [ reflexivity | ].
  unfold nodes_of_list. simpl. f_equal. exact IH.
Qed.

Lemma head_filter_app {A : Type} (f : A -> bool) (l1 l2 : list A) :
  head (List.filter f (l1 ++ l2)) =
    match head (List.filter f l1) with
    | Some x => Some x
    | None => head (List.filter f l2)
    end.
Proof.
  rewrite List.filter_app. by destruct (List.filter f l1).
Qed.

Lemma head_filter_not_None (pred : value -> bool) l :
  is_None (default VNone
             (head (List.filter (fun x => pred x && negb (is_None x)) l))) =
    match head (List.filter (fun x => pred x && negb (is_None x)) l) with
    | Some _ => false
    | None => true
    end.
Proof.
  destruct (head _) as [x | ] eqn:H; [ | reflexivity ].
  apply head_Some_elem_of, list_elem_of_In, filter_In in H as [_ H].
  apply andb_true_iff in H as [_ H]. simpl. by destruct x.
Qed.

(** X1: with a predicate that only tests, [_find_inside] returns the
    first node, in the order value-then-elements from left to right,
    that satisfies the predicate and is not [None]; it returns [None]
    when there is no such node.  A [None] that satisfies the predicate
    is never reported: the search goes on behind it. *)
Theorem _find_inside_first_match (pred : value -> bool) (thing : value) :
  fst (_find_inside (fun x (_ : unit) => (pred x, tt)) thing tt) =
    default VNone
      (head (List.filter (fun x => pred x && negb (is_None x)) (nodes thing))).
Proof.
  set (f := fun x => pred x && negb (is_None x)).
  assert (Hloop : forall l,
    Forall (fun v => fst (_find_inside (fun x (_ : unit) => (pred x, tt)) v tt)
                     = default VNone (head (List.filter f (nodes v)))) l ->
    fst (_find_inside_loop (fun x (_ : unit) => (pred x, tt)) l tt) =
      default VNone (head (List.filter f (nodes_of_list l)))).
  { intros l IH. induction IH as [ | x l Hx _ IHl ]; [ reflexivity | ].
    simpl. destruct (_find_inside _ x tt) as [r []] eqn:E. simpl in Hx.
    change (nodes_of_list (x :: l)) with (nodes x ++ nodes_of_list l).
    rewrite head_filter_app. subst r. unfold f at 1.
    rewrite head_filter_not_None. fold f.
    destruct (head (List.filter f (nodes x))); [ reflexivity | exact IHl ]. }
  induction thing as [ | b | z | str | i | l IH | l IH ] using value_ind';
    rewrite _find_inside_unfold.
  - simpl. unfold f. simpl. rewrite andb_false_r. by destruct (pred VNone).
  - simpl. unfold f. simpl. rewrite andb_true_r. by destruct (pred (VBool b)).
  - simpl. unfold f. simpl. rewrite andb_true_r. by destruct (pred (VInt z)).
  - simpl. unfold f. simpl. rewrite andb_true_r. by destruct (pred (VStr str)).
  - simpl. unfold f. simpl. rewrite andb_true_r. by destruct (pred (VImage i)).
  - rewrite nodes_VList. cbn [List.filter]. unfold f at 1. simpl negb.
    rewrite andb_true_r. destruct (pred (VList l)); [ reflexivity | ].
    by apply Hloop.
  - rewrite nodes_VTuple. cbn [List.filter]. unfold f at 1. simpl negb.
    rewrite andb_true_r. destruct (pred (VTuple l)); [ reflexivity | ].
    by apply Hloop.
Qed.

(** X17: with a predicate that never answers true, as the two the call
    uses to collect and to attach references, [_find_inside] returns
    [None] after it has applied the predicate to every node once, the
    value before its elements and the elements from left to right. *)
Theorem _find_inside_visits_every_node {S : Type}
    (pred : value -> S -> bool * S) (thing : value) (s : S) :
  (forall x s, fst (pred x s) = false) ->
  _find_inside pred thing s =
    (VNone, fold_left (fun s x => snd (pred x s)) (nodes thing) s).
Proof.
  intros Hpred.
  assert (Hstep : forall x s, pred x s = (false, snd (pred x s))).
  { intros x s0. specialize (Hpred x s0). by destruct (pred x s0) as [[] ?]. }
  assert (Hloop : forall l,
    Forall (fun v => forall s,
              _find_inside pred v s =
                (VNone, fold_left (fun s x => snd (pred x s)) (nodes v) s)) l ->
    forall s,
      _find_inside_loop pred l s =
        (VNone, fold_left (fun s x => snd (pred x s)) (nodes_of_list l) s)).
  { intros l IH. induction IH as [ | x l Hx _ IHl ]; intros s0;
      [ reflexivity | ].
    simpl. rewrite Hx. simpl.
    change (nodes_of_list (x :: l)) with (nodes x ++ nodes_of_list l).
    rewrite fold_left_app. apply IHl. }
  revert s.
  induction thing as [ | b | z | str | i | l IH | l IH ] using value_ind';
    intros s; rewrite _find_inside_unfold, Hstep;
    try reflexivity.
  - rewrite nodes_VList. simpl. by apply Hloop.
  - rewrite nodes_VTuple. simpl. by apply Hloop.
Qed.

(** ** The descriptor [Introspect.__init__] builds *)

Lemma add_args_fold raw acc :
  fold_left add_args raw acc =
    acc ++ map renamed (List.filter (fun arg => flag_set (snd arg) _CONSTRUCT) raw).
Proof.
  revert acc. induction raw as [ | [r f] raw IH ]; intros acc; simpl.
  - by rewrite app_nil_r.
  - rewrite IH. destruct (flag_set f _CONSTRUCT); [ | reflexivity ].
    simpl. by rewrite <- app_assoc.
Qed.

Lemma replace_dash_free s : dash_free (replace "-" "_" s).
Proof.
  unfold dash_free. induction s as [ | c s IH ]; simpl.
  - apply not_elem_of_nil.
  - apply not_elem_of_cons. split; [ | exact IH ].
    destruct (Ascii.eqb_spec c "-") as [-> | Hne]; [ discriminate | ].
    congruence.
Qed.

Lemma replace_no_dash s : dash_free s -> replace "-" "_" s = s.
Proof.
  unfold dash_free. induction s as [ | c s IH ]; simpl; [ done | ].
  intros H. apply not_elem_of_cons in H as [Hc Hs].
  rewrite IH by done. destruct (Ascii.eqb_spec c "-"); congruence.
Qed.

(** What [Introspect.__init__] returns when it returns. *)
Lemma Introspect_init_Ok op intro :
  Introspect_init op = Ok intro ->
  exists raw,
    vips_object_get_args vips_lib op = Some raw /\
    vips_operation_new vips_lib op = true /\
    at_least_libvips_8_7 vips_lib = true /\
    arguments intro =
      map renamed (List.filter (fun arg => flag_set (snd arg) _CONSTRUCT) raw) /\
    details intro =
      fold_left
        (fun (details : gmap string arg_details) '(name, flags) =>
           <[name := {| d_name := name; d_flags := flags;
                        d_blurb := get_blurb vips_lib op name;
                        d_type := get_typeof vips_lib op name |}]> details)
        (arguments intro) ∅ /\
    required_input intro = names_where is_required_input (arguments intro) /\
    optional_input intro = names_where is_optional_input (arguments intro) /\
    required_output intro = concat (map as_required_output (arguments intro)) /\
    optional_output intro = names_where is_optional_output (arguments intro) /\
    name intro = op /\
    description intro = get_description vips_lib op /\
    flags intro = vips_operation_get_flags vips_lib op.
Proof.
  unfold Introspect_init. intros H.
  destruct (vips_operation_new vips_lib op); [ | discriminate ].
  destruct (at_least_libvips_8_7 vips_lib); [ | discriminate ].
  destruct (vips_object_get_args vips_lib op) as [raw | ]; [ | discriminate ].
  simpl in H. inversion H; subst intro; clear H. simpl.
  exists raw. rewrite categorise_fold. simpl.
  rewrite add_args_fold. simpl. by repeat split.
Qed.

Lemma details_fold_lookup op arguments d0 n :
  fold_left
    (fun (details : gmap string arg_details) '(name, flags) =>
       <[name := {| d_name := name; d_flags := flags;
                    d_blurb := get_blurb vips_lib op name;
                    d_type := get_typeof vips_lib op name |}]> details)
    arguments d0 !! n =
  match last (List.filter (fun arg => String.eqb (fst arg) n) arguments) with
  | Some arg =>
      Some {| d_name := n; d_flags := snd arg;
              d_blurb := get_blurb vips_lib op n;
              d_type := get_typeof vips_lib op n |}
  | None => d0 !! n
  end.
Proof.
  revert d0. induction arguments as [ | [n0 f0] arguments IH ]; intros d0.
  - reflexivity.
  - simpl fold_left. rewrite IH. simpl List.filter.
    destruct (String.eqb_spec n0 n) as [-> | Hne].
    + destruct (List.filter _ arguments) as [ | a l ].
      * simpl. by rewrite lookup_insert_eq.
      * change (last ((n, f0) :: a :: l)) with (last (a :: l)).
        destruct (last (a :: l)) eqn:E; [ done | ].
        by apply last_None in E.
    + destruct (last _); [ done | ]. by rewrite lookup_insert_ne.
Qed.

Lemma elem_of_as_required_output (arguments : list (string * Z)) n :
  n ∈ concat (map as_required_output arguments) -> n ∈ map fst arguments.
Proof.
  intros H. apply elem_of_required_outputs in H as (f & H & _).
  apply list_elem_of_fmap. by exists (n, f).
Qed.

Lemma elem_of_names_where_fst test (arguments : list (string * Z)) n :
  n ∈ names_where test arguments -> n ∈ map fst arguments.
Proof.
  intros H. apply elem_of_names_where in H as (f & H & _).
  apply list_elem_of_fmap. by exists (n, f).
Qed.

Lemma last_named_argument (arguments : list (string * Z)) n :
  match last (List.filter (fun arg => String.eqb (fst arg) n) arguments) with
  | Some arg => (n, snd arg) ∈ arguments
  | None => n ∉ map fst arguments
  end.
Proof.
  destruct (last _) as [[n' f] | ] eqn:E.
  - apply last_Some_elem_of, list_elem_of_In, filter_In in E as [E1 E2].
    simpl in *. apply String.eqb_eq in E2 as ->. by apply list_elem_of_In.
  - apply last_None in E. intros Hin.
    apply list_elem_of_fmap in Hin as ([n' f] & -> & Hin).
    assert (Hf : (n', f) ∈ List.filter (fun arg => String.eqb (fst arg) n')
                              arguments).
    { apply list_elem_of_In, filter_In. split; [ by apply list_elem_of_In | ].
      apply String.eqb_refl. }
    simpl in E. rewrite E in Hf. by apply elem_of_nil in Hf.
Qed.

(** The keys of [details] are the names of the arguments. *)
Lemma Introspect_init_details_keys op intro n :
  Introspect_init op = Ok intro ->
  is_Some (details intro !! n) <-> n ∈ map fst (arguments intro).
Proof.
  intros H.
  apply Introspect_init_Ok in H as (raw & _ & _ & _ & _ & Hd & _).
  rewrite Hd, details_fold_lookup.
  pose proof (last_named_argument (arguments intro) n) as Hlast.
  destruct (last _) as [[n' f] | ].
  - split; [ | by eexists ]. intros _. apply list_elem_of_fmap.
    by exists (n, f).
  - rewrite lookup_empty. split; [ by intros [? ?] | done ].
Qed.

(** Every name in one of the four lists is the name of an argument. *)
Lemma Introspect_init_lists op intro n :
  Introspect_init op = Ok intro ->
  n ∈ required_input intro ++ optional_input intro ++
      required_output intro ++ optional_output intro ->
  n ∈ map fst (arguments intro).
Proof.
  intros H Hn.
  apply Introspect_init_Ok in H
    as (raw & _ & _ & _ & _ & _ & Hri & Hoi & Hro & Hoo & _).
  rewrite Hri, Hoi, Hro, Hoo in Hn.
  repeat (apply elem_of_app in Hn as [Hn | Hn]);
    eauto using elem_of_names_where_fst, elem_of_as_required_output.
Qed.

(** The entry of a name in [details]. *)
Lemma Introspect_init_details_entry op intro n d :
  Introspect_init op = Ok intro ->
  details intro !! n = Some d ->
  d_name d = n /\ (n, d_flags d) ∈ arguments intro /\
  d_blurb d = get_blurb vips_lib op n /\
  d_type d = get_typeof vips_lib op n.
Proof.
  intros H.
  apply Introspect_init_Ok in H as (raw & _ & _ & _ & _ & Hd & _).
  rewrite Hd, details_fold_lookup.
  pose proof (last_named_argument (arguments intro) n) as Hlast.
  destruct (last _) as [[n' f] | ]; [ | by rewrite lookup_empty ].
  intros Heq. inversion Heq; subst d; clear Heq. simpl. by repeat split.
Qed.

(** X2: in a descriptor, the keys of [details] are the names of the
    arguments, the entry of a name carries that name, the flags of its
    last declaration and the engine's blurb and type for it, and every
    name in one of the four lists has an entry: looking a listed name up
    in [details] cannot fail. *)
Theorem descriptor_details_cover_lists op intro :
  Introspect_init op = Ok intro ->
  (forall n, is_Some (details intro !! n) <-> n ∈ map fst (arguments intro)) /\
  (forall n d, details intro !! n = Some d ->
     d_name d = n /\ (n, d_flags d) ∈ arguments intro /\
     d_blurb d = get_blurb vips_lib op n /\
     d_type d = get_typeof vips_lib op n) /\
  (forall n,
     n ∈ required_input intro ++ optional_input intro ++
         required_output intro ++ optional_output intro ->
     is_Some (details intro !! n)).
Proof.
  intros H. split; [ | split ].
  - intros n. by apply (Introspect_init_details_keys op).
  - intros n d. by apply Introspect_init_details_entry.
  - intros n Hn. apply (Introspect_init_details_keys op); [ done | ].
    by apply (Introspect_init_lists op).
Qed.

(** X3: the argument names of a descriptor are the engine's names of the
    construct-time arguments with every '-' turned into '_', in
    declaration order; no name of the descriptor contains a '-', and a
    name the engine gives without '-' is kept as it is. *)
Theorem descriptor_names_are_python_names op intro :
  Introspect_init op = Ok intro ->
  exists raw,
    vips_object_get_args vips_lib op = Some raw /\
    arguments intro =
      map renamed (List.filter (fun arg => flag_set (snd arg) _CONSTRUCT) raw) /\
    (forall n f, (n, f) ∈ arguments intro ->
       dash_free n /\ flag_set f _CONSTRUCT = true) /\
    (forall n,
       n ∈ required_input intro ++ optional_input intro ++
           required_output intro ++ optional_output intro ->
       dash_free n) /\
    (forall r f, (r, f) ∈ raw -> flag_set f _CONSTRUCT = true -> dash_free r ->
       (r, f) ∈ arguments intro).
Proof.
  intros H.
  pose proof (Introspect_init_Ok _ _ H)
    as (raw & Hraw & _ & _ & Ha & _ & Hri & Hoi & Hro & Hoo & _).
  exists raw. split; [ done | ]. split; [ done | ].
  assert (Hargs : forall n f, (n, f) ∈ arguments intro ->
                              dash_free n /\ flag_set f _CONSTRUCT = true).
  { intros n f Hin. rewrite Ha in Hin.
    apply list_elem_of_fmap in Hin as ([r f'] & Heq & Hin).
    inversion Heq; subst. simpl.
    apply list_elem_of_In, filter_In in Hin as [_ Hc].
    split; [ apply replace_dash_free | done ]. }
  split; [ exact Hargs | ]. split.
  - intros n Hn. rewrite Hri, Hoi, Hro, Hoo in Hn.
    assert (Hin : n ∈ map fst (arguments intro)).
    { repeat (apply elem_of_app in Hn as [Hn | Hn]);
        eauto using elem_of_names_where_fst, elem_of_as_required_output. }
    apply list_elem_of_fmap in Hin as ([n' f] & -> & Hin).
    by apply (Hargs n' f).
  - intros r f Hin Hc Hr. rewrite Ha. apply list_elem_of_fmap.
    exists (r, f). split.
    + unfold renamed. simpl. by rewrite replace_no_dash.
    + apply list_elem_of_In, filter_In. split; [ by apply list_elem_of_In | done ].
Qed.

(** ** The stages of [Operation.call] *)

Lemma call_unfold operation_name args kwargs :
  call operation_name args kwargs =
    bind (Operation_new_from_name operation_name) (fun op =>
    bind (Introspect_get operation_name) (fun intro =>
      if negb (length (required_input intro) =? length args)%nat then
        raise (Error_needs_arguments operation_name
                 (length (required_input intro)) (length args))
      else
        call_body operation_name op intro
          (fst (pop "string_options" (VStr "") kwargs)) args
          (snd (pop "string_options" (VStr "") kwargs)))).
Proof.
  unfold call, call_body, call_outputs.
  destruct (pop "string_options" (VStr "") kwargs) as [so kw]. reflexivity.
Qed.

(** How a call ends before the option string: the operation does not
    exist, the descriptor cannot be built, or the number of positional
    arguments is wrong. *)
Lemma call_inv op args kwargs s r s' :
  call op args kwargs s = (r, s') ->
  (vips_operation_new vips_lib op = false /\
   r = Raise (Error_no_such_operation op) /\ s' = s) \/
  (vips_operation_new vips_lib op = true /\
   ((exists e, Introspect_get op s = (Raise e, s) /\ r = Raise e /\ s' = s) \/
    exists intro s1,
      Introspect_get op s = (Ok intro, s1) /\
      ((length (required_input intro) <> length args /\
        r = Raise (Error_needs_arguments op (length (required_input intro))
                     (length args)) /\ s' = s1) \/
       (length (required_input intro) = length args /\
        call_body op op intro
          (fst (pop "string_options" (VStr "") kwargs)) args
          (snd (pop "string_options" (VStr "") kwargs)) s1 = (r, s'))))).
Proof.
  rewrite call_unfold. intros H.
  apply bind_inv in H as [(op' & s0 & Hnew & H) | (e & Hnew & ->)].
  2:{ apply Operation_new_from_name_inv in Hnew as [-> [[Hop _] | [Hop Hn]]];
        [ discriminate Hop | ].
      left. inversion Hop; subst. done. }
  apply Operation_new_from_name_inv in Hnew as [-> [[Hop Hn] | [Hop _]]];
    [ | discriminate Hop ].
  inversion Hop; subst op'; clear Hop.
  right. split; [ exact Hn | ].
  apply bind_inv in H as [(intro & s1 & Hintro & H) | (e & Hintro & ->)].
  2:{ left. exists e. pose proof (Introspect_get_Raise _ _ _ _ Hintro) as ->.
      done. }
  right. exists intro, s1. split; [ exact Hintro | ].
  destruct (length (required_input intro) =? length args)%nat eqn:Hlen;
    cbn [negb] in H.
  - apply Nat.eqb_eq in Hlen. by right.
  - apply Nat.eqb_neq in Hlen. left. inversion H; subst. done.
Qed.

(** The stages of the rest of a call, whatever its outcome. *)
Lemma call_body_inv operation_name op intro so args kw s r s' :
  call_body operation_name op intro so args kw s = (r, s') ->
  exists o w1,
    set_string vips_lib op so (world s) = (o, w1) /\
    let s1 := after_call s (Call_set_string op so) w1 in
    match o with
    | Fails message => r = Raise (Foreign message) /\ s' = s1
    | Done false => r = Raise (Error_unable_to_call operation_name) /\ s' = s1
    | Done true =>
        exists r2 s2,
          set_required_inputs op intro (first_image args)
            (combine (required_input intro) args) ∅ s1 = (r2, s2) /\
          match r2 with
          | Raise e => r = Raise e /\ s' = s2
          | Ok references =>
              exists r3 s3,
                set_kwargs op intro (first_image args) kw references s2 =
                  (r3, s3) /\
                match r3 with
                | Raise e => r = Raise e /\ s' = s3
                | Ok references =>
                    exists b w4,
                      vips_cache_operation_build vips_lib op (world s3) =
                        (b, w4) /\
                      let s4 := after_call s3 (Call_build op) w4 in
                      if b
                      then call_outputs op intro kw references s4 = (r, s')
                      else r = Raise (Error_unable_to_call operation_name) /\
                           s' = s4
                end
          end
    end.
Proof.
  unfold call_body. cbv zeta. rewrite find_match_image. intros H.
  unfold bind at 1 in H. unfold record_call at 1 in H.
  unfold bind at 1 in H. unfold engine at 1 in H. cbn [world heap log calls
    _introspect_cache] in H.
  destruct (set_string vips_lib op so (world s)) as [o w1] eqn:Eo.
  exists o, w1. split; [ reflexivity | ]. cbv zeta. unfold after_call.
  destruct o as [[ | ] | message]; cbn [negb] in H.
  - destruct (set_required_inputs op intro (first_image args)
                (combine (required_input intro) args) ∅ _) as [r2 s2] eqn:E2.
    exists r2, s2. split; [ reflexivity | ].
    unfold bind at 1 in H. rewrite E2 in H.
    destruct r2 as [references | e]; [ | by inversion H ].
    destruct (set_kwargs op intro (first_image args) kw references s2)
      as [r3 s3] eqn:E3.
    exists r3, s3. split; [ reflexivity | ].
    unfold bind at 1 in H. rewrite E3 in H.
    destruct r3 as [references' | e]; [ | by inversion H ].
    unfold bind at 1 in H. unfold record_call at 1 in H.
    unfold bind at 1 in H. unfold engine at 1 in H.
    cbn [world heap log calls _introspect_cache] in H.
    destruct (vips_cache_operation_build vips_lib op (world s3))
      as [b w4] eqn:Eb.
    exists b, w4. split; [ reflexivity | ].
    destruct b; cbn [negb] in H; [ exact H | by inversion H ].
  - by inversion H.
  - by inversion H.
Qed.

(** ** What each stage does, whatever its outcome *)

Lemma same_log_refl s : same_log s s.
Proof. done. Qed.

Lemma same_log_trans s1 s2 s3 :
  same_log s1 s2 -> same_log s2 s3 -> same_log s1 s3.
Proof. unfold same_log. congruence. Qed.

Ltac log_frame := repeat frame_step same_log_refl same_log_trans.

Lemma engine_log {A : Type} (f : W -> outcome A * W) :
  respects same_log (engine f).
Proof. intros s. unfold engine. by destruct (f (world s)). Qed.

Lemma record_call_log e : respects same_log (record_call e).
Proof. by intros s. Qed.

Lemma set_heap_log h : respects same_log (set_heap h).
Proof. by intros s. Qed.

#[local] Hint Resolve engine_log record_call_log set_heap_log : frame.

Lemma imageize_each_log m xs : respects same_log (imageize_each m xs).
Proof. induction xs as [ | x xs IH ]; simpl; log_frame. Qed.

Lemma unique_copy_log v : respects same_log (unique_copy v).
Proof. destruct v; simpl; log_frame. Qed.

#[local] Hint Resolve imageize_each_log unique_copy_log : frame.

Lemma Operation_set_log op n f m v :
  respects same_log (Operation_set op n f m v).
Proof. unfold Operation_set. log_frame. Qed.

Lemma map_fst_combine {A B : Type} (l : list A) (k : list B) :
  length l = length k -> map fst (combine l k) = l.
Proof.
  revert k. induction l as [ | a l IH ]; intros [ | b k ] Hlen;
    simpl in *; try done. f_equal. apply IH. lia.
Qed.

Lemma map_snd_combine {A B : Type} (l : list A) (k : list B) :
  length l = length k -> map snd (combine l k) = k.
Proof.
  revert k. induction l as [ | a l IH ]; intros [ | b k ] Hlen;
    simpl in *; try done. f_equal. apply IH. lia.
Qed.

(** [Operation.set] writes no log and no reference; when it returns it
    has handed one value to the engine. *)
Lemma Operation_set_run op n f m v0 s r s' :
  Operation_set op n f m v0 s = (r, s') ->
  log s' = log s /\ heap s' = heap s /\
  match r with
  | Ok _ => exists v, calls s' = calls s ++ [Call_set op n v]
  | Raise _ =>
      calls s' = calls s \/ exists v, calls s' = calls s ++ [Call_set op n v]
  end.
Proof.
  intros H. split; [ | split ].
  - exact (respects_run same_log _ _ _ _ (Operation_set_log _ _ _ _ _) H).
  - by destruct (respects_run _ _ _ _ _ (Operation_set_python _ _ _ _ _) H).
  - destruct r as [ [] | e ].
    + revert H. unfold Operation_set. intros H.
      apply bind_Ok_inv in H as (p & s1 & Hp & H).
      assert (Hs1 : calls s1 = calls s).
      { revert Hp. apply (respects_run same_calls). calls_frame. }
      apply bind_Ok_inv in H as (v & s2 & Hv & H).
      assert (Hs2 : calls s2 = calls s1).
      { revert Hv. apply (respects_run same_calls). calls_frame. }
      apply bind_Ok_inv in H as ([] & s3 & H3 & H).
      inversion H3; subst s3; clear H3.
      apply (respects_run same_calls _ _ _ _ (engine_calls _)) in H.
      exists v. unfold same_calls in H. simpl in H. by rewrite H, Hs2, Hs1.
    + apply Operation_set_calls in H as [H | (v & H & _)];
        [ by left | right; by exists v ].
Qed.

Lemma set_required_inputs_run op intro m pairs references s r s' :
  set_required_inputs op intro m pairs references s = (r, s') ->
  log s' = log s /\ heap s' = heap s /\
  exists sets,
    calls s' = calls s ++ sets /\
    match r with
    | Ok _ =>
        map erase sets = map (fun n => Call_set op n VNone) (map fst pairs)
    | Raise _ =>
        map erase sets `prefix_of`
          map (fun n => Call_set op n VNone) (map fst pairs)
    end.
Proof.
  revert references s.
  induction pairs as [ | [n v] pairs IH ]; intros references s H; simpl in H.
  - inversion H; subst. do 2 (split; [ done | ]). exists [].
    by rewrite app_nil_r.
  - rewrite (bind_Ok get_heap _ s (heap s) s eq_refl) in H.
    destruct (details intro !! n) as [d | ].
    2:{ inversion H; subst. do 2 (split; [ done | ]). exists [].
        rewrite app_nil_r. split; [ done | apply prefix_nil ]. }
    apply bind_inv in H as [([] & s1 & Hset & H) | (e & Hset & ->)].
    + apply Operation_set_run in Hset as (Hl & Hh & v' & Hc).
      apply IH in H as (Hl' & Hh' & sets & Hc' & Hr).
      split; [ congruence | ]. split; [ congruence | ].
      exists (Call_set op n v' :: sets).
      split; [ by rewrite Hc', Hc, <- app_assoc | ].
      simpl. destruct r; [ by rewrite Hr | by apply prefix_cons ].
    + apply Operation_set_run in Hset as (Hl & Hh & [Hc | (v' & Hc)]).
      * do 2 (split; [ done | ]). exists []. rewrite app_nil_r.
        split; [ done | apply prefix_nil ].
      * do 2 (split; [ done | ]). exists [Call_set op n v'].
        split; [ done | ]. simpl. apply prefix_cons, prefix_nil.
Qed.

Lemma deprecated_names_cons intro n v kw :
  deprecated_names intro ((n, v) :: kw) =
    (if match details intro !! n with
        | Some d => flag_set (d_flags d) _DEPRECATED
        | None => false
        end
     then [n] else []) ++ deprecated_names intro kw.
Proof.
  unfold deprecated_names. simpl.
  by destruct (match details intro !! n with Some _ => _ | None => _ end).
Qed.

Lemma set_kwargs_run op intro m kw references s r s' :
  set_kwargs op intro m kw references s = (r, s') ->
  heap s' = heap s /\
  exists sets names,
    calls s' = calls s ++ sets /\
    log s' = log s ++ map (pair op) names /\
    match r with
    | Ok _ =>
        map erase sets = map (fun n => Call_set op n VNone) (map fst kw) /\
        names = deprecated_names intro kw
    | Raise _ =>
        map erase sets `prefix_of`
          map (fun n => Call_set op n VNone) (map fst kw) /\
        names `prefix_of` deprecated_names intro kw
    end.
Proof.
  revert references s.
  induction kw as [ | [n v] kw IH ]; intros references s H; simpl in H.
  - inversion H; subst. split; [ done | ]. exists [], [].
    by rewrite !app_nil_r.
  - destruct (details intro !! n) as [d | ] eqn:Hd.
    2:{ inversion H; subst. split; [ done | ]. exists [], [].
        rewrite !app_nil_r. do 2 (split; [ done | ]). split; apply prefix_nil. }
    destruct (negb (in_list n (optional_input intro)) &&
              negb (in_list n (optional_output intro))).
    { inversion H; subst. split; [ done | ]. exists [], [].
      rewrite !app_nil_r. do 2 (split; [ done | ]). split; apply prefix_nil. }
    rewrite deprecated_names_cons, Hd.
    apply bind_inv in H as [([] & s1 & Hlog & H) | (e & Hlog & _)].
    2:{ destruct (flag_set (d_flags d) _DEPRECATED); discriminate Hlog. }
    assert (Hs1 : heap s1 = heap s /\ calls s1 = calls s /\
                  log s1 = log s ++
                    map (pair op)
                      (if flag_set (d_flags d) _DEPRECATED then [n] else [])).
    { destruct (flag_set (d_flags d) _DEPRECATED); inversion Hlog; subst;
        simpl; by rewrite ?app_nil_r. }
    destruct Hs1 as (Hh1 & Hc1 & Hl1). clear Hlog.
    rewrite (bind_Ok get_heap _ s1 (heap s1) s1 eq_refl) in H.
    apply bind_inv in H as [([] & s2 & Hset & H) | (e & Hset & ->)].
    + apply Operation_set_run in Hset as (Hl & Hh & v' & Hc).
      apply IH in H as (Hh' & sets & names & Hc' & Hl' & Hr).
      split; [ congruence | ].
      exists (Call_set op n v' :: sets),
             ((if flag_set (d_flags d) _DEPRECATED then [n] else []) ++ names).
      split; [ by rewrite Hc', Hc, Hc1, <- app_assoc | ].
      split; [ by rewrite Hl', Hl, Hl1, map_app, app_assoc | ].
      simpl. destruct r.
      * destruct Hr as [-> ->]. done.
      * destruct Hr as [Hr1 Hr2]. split; [ by apply prefix_cons | ].
        by apply prefix_app.
    + apply Operation_set_run in Hset as (Hl & Hh & Hc).
      split; [ congruence | ].
      assert (Hsets : exists sets,
                calls s' = calls s ++ sets /\
                map erase sets `prefix_of`
                  map (fun n => Call_set op n VNone) (map fst ((n, v) :: kw))).
      { destruct Hc as [Hc | (v' & Hc)].
        - exists []. rewrite app_nil_r. split; [ congruence | apply prefix_nil ].
        - exists [Call_set op n v']. split; [ congruence | ].
          simpl. apply prefix_cons, prefix_nil. }
      destruct Hsets as (sets & Hsets & Hpre).
      exists sets, (if flag_set (d_flags d) _DEPRECATED then [n] else []).
      split; [ done | ]. split; [ congruence | ].
      split; [ done | ]. by apply prefix_app_r.
Qed.

Lemma attached_refl references s : attached references s s.
Proof. by exists []. Qed.

Lemma attached_trans references s1 s2 s3 :
  attached references s1 s2 -> attached references s2 s3 ->
  attached references s1 s3.
Proof.
  intros [xs H1] [ys H2]. exists (xs ++ ys). by rewrite attach_app, <- H1.
Qed.

(** [op.get(name)] is always asked of the engine; only the engine can
    make it fail, and then no reference is attached. *)
Lemma fetch_run op references n s r s' :
  fetch op references n s = (r, s') ->
  calls s' = calls s ++ [Call_get op n] /\ log s' = log s /\
  match r with
  | Ok v => heap s' = attach references (images v) (heap s)
  | Raise e => heap s' = heap s /\ is_Foreign e
  end.
Proof.
  unfold fetch. intros H.
  unfold bind at 1 in H. unfold record_call at 1 in H.
  unfold bind at 1 in H. unfold engine at 1 in H.
  cbn [world heap log calls _introspect_cache] in H.
  destruct (VipsObject_get vips_lib op n (world s)) as [[v | message] w].
  - unfold bind, get_heap, set_heap, pure in H.
    cbn [world heap log calls _introspect_cache] in H.
    rewrite find_set_reference in H. inversion H; subst; clear H. done.
  - inversion H; subst; clear H. done.
Qed.

Lemma get_required_outputs_run op references names result s r s' :
  get_required_outputs op references names result s = (r, s') ->
  log s' = log s /\ attached references s s' /\
  exists gets,
    calls s' = calls s ++ gets /\
    match r with
    | Ok _ => gets = map (Call_get op) names
    | Raise e => is_Foreign e /\ gets `prefix_of` map (Call_get op) names
    end.
Proof.
  revert result s. induction names as [ | n names IH ]; intros result s H;
    simpl in H.
  - inversion H; subst. split; [ done | ]. split; [ apply attached_refl | ].
    exists []. by rewrite app_nil_r.
  - apply bind_inv in H as [(v & s1 & Hv & H) | (e & Hv & ->)].
    + apply fetch_run in Hv as (Hc & Hl & Hh).
      apply IH in H as (Hl' & Ha & gets & Hc' & Hr).
      split; [ congruence | ]. split.
      { eapply attached_trans; [ | exact Ha ]. by exists (images v). }
      exists (Call_get op n :: gets).
      split; [ by rewrite Hc', Hc, <- app_assoc | ].
      simpl. destruct r; [ by rewrite Hr | ].
      destruct Hr as [Hf Hr]. split; [ done | by apply prefix_cons ].
    + apply fetch_run in Hv as (Hc & Hl & Hh & Hf).
      split; [ done | ]. split; [ by exists [] | ].
      exists [Call_get op n]. split; [ done | ]. split; [ done | ].
      simpl. apply prefix_cons, prefix_nil.
Qed.

Lemma get_optional_outputs_run op references kwargs names opts s r s' :
  get_optional_outputs op references kwargs names opts s = (r, s') ->
  log s' = log s /\ attached references s s' /\
  exists gets,
    calls s' = calls s ++ gets /\
    match r with
    | Ok _ => gets = map (Call_get op) (requested kwargs names)
    | Raise e =>
        is_Foreign e /\
        gets `prefix_of` map (Call_get op) (requested kwargs names)
    end.
Proof.
  revert opts s. induction names as [ | n names IH ]; intros opts s H;
    simpl in H.
  - inversion H; subst. split; [ done | ]. split; [ apply attached_refl | ].
    exists []. by rewrite app_nil_r.
  - unfold requested. simpl. fold (requested kwargs names).
    destruct (has_key n kwargs); [ | by apply IH in H ].
    apply bind_inv in H as [(v & s1 & Hv & H) | (e & Hv & ->)].
    + apply fetch_run in Hv as (Hc & Hl & Hh).
      apply IH in H as (Hl' & Ha & gets & Hc' & Hr).
      split; [ congruence | ]. split.
      { eapply attached_trans; [ | exact Ha ]. by exists (images v). }
      exists (Call_get op n :: gets).
      split; [ by rewrite Hc', Hc, <- app_assoc | ].
      simpl. destruct r; [ by rewrite Hr | ].
      destruct Hr as [Hf Hr]. split; [ done | by apply prefix_cons ].
    + apply fetch_run in Hv as (Hc & Hl & Hh & Hf).
      split; [ done | ]. split; [ by exists [] | ].
      exists [Call_get op n]. split; [ done | ]. split; [ done | ].
      simpl. apply prefix_cons, prefix_nil.
Qed.

(** After the build only the engine can make the call fail, and the
    outputs are released exactly when every read succeeded. *)
Lemma call_outputs_run op intro kw references s r s' :
  call_outputs op intro kw references s = (r, s') ->
  log s' = log s /\ attached references s s' /\
  exists new,
    calls s' = calls s ++ new /\
    match r with
    | Ok _ =>
        new =
          map (Call_get op)
            (required_output intro ++ requested kw (optional_output intro)) ++
          [Call_unref_outputs op]
    | Raise e =>
        is_Foreign e /\
        new `prefix_of`
          map (Call_get op)
            (required_output intro ++ requested kw (optional_output intro))
    end.
Proof.
  unfold call_outputs. intros H.
  apply bind_inv in H as [(result & s1 & H1 & H) | (e & H1 & ->)].
  2:{ apply get_required_outputs_run in H1 as (Hl & Ha & gets & Hc & Hf & Hp).
      do 2 (split; [ done | ]). exists gets. do 2 (split; [ done | ]).
      rewrite map_app. by apply prefix_app_r. }
  apply get_required_outputs_run in H1 as (Hl1 & Ha1 & gets1 & Hc1 & ->).
  apply bind_inv in H as [(opts & s2 & H2 & H) | (e & H2 & ->)].
  2:{ apply get_optional_outputs_run in H2 as (Hl & Ha & gets & Hc & Hf & Hp).
      split; [ congruence | ].
      split; [ by eapply attached_trans | ].
      exists (map (Call_get op) (required_output intro) ++ gets).
      split; [ by rewrite Hc, Hc1, <- app_assoc | ]. split; [ done | ].
      rewrite map_app. by apply prefix_app. }
  apply get_optional_outputs_run in H2 as (Hl2 & Ha2 & gets2 & Hc2 & ->).
  cbv zeta in H. unfold bind, record_call, engine, pure in H.
  cbn [world heap log calls _introspect_cache] in H.
  inversion H; subst r s'; clear H.
  cbn [world heap log calls _introspect_cache].
  split; [ congruence | ]. split.
  { destruct Ha1 as [xs Hx], Ha2 as [ys Hy]. exists (xs ++ ys).
    by rewrite attach_app, <- Hx. }
  eexists. split; [ | reflexivity ].
  by rewrite Hc2, Hc1, map_app, <- !app_assoc.
Qed.

Lemma erase_gets l : Forall is_get l -> map erase l = l.
Proof.
  induction 1 as [ | x l Hx _ IH ]; [ done | ].
  simpl. rewrite IH. by destruct x.
Qed.

Lemma Forall_is_get_map op names : Forall is_get (map (Call_get op) names).
Proof.
  apply Forall_forall. intros x Hx.
  apply list_elem_of_fmap in Hx as (y & -> & _). exact I.
Qed.

(** The rest of a call, whatever its outcome: the calls it makes on the
    operation, what it logs and the references it attaches. *)
Lemma call_body_run operation_name op intro so args kw s r s' :
  length (required_input intro) = length args ->
  call_body operation_name op intro so args kw s = (r, s') ->
  exists new names xs,
    calls s' = calls s ++ new /\
    log s' = log s ++ map (pair op) names /\
    heap s' =
      attach (collect (heap s) (images_of_list (args ++ map snd kw)) ∅) xs
        (heap s) /\
    match r with
    | Ok _ =>
        map erase new =
          engine_protocol op intro so kw ++ [Call_unref_outputs op] /\
        names = deprecated_names intro kw
    | Raise e =>
        map erase new `prefix_of` engine_protocol op intro so kw /\
        names `prefix_of` deprecated_names intro kw /\
        (xs = [] \/ is_Foreign e)
    end.
Proof.
  intros Hlen H. unfold engine_protocol.
  apply call_body_inv in H as (o & w1 & _ & H). cbv zeta in H.
  assert (Hstop : forall e,
            (r, s') = (Raise e, after_call s (Call_set_string op so) w1) ->
            exists new names xs,
              calls s' = calls s ++ new /\
              log s' = log s ++ map (pair op) names /\
              heap s' =
                attach (collect (heap s)
                          (images_of_list (args ++ map snd kw)) ∅) xs
                  (heap s) /\
              match r with
              | Ok _ => False
              | Raise e =>
                  map erase new `prefix_of`
                    Call_set_string op so ::
                    map (fun n => Call_set op n VNone)
                      (required_input intro ++ map fst kw) ++
                    Call_build op ::
                    map (Call_get op)
                      (required_output intro ++
                       requested kw (optional_output intro)) /\
                  names `prefix_of` deprecated_names intro kw /\
                  (xs = [] \/ is_Foreign e)
              end).
  { intros e He. inversion He; subst r s'; clear He.
    exists [Call_set_string op so], [], []. simpl.
    rewrite app_nil_r. do 3 (split; [ done | ]).
    split; [ apply prefix_cons, prefix_nil | ].
    split; [ apply prefix_nil | by left ]. }
  destruct o as [[ | ] | message].
  2:{ destruct H as [-> ->].
      destruct (Hstop _ eq_refl) as (new & names & xs & H). eauto. }
  2:{ destruct H as [-> ->].
      destruct (Hstop _ eq_refl) as (new & names & xs & H). eauto. }
  clear Hstop. destruct H as (r2 & s2 & H2 & H).
  apply set_required_inputs_run in H2 as Hrun2.
  destruct Hrun2 as (Hl2 & Hh2 & sets2 & Hc2 & Hr2).
  rewrite map_fst_combine in Hr2 by done.
  unfold after_call in Hl2, Hh2, Hc2.
  cbn [world heap log calls _introspect_cache] in Hl2, Hh2, Hc2.
  destruct r2 as [refs1 | e2].
  2:{ destruct H as [-> ->].
      exists (Call_set_string op so :: sets2), [], [].
      split; [ by rewrite Hc2, <- app_assoc | ].
      split; [ by rewrite Hl2, app_nil_r | ]. split; [ done | ].
      split; [ | split; [ apply prefix_nil | by left ] ].
      simpl. apply prefix_cons. rewrite map_app, <- app_assoc.
      by apply prefix_app_r. }
  apply set_required_inputs_Ok in H2.
  rewrite map_snd_combine in H2 by done.
  unfold after_call in H2. cbn [heap] in H2.
  destruct H as (r3 & s3 & H3 & H).
  apply set_kwargs_run in H3 as Hrun3.
  destruct Hrun3 as (Hh3 & sets3 & names & Hc3 & Hl3 & Hr3).
  destruct r3 as [refs2 | e3].
  2:{ destruct H as [-> ->]. destruct Hr3 as [Hr3 Hn3].
      exists (Call_set_string op so :: sets2 ++ sets3), names, [].
      split; [ by rewrite Hc3, Hc2, <- !app_assoc | ].
      split; [ by rewrite Hl3, Hl2 | ].
      split; [ simpl; congruence | ].
      split; [ | split; [ done | by left ] ].
      simpl. apply prefix_cons. rewrite !map_app, Hr2, <- app_assoc.
      apply prefix_app. by apply prefix_app_r. }
  apply set_kwargs_Ok in H3. destruct Hr3 as [Hr3 ->].
  assert (Hrefs : refs2 =
            collect (heap s) (images_of_list (args ++ map snd kw)) ∅).
  { by rewrite H3, H2, Hh2, images_of_list_app, collect_app. }
  clear H2 H3. subst refs2.
  set (references :=
         collect (heap s) (images_of_list (args ++ map snd kw)) ∅) in *.
  destruct H as (b & w4 & _ & H). cbv zeta in H.
  destruct b.
  2:{ destruct H as [-> ->].
      exists (Call_set_string op so :: sets2 ++ sets3 ++ [Call_build op]),
             (deprecated_names intro kw), [].
      unfold after_call. cbn [world heap log calls _introspect_cache].
      split; [ by rewrite Hc3, Hc2, <- !app_assoc | ].
      split; [ by rewrite Hl3, Hl2 | ].
      split; [ simpl; congruence | ].
      split; [ | split; [ done | by left ] ].
      simpl. apply prefix_cons.
      rewrite !map_app, Hr2, Hr3, <- !app_assoc.
      do 2 apply prefix_app. simpl. apply prefix_cons, prefix_nil. }
  apply call_outputs_run in H as (Hl5 & [xs Hh5] & new & Hc5 & Hr5).
  unfold after_call in Hl5, Hh5, Hc5.
  cbn [world heap log calls _introspect_cache] in Hl5, Hh5, Hc5.
  exists (Call_set_string op so :: sets2 ++ sets3 ++ [Call_build op] ++ new),
         (deprecated_names intro kw), xs.
  split; [ by rewrite Hc5, Hc3, Hc2, <- !app_assoc | ].
  split; [ by rewrite Hl5, Hl3, Hl2 | ].
  split; [ by rewrite Hh5, Hh3, Hh2 | ].
  assert (Hgets : forall l, map erase (map (Call_get op) l) = map (Call_get op) l).
  { intros l. rewrite map_map. reflexivity. }
  destruct r as [v | e].
  - subst new. split; [ | done ].
    simpl. rewrite !map_app, Hr2, Hr3. simpl.
    rewrite !map_app, !Hgets. simpl. rewrite <- ?app_assoc. simpl.
    by rewrite <- ?app_assoc.
  - destruct Hr5 as [Hf Hp]. split; [ | split; [ done | by right ] ].
    set (expected := map (Call_get op)
                       (required_output intro ++
                        requested kw (optional_output intro))) in *.
    simpl. apply prefix_cons.
    rewrite !map_app, Hr2, Hr3, <- !app_assoc.
    do 2 apply prefix_app. simpl. apply prefix_cons.
    destruct Hp as [k Hk]. exists k. rewrite erase_gets; [ done | ].
    assert (HF : Forall is_get (new ++ k)).
    { rewrite <- Hk. apply Forall_is_get_map. }
    by apply Forall_app in HF as [HF _].
Qed.

Lemma python_cache {A : Type} (m : M W A) :
  respects same_python m -> respects same_cache m.
Proof. intros H s. by destruct (H s). Qed.

Lemma set_heap_cache h : respects same_cache (set_heap h).
Proof. by intros s. Qed.

Lemma fetch_cache op references n :
  respects same_cache (fetch op references n).
Proof.
  unfold fetch.
  repeat first
    [ apply set_heap_cache
    | apply python_cache; solve [ auto with frame ]
    | frame_step same_cache_refl same_cache_trans ].
Qed.

Lemma get_required_outputs_cache op references names result :
  respects same_cache (get_required_outputs op references names result).
Proof.
  revert result. induction names as [ | n names IH ]; intros result; simpl.
  - apply (respects_pure _ same_cache_refl).
  - apply (respects_bind _ same_cache_trans); [ apply fetch_cache | ].
    intros v. apply IH.
Qed.

Lemma get_optional_outputs_cache op references kw names opts :
  respects same_cache (get_optional_outputs op references kw names opts).
Proof.
  revert opts. induction names as [ | n names IH ]; intros opts; simpl.
  - apply (respects_pure _ same_cache_refl).
  - destruct (has_key n kw); [ | apply IH ].
    apply (respects_bind _ same_cache_trans); [ apply fetch_cache | ].
    intros v. apply IH.
Qed.

Lemma call_body_cache operation_name op intro so args kw :
  respects same_cache (call_body operation_name op intro so args kw).
Proof.
  unfold call_body, call_outputs. cbv zeta.
  repeat first
    [ apply get_required_outputs_cache
    | apply get_optional_outputs_cache
    | apply python_cache;
      first [ apply set_required_inputs_python | apply set_kwargs_python
            | solve [ auto with frame ] ]
    | frame_step same_cache_refl same_cache_trans ].
Qed.

(** A call, whatever its outcome: it ends before anything was asked of
    the operation, with an error of its own, or it runs the rest with
    the descriptor that is then in the cache. *)
Lemma call_run op args kwargs s r s' :
  call op args kwargs s = (r, s') ->
  let options := fst (pop "string_options" (VStr "") kwargs) in
  let kw := snd (pop "string_options" (VStr "") kwargs) in
  (exists e, r = Raise e /\ ~ is_Foreign e /\
     calls s' = calls s /\ log s' = log s /\ heap s' = heap s) \/
  exists intro new names xs,
    _introspect_cache s' !! op = Some intro /\
    length (required_input intro) = length args /\
    calls s' = calls s ++ new /\
    log s' = log s ++ map (pair op) names /\
    heap s' =
      attach (collect (heap s) (images_of_list (args ++ map snd kw)) ∅) xs
        (heap s) /\
    match r with
    | Ok _ =>
        map erase new =
          engine_protocol op intro options kw ++ [Call_unref_outputs op] /\
        names = deprecated_names intro kw
    | Raise e =>
        map erase new `prefix_of` engine_protocol op intro options kw /\
        names `prefix_of` deprecated_names intro kw /\
        (xs = [] \/ is_Foreign e)
    end.
Proof.
  intros H. cbv zeta.
  apply call_inv in H as [(_ & -> & ->) | (_ & [(e & Hget & -> & ->) | H])].
  { left. eexists. split; [ reflexivity | ]. split; [ by intros [] | done ]. }
  { left. exists e. split; [ reflexivity | ]. split; [ | done ].
    unfold Introspect_get in Hget.
    destruct (_introspect_cache s !! op); [ discriminate Hget | ].
    destruct (Introspect_init op) as [intro | e'] eqn:Hinit;
      [ discriminate Hget | ].
    inversion Hget; subst e'.
    apply Introspect_init_Raise in Hinit as [-> | [-> | ->]]; by intros []. }
  destruct H as (intro & s1 & Hget & H).
  apply Introspect_get_Ok in Hget as (Hh1 & Hc1 & _ & Hl1 & Hcache).
  destruct H as [(Hlen & -> & ->) | (Hlen & H)].
  { left. eexists. split; [ reflexivity | ]. split; [ by intros [] | done ]. }
  right. exists intro.
  pose proof (respects_run same_cache _ _ _ _
                (call_body_cache _ _ _ _ _ _) H) as Hc.
  apply call_body_run in H as (new & names & xs & Hc' & Hl' & Hh' & Hr);
    [ | done ].
  exists new, names, xs. unfold same_cache in Hc.
  rewrite Hc, Hc', Hl', Hh', Hh1, Hc1, Hl1. done.
Qed.

(** X4: whatever the outcome of a call, what the engine is asked, with
    the marshalled values left out, is an initial part of: the option
    string, the required inputs in the order of the descriptor, the
    named arguments in the order of the caller, the build, the required
    outputs and the optional outputs that were asked for; the outputs
    are released after all that, and exactly when the call returns. *)
Theorem call_engine_protocol op args kwargs s r s' :
  call op args kwargs s = (r, s') ->
  let options := fst (pop "string_options" (VStr "") kwargs) in
  let kw := snd (pop "string_options" (VStr "") kwargs) in
  exists new,
    calls s' = calls s ++ new /\
    match r with
    | Ok _ =>
        exists intro,
          _introspect_cache s' !! op = Some intro /\
          map erase new =
            engine_protocol op intro options kw ++ [Call_unref_outputs op]
    | Raise _ =>
        (Call_unref_outputs op ∉ new) /\
        (new = [] \/
         exists intro,
           _introspect_cache s' !! op = Some intro /\
           map erase new `prefix_of` engine_protocol op intro options kw)
    end.
Proof.
  intros H. cbv zeta.
  apply call_run in H
    as [(e & -> & _ & Hc & _) |
        (intro & new & names & xs & Hcache & _ & Hc & _ & _ & Hr)].
  - exists []. rewrite app_nil_r. split; [ done | ].
    split; [ apply not_elem_of_nil | by left ].
  - exists new. split; [ done | ]. destruct r as [v | e].
    + exists intro. by destruct Hr.
    + destruct Hr as (Hp & _). split; [ | right; by exists intro ].
      intros Hin.
      assert (Hin' : Call_unref_outputs op ∈ map erase new).
      { apply list_elem_of_fmap. by exists (Call_unref_outputs op). }
      destruct Hp as [k Hk].
      assert (Hin'' : Call_unref_outputs op ∈
                engine_protocol op intro
                  (fst (pop "string_options" (VStr "") kwargs))
                  (snd (pop "string_options" (VStr "") kwargs))).
      { rewrite Hk. apply elem_of_app. by left. }
      unfold engine_protocol in Hin''.
      apply elem_of_cons in Hin'' as [Hin'' | Hin'']; [ discriminate Hin'' | ].
      apply elem_of_app in Hin'' as [Hin'' | Hin''].
      { apply list_elem_of_fmap in Hin'' as (y & Hy & _). discriminate Hy. }
      apply elem_of_cons in Hin'' as [Hin'' | Hin'']; [ discriminate Hin'' | ].
      apply list_elem_of_fmap in Hin'' as (y & Hy & _). discriminate Hy.
Qed.

(** X5: a call logs one record for each named argument that the
    descriptor flags as deprecated, in the order of the caller, and
    goes on; it logs nothing else.  A call that fails has logged the
    records of an initial part of these arguments. *)
Theorem deprecated_arguments_are_logged op args kwargs s r s' :
  call op args kwargs s = (r, s') ->
  let kw := snd (pop "string_options" (VStr "") kwargs) in
  match r with
  | Ok _ =>
      exists intro,
        _introspect_cache s' !! op = Some intro /\
        log s' = log s ++ map (pair op) (deprecated_names intro kw)
  | Raise _ =>
      log s' = log s \/
      exists intro names,
        _introspect_cache s' !! op = Some intro /\
        log s' = log s ++ map (pair op) names /\
        names `prefix_of` deprecated_names intro kw
  end.
Proof.
  intros H. cbv zeta.
  apply call_run in H
    as [(e & -> & _ & _ & Hl & _) |
        (intro & new & names & xs & Hcache & _ & _ & Hl & _ & Hr)].
  - by left.
  - destruct r as [v | e].
    + exists intro. destruct Hr as [_ <-]. done.
    + right. exists intro, names. by destruct Hr as (_ & Hn & _).
Qed.

Lemma dom_refs_of_attach references xs h x :
  dom (refs_of (attach references xs h) x) =
    if decide (x ∈ xs) then dom (refs_of h x) ∪ dom references
    else dom (refs_of h x).
Proof.
  rewrite refs_of_attach. destruct (decide (x ∈ xs)); [ | done ].
  apply dom_update.
Qed.

(** X6: whatever the outcome of a call, no image loses a reference, and
    an image gains only references of the images found in the inputs of
    the call. *)
Theorem call_only_adds_input_references op args kwargs s r s' :
  call op args kwargs s = (r, s') ->
  let kw := snd (pop "string_options" (VStr "") kwargs) in
  forall x,
    dom (refs_of (heap s) x) ⊆ dom (refs_of (heap s') x) /\
    dom (refs_of (heap s') x) ⊆
      dom (refs_of (heap s) x) ∪ input_references (heap s) args kw.
Proof.
  intros H. cbv zeta. intros x.
  apply call_run in H
    as [(e & -> & _ & _ & _ & Hh) |
        (intro & new & names & xs & _ & _ & _ & _ & Hh & _)].
  - rewrite Hh. set_solver.
  - rewrite Hh, dom_refs_of_attach, dom_collect, dom_empty_L.
    unfold input_references.
    destruct (decide (x ∈ xs)); set_solver.
Qed.

(** X7: a call that ends with an error of the module or of Python, that
    is with anything but an exception of the code outside the module,
    has attached no reference: every image has the references it had. *)
Theorem call_own_errors_attach_nothing op args kwargs s e s' :
  call op args kwargs s = (Raise e, s') ->
  ~ is_Foreign e ->
  heap s' = heap s.
Proof.
  intros H He.
  apply call_run in H
    as [(e' & _ & _ & _ & _ & Hh) |
        (intro & new & names & xs & _ & _ & _ & _ & Hh & Hr)].
  - done.
  - destruct Hr as (_ & _ & [-> | Hf]); [ done | by destruct He ].
Qed.

(** ** The descriptor cache *)

(** X8: [Introspect.get] builds the descriptor of a name once: after a
    [get] that returns, the descriptor is in the cache under that name
    and the next [get] returns it without a change of state; a [get]
    changes no other entry, and nothing but the cache; a descriptor
    that is in the cache is returned as it is; and a [get] that fails
    stores nothing, so that the next one builds again. *)
Theorem Introspect_get_memoizes op s r s1 :
  Introspect_get op s = (r, s1) ->
  heap s1 = heap s /\ log s1 = log s /\ calls s1 = calls s /\
  world s1 = world s /\
  (forall o, o <> op ->
     _introspect_cache s1 !! o = _introspect_cache s !! o) /\
  match r with
  | Ok intro =>
      _introspect_cache s1 !! op = Some intro /\
      Introspect_get op s1 = (Ok intro, s1) /\
      match _introspect_cache s !! op with
      | Some cached => intro = cached /\ s1 = s
      | None => Introspect_init op = Ok intro
      end
  | Raise e =>
      s1 = s /\ _introspect_cache s !! op = None /\
      Introspect_init op = Raise e
  end.
Proof.
  unfold Introspect_get.
  destruct (_introspect_cache s !! op) as [cached | ] eqn:Hc.
  - intros H. inversion H; subst r s1; clear H.
    do 5 (split; [ done | ]). by rewrite Hc.
  - destruct (Introspect_init op) as [intro | e] eqn:Hinit; intros H;
      inversion H; subst r s1; clear H; simpl.
    + do 4 (split; [ done | ]).
      split; [ intros o Ho; by rewrite lookup_insert_ne | ].
      by rewrite lookup_insert_eq.
    + done.
Qed.

(** X9: with a libvips older than 8.7, a call of an operation that
    exists and whose descriptor is not in the cache ends with Python's
    [AttributeError], for any arguments, and nothing has happened: the
    constructor of the descriptor reads an attribute it does not have. *)
Theorem call_on_old_libvips op args kwargs s :
  at_least_libvips_8_7 vips_lib = false ->
  vips_operation_new vips_lib op = true ->
  _introspect_cache s !! op = None ->
  Introspect_init op = Raise AttributeError /\
  call op args kwargs s = (Raise AttributeError, s).
Proof.
  intros Hold Hnew Hc.
  assert (Hinit : Introspect_init op = Raise AttributeError).
  { unfold Introspect_init. by rewrite Hnew, Hold. }
  split; [ exact Hinit | ].
  rewrite call_unfold.
  unfold bind at 1. unfold Operation_new_from_name. rewrite Hnew.
  cbn [negb]. unfold pure at 1.
  unfold bind at 1. unfold Introspect_get. by rewrite Hc, Hinit.
Qed.

(** ** Errors about named arguments *)

Lemma in_list_false n names : in_list n names = false <-> n ∉ names.
Proof.
  unfold in_list. induction names as [ | x names IH ]; simpl.
  - split; [ intros _; apply not_elem_of_nil | done ].
  - rewrite not_elem_of_cons, <- IH.
    destruct (String.eqb_spec n x) as [-> | Hne]; simpl.
    + split; [ discriminate | by intros [? _] ].
    + split; [ done | by intros [_ ?] ].
Qed.

Lemma not_about_names_marshalling : marshalling_exn not_about_names.
Proof. by repeat split. Qed.

Lemma set_required_inputs_known op intro m pairs references :
  (forall n, n ∈ map fst pairs -> is_Some (details intro !! n)) ->
  raises_only not_about_names
    (set_required_inputs op intro m pairs references).
Proof.
  revert references.
  induction pairs as [ | [n v] pairs IH ]; intros references Hin; simpl.
  - apply raises_only_pure.
  - apply raises_only_bind; [ apply raises_only_get_heap | intros h ].
    destruct (Hin n) as [d ->]; [ by left | ].
    apply raises_only_bind.
    + apply raises_only_Operation_set, not_about_names_marshalling.
    + intros _. apply IH. intros n' Hn'. apply Hin. by right.
Qed.

Lemma set_kwargs_raises op intro m kw references s e s' :
  set_kwargs op intro m kw references s = (Raise e, s') ->
  match e with
  | KeyError k => k ∈ map fst kw /\ details intro !! k = None
  | Error_does_not_support o k =>
      o = op /\ k ∈ map fst kw /\ is_Some (details intro !! k) /\
      (k ∉ optional_input intro) /\ (k ∉ optional_output intro)
  | _ => True
  end.
Proof.
  revert references s.
  induction kw as [ | [n v] kw IH ]; intros references s H; simpl in H.
  - discriminate H.
  - destruct (details intro !! n) as [d | ] eqn:Hd.
    2:{ inversion H; subst. split; [ by left | done ]. }
    destruct (in_list n (optional_input intro)) eqn:Hoi;
      destruct (in_list n (optional_output intro)) eqn:Hoo;
      cbn [negb andb] in H.
    4:{ inversion H; subst. apply in_list_false in Hoi, Hoo.
        split; [ done | ]. split; [ by left | ].
        split; [ rewrite Hd; by eexists | done ]. }
    all: apply bind_inv in H as [([] & s1 & _ & H) | (e' & Hlog & _)];
      [ | destruct (flag_set (d_flags d) _DEPRECATED); discriminate Hlog ].
    all: rewrite (bind_Ok get_heap _ s1 (heap s1) s1 eq_refl) in H.
    all: apply bind_inv in H as [([] & s2 & _ & H) | (e' & Hset & He)].
    all: try (apply IH in H; destruct e; try done;
              [ destruct H as (-> & Hk & H); split; [ done | ];
                split; [ by right | done ]
              | destruct H as [Hk H]; split; [ by right | done ] ]).
    all: inversion He; subst e'; clear He.
    all: pose proof (raises_only_Operation_set not_about_names _ _ _ _ _
                       not_about_names_marshalling _ _ _ Hset) as Hq.
    all: by destruct e.
Qed.

(** X10: for a descriptor the engine gave, when a call ends with a
    [KeyError] its key is a named argument of the call that is no
    argument of the operation; when it ends with the error that the
    operation does not support an optional argument, that argument is a
    named argument of the call and an argument of the operation, but
    neither an optional input nor an optional output. *)
Theorem call_errors_about_named_arguments op args kwargs s e s' intro :
  Introspect_init op = Ok intro ->
  _introspect_cache s !! op = None \/ _introspect_cache s !! op = Some intro ->
  call op args kwargs s = (Raise e, s') ->
  let kw := snd (pop "string_options" (VStr "") kwargs) in
  match e with
  | KeyError k => k ∈ map fst kw /\ k ∉ map fst (arguments intro)
  | Error_does_not_support o k =>
      o = op /\ k ∈ map fst kw /\ k ∈ map fst (arguments intro) /\
      (k ∉ optional_input intro) /\ (k ∉ optional_output intro)
  | _ => True
  end.
Proof.
  intros Hinit Hcache H. cbv zeta.
  apply call_inv in H as [(_ & He & _) | (_ & [(e' & Hget & He & _) | H])].
  { by inversion He. }
  { inversion He; subst e'; clear He.
    unfold Introspect_get in Hget. rewrite Hinit in Hget.
    destruct (_introspect_cache s !! op); discriminate Hget. }
  destruct H as (intro' & s1 & Hget & H).
  pose proof (Introspect_get_cached _ _ _ _ _ Hinit Hcache Hget) as ->.
  destruct H as [(_ & He & _) | (Hlen & H)]; [ by inversion He | ].
  apply call_body_inv in H as (o & w1 & _ & H). cbv zeta in H.
  destruct o as [[ | ] | message]; [ | by destruct H as [[= ->] _] .. ].
  destruct H as (r2 & s2 & H2 & H). destruct r2 as [refs1 | e2].
  2:{ destruct H as [[= <-] _].
      apply set_required_inputs_known in H2; [ by destruct e | ].
      intros n Hn. rewrite map_fst_combine in Hn by done.
      apply (Introspect_init_details_keys op); [ done | ].
      apply (Introspect_init_lists op); [ done | ].
      apply elem_of_app. by left. }
  destruct H as (r3 & s3 & H3 & H). destruct r3 as [refs2 | e3].
  2:{ destruct H as [[= <-] _]. apply set_kwargs_raises in H3.
      destruct e; try done.
      - destruct H3 as (-> & Hk & Hd & Hoi & Hoo).
        do 2 (split; [ done | ]). split; [ | done ].
        by apply (Introspect_init_details_keys op).
      - destruct H3 as [Hk Hd]. split; [ done | ].
        intros Hin. apply (Introspect_init_details_keys op) in Hin; [ | done ].
        rewrite Hd in Hin. by destruct Hin. }
  destruct H as (b & w4 & _ & H). destruct b.
  2:{ by destruct H as [[= ->] _]. }
  apply call_outputs_run in H as (_ & _ & new & _ & Hf & _).
  by destruct e.
Qed.


(** ** The documentation generators *)

Lemma append_cons x (a b : string) : String x a +:+ b = String x (a +:+ b).
Proof. reflexivity. Qed.

Lemma append_assoc (a b c : string) : (a +:+ b) +:+ c = a +:+ b +:+ c.
Proof.
  induction a as [ | x a IH ]; [ reflexivity | ].
  by rewrite !append_cons, IH.
Qed.

Lemma append_nil_r (a : string) : a +:+ EmptyString = a.
Proof.
  induction a as [ | x a IH ]; [ reflexivity | ].
  by rewrite append_cons, IH.
Qed.

Lemma prefix_append (a b : string) : String.prefix a (a +:+ b) = true.
Proof.
  induction a as [ | x a IH ]; [ by destruct b | ].
  rewrite append_cons. simpl. destruct (ascii_dec x x); [ exact IH | done ].
Qed.

Lemma details_of_known intro n :
  is_Some (details intro !! n) ->
  exists d, details intro !! n = Some d /\ details_of intro n = Returns d.
Proof. intros [d Hd]. exists d. unfold details_of. by rewrite Hd. Qed.

(** [member_x] is the first required input with the image type, when
    every name it looks up has an entry. *)
Lemma find_member_x_first intro names :
  (forall n, n ∈ names -> is_Some (details intro !! n)) ->
  find_member_x intro names = Returns (first_image_input intro names).
Proof.
  unfold first_image_input.
  induction names as [ | n names IH ]; intros Hin; simpl; [ done | ].
  destruct (details_of_known intro n) as (d & Hd & ->); [ apply Hin; by left | ].
  simpl. rewrite Hd. destruct (d_type d =? image_type vips_lib); [ done | ].
  apply IH. intros n' Hn'. apply Hin. by right.
Qed.

Lemma first_image_input_elem intro names x :
  first_image_input intro names = Some x -> x ∈ names.
Proof.
  unfold first_image_input. intros H.
  apply head_Some_elem_of, list_elem_of_In, filter_In in H as [H _].
  by apply list_elem_of_In.
Qed.

Lemma for_each_total {A B : Type} (f : A -> doc_result B) (l : list A) :
  (forall x, x ∈ l -> exists y, f x = Returns y) ->
  exists ys, for_each f l = Returns ys /\ Forall2 (fun x y => f x = Returns y) l ys.
Proof.
  induction l as [ | x l IH ]; intros Hin; simpl.
  - exists []. split; [ done | constructor ].
  - destruct (Hin x) as [y Hy]; [ by left | ].
    destruct IH as (ys & Hys & HF); [ intros x' Hx'; apply Hin; by right | ].
    exists (y :: ys). rewrite Hy, Hys. split; [ done | by constructor ].
Qed.

Lemma add_lines_total line names result :
  (forall n, n ∈ names -> exists l, line n = Returns l) ->
  exists lines,
    add_lines line names result = Returns (result +:+ joined lines) /\
    Forall2 (fun n l => line n = Returns l) names lines.
Proof.
  revert result. induction names as [ | n names IH ]; intros result Hin; simpl.
  - exists []. simpl. rewrite append_nil_r. split; [ done | constructor ].
  - destruct (Hin n) as [l Hl]; [ by left | ].
    destruct (IH (result +:+ l)) as (lines & Hlines & HF);
      [ intros n' Hn'; apply Hin; by right | ].
    exists (l :: lines). rewrite Hl. simpl. rewrite Hlines, append_assoc.
    split; [ done | by constructor ].
Qed.

Lemma add_lines_Returns line names result text :
  add_lines line names result = Returns text ->
  exists lines,
    text = result +:+ joined lines /\
    Forall2 (fun n l => line n = Returns l) names lines.
Proof.
  revert result. induction names as [ | n names IH ]; intros result H;
    simpl in H.
  - inversion H; subst. exists []. simpl. rewrite append_nil_r.
    split; [ done | constructor ].
  - destruct (line n) as [l | e] eqn:Hl; [ | discriminate H ]. simpl in H.
    apply IH in H as (lines & -> & HF). exists (l :: lines). simpl.
    rewrite append_assoc. split; [ done | by constructor ].
Qed.

Section lines_of_covered.
Context (py : python_strings) (intro : Introspect).
Hypothesis Hcov : covered intro.

Lemma covered_required_input n :
  n ∈ required_input intro -> is_Some (details intro !! n).
Proof. intros H. apply Hcov. apply elem_of_app. by left. Qed.

Lemma covered_optional_input n :
  n ∈ optional_input intro -> is_Some (details intro !! n).
Proof.
  intros H. apply Hcov. apply elem_of_app. right. apply elem_of_app. by left.
Qed.

Lemma covered_required_output n :
  n ∈ required_output intro -> is_Some (details intro !! n).
Proof.
  intros H. apply Hcov. do 2 (apply elem_of_app; right).
  apply elem_of_app. by left.
Qed.

Lemma covered_optional_output n :
  n ∈ optional_output intro -> is_Some (details intro !! n).
Proof. intros H. apply Hcov. by do 3 (apply elem_of_app; right). Qed.

Lemma argstr_total n :
  is_Some (details intro !! n) -> exists l, argstr py intro n = Returns l.
Proof.
  intros H. destruct (details_of_known intro n H) as (d & _ & Hd).
  unfold argstr. rewrite Hd. by eexists.
Qed.

Lemma with_default_total n :
  is_Some (details intro !! n) ->
  exists l, with_default py intro n = Returns l.
Proof.
  intros H. destruct (details_of_known intro n H) as (d & _ & Hd).
  unfold with_default. rewrite Hd. by eexists.
Qed.

Lemma param_line_total n :
  is_Some (details intro !! n) -> exists l, param_line py intro n = Returns l.
Proof.
  intros H. destruct (details_of_known intro n H) as (d & _ & Hd).
  unfold param_line. rewrite Hd. by eexists.
Qed.

Lemma enable_line_total n :
  is_Some (details intro !! n) -> exists l, enable_line intro n = Returns l.
Proof.
  intros H. destruct (details_of_known intro n H) as (d & _ & Hd).
  unfold enable_line. rewrite Hd. by eexists.
Qed.

Lemma python_type_total n :
  is_Some (details intro !! n) -> exists l, python_type py intro n = Returns l.
Proof.
  intros H. destruct (details_of_known intro n H) as (d & _ & Hd).
  unfold python_type. rewrite Hd. by eexists.
Qed.

Lemma example_call_total operation_name member_x result :
  exists text,
    example_call py operation_name intro member_x result = Returns text.
Proof.
  unfold example_call. cbv zeta.
  destruct (for_each_total (with_default py intro) (optional_input intro))
    as (defaults & -> & _).
  { intros x Hx. by apply with_default_total, covered_optional_input. }
  simpl. by eexists.
Qed.

(** On a covered descriptor [generate_docstring] builds a text exactly
    when the description is not empty. *)
Lemma docstring_outcome operation_name :
  match docstring py operation_name intro with
  | Returns _ => description intro <> EmptyString
  | Throws e => e = IndexError /\ description intro = EmptyString
  end.
Proof.
  unfold docstring.
  rewrite find_member_x_first by apply covered_required_input. simpl.
  destruct (description intro) as [ | c rest ] eqn:Hdesc; [ done | ].
  simpl.
  destruct (example_call_total operation_name
              (first_image_input intro (required_input intro))
              ((((upper py c +:+ rest) +:+ "." +:+ nl +:+ nl) +:+
                "Example:" +:+ nl) +:+ "   " +:+
               String.concat ", " (required_output intro) +:+ " = "))
    as (t1 & ->).
  simpl.
  destruct (add_lines_total (argstr py intro) (required_output intro)
              ((t1 +:+ nl) +:+ nl +:+ "Returns:" +:+ nl)) as (l2 & -> & _).
  { intros n Hn. by apply argstr_total, covered_required_output. }
  simpl.
  match goal with
  | |- context [ add_lines (argstr py intro) ?names ?r ] =>
      destruct (add_lines_total (argstr py intro) names r) as (l3 & -> & _)
  end.
  { intros n Hn. apply argstr_total.
    apply elem_of_app in Hn as [Hn | Hn];
      [ | by apply covered_required_input ].
    destruct (first_image_input intro (required_input intro)) as [x | ] eqn:Hx;
      [ | by apply elem_of_nil in Hn ].
    apply list_elem_of_singleton in Hn as ->.
    apply covered_required_input. by apply (first_image_input_elem intro). }
  simpl.
  destruct (0 <? length (optional_input intro))%nat.
  - match goal with
    | |- context [ add_lines (argstr py intro) ?names ?r ] =>
        destruct (add_lines_total (argstr py intro) names r) as (l4 & -> & _)
    end.
    { intros n Hn. by apply argstr_total, covered_optional_input. }
    simpl. destruct (0 <? length (optional_output intro))%nat; [ | done ].
    match goal with
    | |- context [ add_lines (argstr py intro) ?names ?r ] =>
        destruct (add_lines_total (argstr py intro) names r) as (l5 & -> & _)
    end.
    { intros n Hn. by apply argstr_total, covered_optional_output. }
    done.
  - simpl. destruct (0 <? length (optional_output intro))%nat; [ | done ].
    match goal with
    | |- context [ add_lines (argstr py intro) ?names ?r ] =>
        destruct (add_lines_total (argstr py intro) names r) as (l5 & -> & _)
    end.
    { intros n Hn. by apply argstr_total, covered_optional_output. }
    done.
Qed.

(** On a covered descriptor [generate_sphinx] builds a text exactly
    when the description is not empty. *)
Lemma sphinx_outcome operation_name :
  match sphinx py operation_name intro with
  | Returns _ => description intro <> EmptyString
  | Throws e => e = IndexError /\ description intro = EmptyString
  end.
Proof.
  unfold sphinx.
  rewrite find_member_x_first by apply covered_required_input. simpl.
  destruct (for_each_total (with_default py intro) (optional_input intro))
    as (defaults & -> & _).
  { intros x Hx. by apply with_default_total, covered_optional_input. }
  simpl.
  destruct (description intro) as [ | c rest ] eqn:Hdesc; [ done | ].
  simpl.
  match goal with
  | |- context [ example_call py operation_name intro ?m ?r ] =>
      destruct (example_call_total operation_name m r) as (t1 & ->)
  end.
  simpl.
  match goal with
  | |- context [ add_lines (param_line py intro) ?names ?r ] =>
      destruct (add_lines_total (param_line py intro) names r)
        as (l2 & -> & _)
  end.
  { intros n Hn. apply param_line_total.
    apply elem_of_app in Hn as [Hn | Hn];
      [ by apply covered_required_input | by apply covered_optional_input ]. }
  simpl.
  match goal with
  | |- context [ add_lines (enable_line intro) ?names ?r ] =>
      destruct (add_lines_total (enable_line intro) names r)
        as (l3 & -> & _)
  end.
  { intros n Hn. by apply enable_line_total, covered_optional_output. }
  simpl.
  destruct (for_each_total (python_type py intro) (required_output intro))
    as (types & -> & _).
  { intros x Hx. by apply python_type_total, covered_required_output. }
  done.
Qed.

End lines_of_covered.

Lemma Introspect_init_covered op intro :
  Introspect_init op = Ok intro -> covered intro.
Proof.
  intros H n Hn. apply (Introspect_init_details_keys op); [ done | ].
  by apply (Introspect_init_lists op).
Qed.

(** X12: [generate_docstring] builds the text of a name once: a text it
    returns is then in [_docstring_cache] under that name, and the next
    call returns it without a change of state; a text that is in the
    cache is returned as it is, whatever the operation has become; no
    other entry changes; and a call that fails stores no text. *)
Theorem generate_docstring_memoizes py op s r s' :
  generate_docstring py op s = (r, s') ->
  (forall o, o <> op ->
     _docstring_cache s' !! o = _docstring_cache s !! o) /\
  match r with
  | Returns text =>
      _docstring_cache s' !! op = Some text /\
      generate_docstring py op s' = (Returns text, s') /\
      match _docstring_cache s !! op with
      | Some cached => text = cached /\ s' = s
      | None =>
          exists intro p,
            Introspect_get op (python s) = (Ok intro, p) /\
            flag_set (flags intro) _OPERATION_DEPRECATED = false /\
            docstring py op intro = Returns text /\
            python s' = p
      end
  | Throws e =>
      _docstring_cache s' = _docstring_cache s /\
      _docstring_cache s !! op = None
  end.
Proof.
  unfold generate_docstring.
  destruct (_docstring_cache s !! op) as [cached | ] eqn:Hc.
  - intros H. inversion H; subst r s'; clear H. split; [ done | ].
    by rewrite Hc.
  - destruct (Introspect_get op (python s)) as [[intro | e] p] eqn:Hget.
    2:{ intros H. inversion H; subst r s'; clear H. done. }
    destruct (flag_set (flags intro) _OPERATION_DEPRECATED) eqn:Hdep.
    { intros H. inversion H; subst r s'; clear H. done. }
    destruct (docstring py op intro) as [text | e] eqn:Hdoc.
    2:{ intros H. inversion H; subst r s'; clear H. done. }
    intros H. inversion H; subst r s'; clear H. simpl.
    split; [ intros o Ho; by rewrite lookup_insert_ne | ].
    rewrite lookup_insert_eq. split; [ done | ]. split; [ done | ].
    by exists intro, p.
Qed.

(** X13: for an operation whose descriptor the engine gives and whose
    text is not in the cache, [generate_docstring] ends in one of three
    ways: with the error that the operator is deprecated when the
    operation is flagged so, with Python's [IndexError] when it is not
    and its description is empty, and with a text otherwise; no look-up
    of a name in the descriptor fails. *)
Theorem generate_docstring_outcome py op intro s :
  Introspect_init op = Ok intro ->
  _introspect_cache (python s) !! op = None \/
  _introspect_cache (python s) !! op = Some intro ->
  _docstring_cache s !! op = None ->
  match fst (generate_docstring py op s) with
  | Returns text =>
      flag_set (flags intro) _OPERATION_DEPRECATED = false /\
      description intro <> EmptyString /\
      docstring py op intro = Returns text
  | Throws e =>
      if flag_set (flags intro) _OPERATION_DEPRECATED
      then e = Error_deprecated op
      else e = IndexError /\ description intro = EmptyString
  end.
Proof.
  intros Hinit Hcache Hc. unfold generate_docstring. rewrite Hc.
  destruct (Introspect_get op (python s)) as [[intro' | e] p] eqn:Hget.
  2:{ unfold Introspect_get in Hget. rewrite Hinit in Hget.
      destruct (_introspect_cache (python s) !! op); discriminate Hget. }
  pose proof (Introspect_get_cached _ _ _ _ _ Hinit Hcache Hget) as ->.
  destruct (flag_set (flags intro) _OPERATION_DEPRECATED); [ done | ].
  pose proof (docstring_outcome py intro (Introspect_init_covered _ _ Hinit) op)
    as Hout.
  destruct (docstring py op intro) as [text | e]; simpl; [ | done ].
  by repeat split.
Qed.

(** X14: [generate_sphinx] on an operation whose descriptor the engine
    gives ends in the same three ways, and changes nothing but the
    cache of descriptors. *)
Theorem generate_sphinx_outcome py op intro s :
  Introspect_init op = Ok intro ->
  _introspect_cache s !! op = None \/ _introspect_cache s !! op = Some intro ->
  snd (generate_sphinx py op s) = snd (Introspect_get op s) /\
  match fst (generate_sphinx py op s) with
  | Returns text =>
      flag_set (flags intro) _OPERATION_DEPRECATED = false /\
      description intro <> EmptyString /\
      sphinx py op intro = Returns text
  | Throws e =>
      if flag_set (flags intro) _OPERATION_DEPRECATED
      then e = Error_deprecated op
      else e = IndexError /\ description intro = EmptyString
  end.
Proof.
  intros Hinit Hcache. unfold generate_sphinx.
  destruct (Introspect_get op s) as [[intro' | e] p] eqn:Hget.
  2:{ unfold Introspect_get in Hget. rewrite Hinit in Hget.
      destruct (_introspect_cache s !! op); discriminate Hget. }
  pose proof (Introspect_get_cached _ _ _ _ _ Hinit Hcache Hget) as ->.
  split; [ done | ]. simpl.
  destruct (flag_set (flags intro) _OPERATION_DEPRECATED); [ done | ].
  pose proof (sphinx_outcome py intro (Introspect_init_covered _ _ Hinit) op)
    as Hout.
  destruct (sphinx py op intro) as [text | e]; [ | done ].
  by repeat split.
Qed.

Lemma for_each_Returns {A B : Type} (f : A -> doc_result B) l ys :
  for_each f l = Returns ys -> Forall2 (fun x y => f x = Returns y) l ys.
Proof.
  revert ys. induction l as [ | x l IH ]; intros ys H; simpl in H.
  - inversion H. constructor.
  - destruct (f x) as [y | e] eqn:Hy; [ | discriminate H ].
    cbn [and_then] in H.
    destruct (for_each f l) as [ys' | e]; [ | discriminate H ].
    cbn [and_then] in H. inversion H; subst. constructor; [ done | by apply IH ].
Qed.

Lemma Forall2_map_eq {A B : Type} (g : A -> B) (P : A -> B -> Prop) l ys :
  (forall x y, x ∈ l -> P x y -> y = g x) ->
  Forall2 P l ys -> ys = map g l.
Proof.
  intros HP HF. induction HF as [ | x y l ys Hxy _ IH ]; [ done | ].
  simpl. f_equal.
  - apply HP; [ by left | done ].
  - apply IH. intros x' y' Hx'. apply HP. by right.
Qed.

Lemma example_call_Returns py operation_name intro member_x result t :
  example_call py operation_name intro member_x result = Returns t ->
  exists tail, t = result +:+ tail.
Proof.
  unfold example_call. cbv zeta.
  destruct (for_each (with_default py intro) (optional_input intro))
    as [defaults | e]; [ | discriminate ].
  cbn [and_then]. intros H. inversion H; subst t; clear H.
  destruct ((0 <? length (optional_input intro))%nat &&
            (0 <? length (required_input intro))%nat);
    destruct member_x as [x | ]; eexists; rewrite !append_assoc; reflexivity.
Qed.

Lemma add_section_Returns line (b : bool) names title result t :
  (if b then add_lines line names (result +:+ title) else Returns result) =
    Returns t ->
  exists tail, t = result +:+ tail.
Proof.
  destruct b; intros H.
  - apply add_lines_Returns in H as (lines & -> & _).
    eexists. rewrite append_assoc. reflexivity.
  - inversion H; subst. exists EmptyString. by rewrite append_nil_r.
Qed.

Lemma head_filter_existsb {A : Type} (f : A -> bool) (l : list A) :
  match head (List.filter f l) with
  | Some x => existsb f l = true /\ x ∈ l
  | None => existsb f l = false
  end.
Proof.
  induction l as [ | a l IH ]; simpl; [ done | ].
  destruct (f a) eqn:Hfa; simpl.
  - split; [ done | by left ].
  - destruct (head (List.filter f l)); [ | done ].
    destruct IH as [IH1 IH2]. split; [ done | by right ].
Qed.

(** On a descriptor the engine gave, [member_x] is the first required
    input whose type, for the engine, is the image type. *)
Lemma first_image_input_engine op intro :
  Introspect_init op = Ok intro ->
  first_image_input intro (required_input intro) =
    head (List.filter
            (fun n => get_typeof vips_lib op n =? image_type vips_lib)
            (required_input intro)).
Proof.
  intros Hinit. unfold first_image_input. f_equal.
  apply filter_ext_in. intros n Hn. apply list_elem_of_In in Hn.
  destruct (details intro !! n) as [d | ] eqn:Hd.
  - apply (Introspect_init_details_entry op) in Hd as (_ & _ & _ & ->);
      done.
  - assert (Hs : is_Some (details intro !! n)).
    { apply (Introspect_init_covered op); [ done | ].
      apply elem_of_app. by left. }
    rewrite Hd in Hs. by destruct Hs.
Qed.

Lemma generate_sphinx_Returns py op intro s text :
  Introspect_init op = Ok intro ->
  _introspect_cache s !! op = None \/ _introspect_cache s !! op = Some intro ->
  fst (generate_sphinx py op s) = Returns text ->
  sphinx py op intro = Returns text.
Proof.
  intros Hinit Hcache. unfold generate_sphinx.
  destruct (Introspect_get op s) as [[intro' | e] p] eqn:Hget;
    [ | discriminate ].
  pose proof (Introspect_get_cached _ _ _ _ _ Hinit Hcache Hget) as ->.
  simpl. by destruct (flag_set (flags intro) _OPERATION_DEPRECATED).
Qed.

Lemma generate_docstring_Returns py op intro s text :
  Introspect_init op = Ok intro ->
  _introspect_cache (python s) !! op = None \/
  _introspect_cache (python s) !! op = Some intro ->
  _docstring_cache s !! op = None ->
  fst (generate_docstring py op s) = Returns text ->
  docstring py op intro = Returns text.
Proof.
  intros Hinit Hcache Hc. unfold generate_docstring. rewrite Hc.
  destruct (Introspect_get op (python s)) as [[intro' | e] p] eqn:Hget;
    [ | discriminate ].
  pose proof (Introspect_get_cached _ _ _ _ _ Hinit Hcache Hget) as ->.
  destruct (flag_set (flags intro) _OPERATION_DEPRECATED); [ discriminate | ].
  destruct (docstring py op intro) as [text' | e]; [ | discriminate ].
  simpl. congruence.
Qed.

(** X15: the text [generate_sphinx] returns starts with the signature
    of the operation: [.. method::] when one of its required inputs is
    an image for the engine and [.. staticmethod::] when none is, then
    the name of the operation and, between brackets and separated by
    commas, the required inputs, the optional inputs with the Python
    type of each, and the optional outputs, each as [name = bool]. *)
Theorem generate_sphinx_signature py op intro s text :
  Introspect_init op = Ok intro ->
  _introspect_cache s !! op = None \/ _introspect_cache s !! op = Some intro ->
  fst (generate_sphinx py op s) = Returns text ->
  String.prefix
    ((if existsb (fun n => get_typeof vips_lib op n =? image_type vips_lib)
           (required_input intro)
      then ".. method:: " else ".. staticmethod:: ") +:+
     op +:+ "(" +:+
     String.concat ", "
       (required_input intro ++
        map (fun x =>
               x +:+ " = " +:+ gtype_to_python py (get_typeof vips_lib op x))
          (optional_input intro) ++
        map (fun x => x +:+ " = bool") (optional_output intro)) +:+
     ")" +:+ nl +:+ nl)
    text = true.
Proof.
  intros Hinit Hcache H.
  apply (generate_sphinx_Returns py op intro) in H; [ | done | done ].
  pose proof (Introspect_init_covered _ _ Hinit) as Hcov.
  unfold sphinx in H.
  rewrite find_member_x_first in H by (by apply covered_required_input).
  rewrite (first_image_input_engine op) in H by done.
  cbn [and_then] in H.
  pose proof (head_filter_existsb
                (fun n => get_typeof vips_lib op n =? image_type vips_lib)
                (required_input intro)) as Hhead.
  destruct (for_each (with_default py intro) (optional_input intro))
    as [defaults | e] eqn:Hdef; [ | discriminate H ].
  cbn [and_then] in H. cbv zeta in H.
  apply for_each_Returns in Hdef.
  apply (Forall2_map_eq
           (fun x => x +:+ " = " +:+
                     gtype_to_python py (get_typeof vips_lib op x))) in Hdef.
  2:{ intros x y Hx Hy. unfold with_default, details_of in Hy.
      destruct (details intro !! x) as [d | ] eqn:Hd; [ | discriminate Hy ].
      cbn [and_then] in Hy. inversion Hy; subst y.
      by apply (Introspect_init_details_entry op) in Hd as (_ & _ & _ & ->). }
  subst defaults.
  destruct (capitalised py (description intro)) as [first | e];
    [ | discriminate H ].
  cbn [and_then] in H.
  match type of H with
  | context [ example_call ?a ?b ?c ?d ?r ] =>
      destruct (example_call a b c d r) as [t1 | e] eqn:E1;
        [ | discriminate H ]
  end.
  cbn [and_then] in H. apply example_call_Returns in E1 as (tail1 & ->).
  match type of H with
  | context [ add_lines (param_line py intro) ?names ?r ] =>
      destruct (add_lines (param_line py intro) names r) as [t2 | e] eqn:E2;
        [ | discriminate H ]
  end.
  cbn [and_then] in H. apply add_lines_Returns in E2 as (lines2 & -> & _).
  match type of H with
  | context [ add_lines (enable_line intro) ?names ?r ] =>
      destruct (add_lines (enable_line intro) names r) as [t3 | e] eqn:E3;
        [ | discriminate H ]
  end.
  cbn [and_then] in H. apply add_lines_Returns in E3 as (lines3 & -> & _).
  destruct (for_each (python_type py intro) (required_output intro))
    as [types | e]; [ | discriminate H ].
  cbn [and_then] in H. injection H as <-.
  assert (Hheader :
            (if existsb
                  (fun n => get_typeof vips_lib op n =? image_type vips_lib)
                  (required_input intro)
             then ".. method:: " else ".. staticmethod:: ") =
            match head (List.filter
                          (fun n => get_typeof vips_lib op n =?
                                    image_type vips_lib)
                          (required_input intro)) with
            | Some _ => ".. method:: "
            | None => ".. staticmethod:: "
            end).
  { destruct (head _) as [x | ];
      [ by destruct Hhead as [-> _] | by rewrite Hhead ]. }
  rewrite Hheader. clear Hheader Hhead.
  match goal with
  | |- String.prefix ?P ?T = true =>
      enough (Hrest : exists rest, T = P +:+ rest)
        by (destruct Hrest as [rest ->]; apply prefix_append)
  end.
  eexists. rewrite !append_assoc. reflexivity.
Qed.

(** X16: in the text [generate_docstring] builds, the section [Args:]
    has one line for the argument that stands for [self], the first
    required input that is an image for the engine, when there is one,
    and then one line for each required input, that argument among
    them again; a line gives the name, the Python type of the engine's
    type and the engine's blurb. *)
Theorem generate_docstring_arguments py op intro s text :
  Introspect_init op = Ok intro ->
  _introspect_cache (python s) !! op = None \/
  _introspect_cache (python s) !! op = Some intro ->
  _docstring_cache s !! op = None ->
  fst (generate_docstring py op s) = Returns text ->
  let self :=
    head (List.filter
            (fun n => get_typeof vips_lib op n =? image_type vips_lib)
            (required_input intro)) in
  let line n :=
    "    " +:+ n +:+ " (" +:+
    gtype_to_python py (get_typeof vips_lib op n) +:+ "): " +:+
    get_blurb vips_lib op n +:+ nl in
  (forall x, self = Some x -> x ∈ required_input intro) /\
  exists before after,
    text =
      before +:+ nl +:+ "Args:" +:+ nl +:+
      joined (map line
                (match self with Some x => [x] | None => [] end ++
                 required_input intro)) +:+
      after.
Proof.
  intros Hinit Hcache Hc H. cbv zeta.
  apply (generate_docstring_Returns py op intro) in H; [ | done .. ].
  pose proof (Introspect_init_covered _ _ Hinit) as Hcov.
  pose proof (head_filter_existsb
                (fun n => get_typeof vips_lib op n =? image_type vips_lib)
                (required_input intro)) as Hhead.
  split.
  { intros x Hx. rewrite Hx in Hhead. by destruct Hhead. }
  unfold docstring in H.
  rewrite find_member_x_first in H by (by apply covered_required_input).
  rewrite (first_image_input_engine op) in H by done.
  cbn [and_then] in H.
  destruct (capitalised py (description intro)) as [first | e];
    [ | discriminate H ].
  cbn [and_then] in H. cbv zeta in H.
  match type of H with
  | context [ example_call ?a ?b ?c ?d ?r ] =>
      destruct (example_call a b c d r) as [t1 | e] eqn:E1;
        [ | discriminate H ]
  end.
  cbn [and_then] in H.
  match type of H with
  | context [ add_lines (argstr py intro) (required_output intro) ?r ] =>
      destruct (add_lines (argstr py intro) (required_output intro) r)
        as [t2 | e] eqn:E2; [ | discriminate H ]
  end.
  cbn [and_then] in H.
  match type of H with
  | context [ add_lines (argstr py intro) (?m ++ required_input intro) ?r ] =>
      destruct (add_lines (argstr py intro) (m ++ required_input intro) r)
        as [t3 | e] eqn:E3; [ | discriminate H ]
  end.
  cbn [and_then] in H.
  apply add_lines_Returns in E3 as (lines3 & -> & HF3).
  match type of H with
  | context [ if ?b then add_lines ?l ?names (?r +:+ ?title)
              else Returns ?r ] =>
      destruct (if b then add_lines l names (r +:+ title) else Returns r)
        as [t4 | e] eqn:E4; [ | discriminate H ]
  end.
  cbn [and_then] in H. apply add_section_Returns in E4 as (tail4 & ->).
  match type of H with
  | context [ if ?b then add_lines ?l ?names (?r +:+ ?title)
              else Returns ?r ] =>
      destruct (if b then add_lines l names (r +:+ title) else Returns r)
        as [t5 | e] eqn:E5; [ | discriminate H ]
  end.
  cbn [and_then] in H. apply add_section_Returns in E5 as (tail5 & ->).
  injection H as <-.
  apply (Forall2_map_eq
           (fun n =>
              "    " +:+ n +:+ " (" +:+
              gtype_to_python py (get_typeof vips_lib op n) +:+ "): " +:+
              get_blurb vips_lib op n +:+ nl)) in HF3.
  2:{ intros x y Hx Hy. unfold argstr, details_of in Hy.
      destruct (details intro !! x) as [d | ] eqn:Hd; [ | discriminate Hy ].
      cbn [and_then] in Hy. inversion Hy; subst y.
      by apply (Introspect_init_details_entry op) in Hd
        as (_ & _ & -> & ->). }
  subst lines3.
  exists t2. eexists. rewrite !append_assoc. reflexivity.
Qed.

End voperation.

(** * The model on the small engine *)

Lemma demo_new_kept c w :
  kept demo_pixels demo_held w (snd (demo_new c w)) /\
  ~ allocated demo_pixels w (fst (demo_new c w)).
Proof.
  split.
  - intros x Ha. unfold allocated, demo_pixels in *. simpl.
    destruct (x <? next w)%positive eqn:Hx; [ | done ].
    apply Pos.ltb_lt in Hx.
    assert (Hs : (x <? Pos.succ (next w))%positive = true)
      by (apply Pos.ltb_lt; lia).
    rewrite Hs, lookup_insert_ne by lia. by split.
  - unfold allocated, demo_pixels. simpl. rewrite Pos.ltb_irrefl.
    intros H. by apply H.
Qed.

Lemma kept_same {W P : Type} (pixels : W -> positive -> option P)
    (held : W -> positive -> Prop) w :
  kept pixels held w w.
Proof. intros x _. by split. Qed.

Lemma demo_modify_engine op n :
  demo_modify op n = true -> engine_modify demo op n.
Proof.
  unfold demo_modify, engine_modify. simpl.
  destruct (demo_args op) as [raw | ]; [ | discriminate ].
  intros H. apply existsb_exists in H as ([r f] & Hin & H).
  apply andb_true_iff in H as [H Hm]. apply andb_true_iff in H as [Hn Hc].
  apply String.eqb_eq in Hn. exists raw, r, f.
  repeat split; try done. by apply list_elem_of_In.
Qed.

Lemma demo_build_other (x : positive) (p : gmap positive Z) xs :
  x ∉ xs -> fold_right (fun i p => alter Z.succ i p) p xs !! x = p !! x.
Proof.
  induction xs as [ | y xs IH ]; simpl; intros Hx; [ done | ].
  apply not_elem_of_cons in Hx as [Hne Hx].
  rewrite lookup_alter_ne by done. by apply IH.
Qed.

(** The small engine keeps the contract for modify-in-place arguments. *)
Lemma demo_contract : engine_contract demo demo_pixels demo_held.
Proof.
  split; simpl.
  - intros op v w o w' H. inversion H; subst. apply kept_same.
  - intros m v w o w' H.
    destruct v; inversion H; subst; try apply kept_same;
      apply (demo_new_kept 0 w).
  - intros i w o w' H. inversion H; subst.
    apply (demo_new_kept (default 0 (pix w !! i)) w).
  - intros c w o w' H. inversion H; subst. split.
    + apply (demo_new_kept (default 0 (pix w !! c)) w).
    + intros m Hm. inversion Hm; subst.
      apply (demo_new_kept (default 0 (pix w !! c)) w).
  - intros op n v w o w' H x Ha. inversion H; subst; clear H.
    destruct (demo_modify op n) eqn:Hm; [ | by split; auto ].
    split; [ done | ]. unfold demo_held. simpl. intros Hx.
    apply elem_of_app in Hx as [Hx | Hx]; [ right | by left ].
    split; [ done | by apply demo_modify_engine ].
  - intros op w b w' H x Ha Hh. inversion H; subst; clear H.
    unfold allocated, demo_pixels, demo_held in *. simpl. split.
    + destruct (x <? next w)%positive; [ | done ].
      by apply demo_build_other.
    + intros Hx. by apply elem_of_nil in Hx.
  - intros op n w o w' H.
    destruct (demo_typeof op n =? 1); inversion H; subst; clear H.
    + split; [ apply (demo_new_kept 1 w) | ].
      intros v Hv x Hx. inversion Hv; subst. simpl in Hx.
      apply list_elem_of_singleton in Hx as ->. apply (demo_new_kept 1 w).
    + split; [ apply kept_same | ].
      intros v Hv x Hx. inversion Hv; subst. by apply elem_of_nil in Hx.
  - intros op w. apply kept_same.
Qed.

(** Two images with disjoint references, [1] keeping buffer [10] and [2]
    keeping buffer [20], are added: the new image [3] keeps both. *)
Lemma call_references_union_witness :
  dom (refs_of (heap (snd (call demo "add" [VImage 1; VImage 2] []
                             demo_state))) 3) =
    {[10%positive; 20%positive]}.
Proof.
  assert (Hrun : call demo "add" [VImage 1; VImage 2] [] demo_state =
                 (Ok (Return_item (Value (VImage 3))),
                  snd (call demo "add" [VImage 1; VImage 2] [] demo_state)))
    by (vm_compute; reflexivity).
  assert (Hfound : found_in (Return_item (Value (VImage 3))) 3).
  { exists (Value (VImage 3)). split; simpl; apply list_elem_of_singleton;
      reflexivity. }
  destruct (call_references_union demo "add" [VImage 1; VImage 2] []
              demo_state _ _ Hrun 3 Hfound) as [H _].
  rewrite H. vm_compute. reflexivity.
Defined.

(** [add] wants two positional arguments and gets one. *)
Lemma call_arity_mismatch_witness :
  fst (call demo "add" [VImage 1] [("string_options", VStr "bogus")]
         demo_state) =
    Raise (Error_needs_arguments "add" 2 1).
Proof.
  eassert (Hget : Introspect_get demo "add" demo_state = (Ok _, _))
    by (vm_compute; reflexivity).
  rewrite (call_arity_mismatch demo "add" [VImage 1]
             [("string_options", VStr "bogus")] demo_state _ _
             eq_refl Hget).
  - vm_compute. reflexivity.
  - vm_compute. lia.
Defined.

(** [add] is called with a malformed option string and one positional
    argument too few: the failure is the arity error, and the option
    string is not applied at all. *)
Lemma options_not_applied_before_arity_check :
  set_string demo "add" (VStr "bogus") (world demo_state) =
    (Done false, world demo_state) /\
  fst (call demo "add" [VImage 1] [("string_options", VStr "bogus")]
         demo_state) =
    Raise (Error_needs_arguments "add" 2 1) /\
  fst (call demo "add" [VImage 1] [("string_options", VStr "bogus")]
         demo_state) <>
    Raise (Error_unable_to_call "add") /\
  calls (snd (call demo "add" [VImage 1] [("string_options", VStr "bogus")]
                demo_state)) = [].
Proof.
  split; [ reflexivity | ].
  split; [ vm_compute; reflexivity | ].
  split; [ vm_compute; discriminate | vm_compute; reflexivity ].
Qed.

(** [add] with the right number of arguments and a malformed option
    string: the call ends with 'unable to call add', after the option
    string was applied and before any argument was set. *)
Lemma options_after_arity_before_arguments_witness :
  fst (call demo "add" [VImage 1; VImage 2]
         [("string_options", VStr "bogus")] demo_state) =
    Raise (Error_unable_to_call "add") /\
  calls (snd (call demo "add" [VImage 1; VImage 2]
                [("string_options", VStr "bogus")] demo_state)) =
    [Call_set_string "add" (VStr "bogus")].
Proof.
  eassert (Hget : Introspect_get demo "add" demo_state = (Ok _, _))
    by (vm_compute; reflexivity).
  destruct (options_after_arity_before_arguments demo "add"
              [VImage 1; VImage 2] [("string_options", VStr "bogus")]
              demo_state _ _ eq_refl Hget) as (_ & H & _).
  apply (H eq_refl (world demo_state)). reflexivity.
Defined.


(** [stats] called with [extra=False]: [extra] is in the dictionary of
    optional outputs all the same. *)
Lemma optional_outputs_opt_in_witness :
  is_Some (returned_named
             (Return_list [Value (VImage 3); Named {[ "extra" := VInt 0 ]}])
           !! "extra").
Proof.
  eassert (Hrun : call demo "stats" [VImage 1] [("extra", VBool false)]
                    demo_state =
                  (Ok (Return_list
                         [Value (VImage 3); Named {[ "extra" := VInt 0 ]}]),
                   _))
    by (vm_compute; reflexivity).
  destruct (optional_outputs_opt_in demo "stats" [VImage 1]
              [("extra", VBool false)] demo_state _ _ Hrun)
    as (intro & Hc & H & _).
  vm_compute in Hc. injection Hc as <-.
  apply H; [ | reflexivity ].
  apply list_elem_of_In. vm_compute. left. reflexivity.
Defined.


(** [draw_rect] modifies its required input [image], which is therefore
    a required output too; its other required input, [ink], is not. *)
Lemma Introspect_classification_witness :
  exists intro,
    Introspect_init demo "draw_rect" = Ok intro /\
    required_input intro = ["image"; "ink"] /\
    required_output intro = ["image"] /\
    ("image" ∈ required_input intro /\ "image" ∈ required_output intro) /\
    ~ ("ink" ∈ required_input intro /\ "ink" ∈ required_output intro).
Proof.
  eassert (Hinit : Introspect_init demo "draw_rect" = Ok _)
    by (vm_compute; reflexivity).
  eexists. split; [ exact Hinit | ].
  destruct (Introspect_classification demo "draw_rect" _ Hinit)
    as (Hri & _ & Hro & _ & Hpart).
  split; [ rewrite Hri; vm_compute; reflexivity | ].
  split; [ rewrite Hro; vm_compute; reflexivity | ].
  assert (Hnd : NoDup (map fst (arguments
            (match Introspect_init demo "draw_rect" with
             | Ok i => i
             | Raise _ => Build_Introspect "" "" 0 [] ∅ [] [] [] []
             end)))).
  { vm_compute. repeat constructor; intros H;
      repeat (apply elem_of_cons in H as [H | H]; [ discriminate H | ]);
      by apply elem_of_nil in H. }
  rewrite Hinit in Hnd.
  assert (Hdir : forall n f,
             (n, f) ∈ arguments
               (match Introspect_init demo "draw_rect" with
                | Ok i => i
                | Raise _ => Build_Introspect "" "" 0 [] ∅ [] [] [] []
                end) ->
             flag_set f _INPUT && flag_set f _OUTPUT = false).
  { intros n f H. vm_compute in H.
    repeat (apply elem_of_cons in H as [H | H];
            [ injection H as -> ->; reflexivity | ]).
    by apply elem_of_nil in H. }
  rewrite Hinit in Hdir.
  split.
  - apply (Hpart Hnd Hdir "image"). exists 147. split; [ | by split ].
    vm_compute. left.
  - intros H. apply (Hpart Hnd Hdir "ink") in H as (f & Hf & _ & Hm).
    vm_compute in Hf.
    repeat (apply elem_of_cons in Hf as [Hf | Hf];
            [ injection Hf as ?; subst; try discriminate | ]).
    by apply elem_of_nil in Hf.
Defined.

(** [draw_rect] on image [1]: the engine wrote to the copy, image [4],
    and image [1] has the content it had. *)
Lemma modify_argument_is_copied_witness :
  demo_pixels
    (world (snd (call demo "draw_rect" [VImage 1; VInt 5] [] demo_state))) 1 =
    Some 10 /\
  demo_pixels
    (world (snd (call demo "draw_rect" [VImage 1; VInt 5] [] demo_state))) 4 =
    Some 11.
Proof.
  split; [ | vm_compute; reflexivity ].
  eassert (Hinit : Introspect_init demo "draw_rect" = Ok _)
    by (vm_compute; reflexivity).
  assert (Hnd : NoDup (map fst (arguments
            (match Introspect_init demo "draw_rect" with
             | Ok i => i
             | Raise _ => Build_Introspect "" "" 0 [] ∅ [] [] [] []
             end)))).
  { vm_compute. repeat constructor; intros H;
      repeat (apply elem_of_cons in H as [H | H]; [ discriminate H | ]);
      by apply elem_of_nil in H. }
  rewrite Hinit in Hnd.
  destruct (modify_argument_is_copied demo demo_pixels demo_held "draw_rect"
              [VImage 1; VInt 5] [] demo_state _ _ _ demo_contract Hinit
              (or_introl eq_refl) Hnd
              (surjective_pairing
                 (call demo "draw_rect" [VImage 1; VInt 5] [] demo_state)))
    as [_ H].
  destruct (H 1%positive) as [Hp _].
  - vm_compute. discriminate.
  - intros Hx. by apply elem_of_nil in Hx.
  - rewrite Hp. reflexivity.
Defined.

(** C2: [stats] has no argument [nosuch]; a call that names it ends
    with Python's [KeyError] from the look-up in [intro.details], not
    with the error 'stats does not support optional argument nosuch'. *)
Theorem unknown_keyword_raises_KeyError :
  fst (call demo "stats" [VImage 1] [("nosuch", VInt 1)] demo_state) =
    Raise (KeyError "nosuch") /\
  fst (call demo "stats" [VImage 1] [("nosuch", VInt 1)] demo_state) <>
    Raise (Error_does_not_support "stats" "nosuch").
Proof. split; [ vm_compute; reflexivity | vm_compute; discriminate ]. Qed.

(** * The further properties on the small engine *)

(** The references of the images in a nested list are collected, and
    the search reports nothing. *)
Lemma _find_inside_visits_every_node_witness :
  fst (_find_inside (add_reference (heap demo_state))
         (VList [VImage 1; VList [VInt 7; VImage 2]]) ∅) = VNone.
Proof.
  rewrite (_find_inside_visits_every_node (add_reference (heap demo_state))).
  - reflexivity.
  - intros x s. reflexivity.
Defined.

(** [stats] declares [old-size]: the descriptor has it as [old_size],
    with an entry in [details]. *)
Lemma descriptor_details_cover_lists_witness :
  exists intro,
    Introspect_init demo "stats" = Ok intro /\
    is_Some (details intro !! "old_size").
Proof.
  eassert (Hinit : Introspect_init demo "stats" = Ok _)
    by (vm_compute; reflexivity).
  eexists. split; [ exact Hinit | ].
  destruct (descriptor_details_cover_lists demo "stats" _ Hinit)
    as (_ & _ & H).
  apply H. apply list_elem_of_In. vm_compute.
  repeat first [ left; reflexivity | right ].
Defined.

(** The arguments of [stats]: [nickname] is not a construct-time
    argument and is left out, and [old-size] has become [old_size]. *)
Lemma descriptor_names_are_python_names_witness :
  exists intro,
    Introspect_init demo "stats" = Ok intro /\
    map fst (arguments intro) = ["in"; "out"; "extra"; "old_size"].
Proof.
  eassert (Hinit : Introspect_init demo "stats" = Ok _)
    by (vm_compute; reflexivity).
  eexists. split; [ exact Hinit | ].
  destruct (descriptor_names_are_python_names demo "stats" _ Hinit)
    as (raw & Hraw & Hargs & _).
  rewrite Hargs. vm_compute in Hraw. injection Hraw as <-.
  vm_compute. reflexivity.
Defined.

(** What the engine is asked when two images are added. *)
Lemma call_engine_protocol_witness :
  exists new,
    calls (snd (call demo "add" [VImage 1; VImage 2] [] demo_state)) = new /\
    map erase new =
      [Call_set_string "add" (VStr ""); Call_set "add" "left" VNone;
       Call_set "add" "right" VNone; Call_build "add";
       Call_get "add" "out"; Call_unref_outputs "add"].
Proof.
  eassert (Hrun : call demo "add" [VImage 1; VImage 2] [] demo_state =
                  (Ok _, _))
    by (vm_compute; reflexivity).
  destruct (call_engine_protocol demo "add" [VImage 1; VImage 2] []
              demo_state _ _ Hrun) as (new & Hc & intro & Hcache & Hp).
  vm_compute in Hcache. injection Hcache as <-.
  exists new. split.
  - rewrite Hrun. exact Hc.
  - rewrite Hp. vm_compute. reflexivity.
Defined.

(** [stats] is called with its deprecated argument [old_size]: the call
    returns, and one record is logged. *)
Lemma deprecated_arguments_are_logged_witness :
  log (snd (call demo "stats" [VImage 1] [("old_size", VInt 3)]
              demo_state)) =
    [("stats", "old_size")].
Proof.
  eassert (Hrun : call demo "stats" [VImage 1] [("old_size", VInt 3)]
                    demo_state = (Ok _, _))
    by (vm_compute; reflexivity).
  destruct (deprecated_arguments_are_logged demo "stats" [VImage 1]
              [("old_size", VInt 3)] demo_state _ _ Hrun)
    as (intro & Hcache & Hlog).
  vm_compute in Hcache. injection Hcache as <-.
  rewrite Hrun. simpl snd. rewrite Hlog. vm_compute. reflexivity.
Defined.

(** Adding the images [1] and [2] leaves [1] with the reference it
    had. *)
Lemma call_only_adds_input_references_witness :
  dom (refs_of (heap demo_state) 1) ⊆
    dom (refs_of (heap (snd (call demo "add" [VImage 1; VImage 2] []
                               demo_state))) 1).
Proof.
  destruct (call_only_adds_input_references demo "add"
              [VImage 1; VImage 2] [] demo_state
              (fst (call demo "add" [VImage 1; VImage 2] [] demo_state))
              (snd (call demo "add" [VImage 1; VImage 2] [] demo_state)))
    with (x := 1%positive) as [H _].
  - vm_compute. reflexivity.
  - exact H.
Defined.

(** [add] with one argument too few: the arity error, and no reference
    has changed. *)
Lemma call_own_errors_attach_nothing_witness :
  heap (snd (call demo "add" [VImage 1] [] demo_state)) = heap demo_state.
Proof.
  apply (call_own_errors_attach_nothing demo "add" [VImage 1] [] demo_state
           (Error_needs_arguments "add" 2 1)).
  - vm_compute. reflexivity.
  - intros H. exact H.
Defined.

(** The descriptor of [add] is built by the first [get] and returned by
    the second. *)
Lemma Introspect_get_memoizes_witness :
  exists intro s1,
    Introspect_get demo "add" demo_state = (Ok intro, s1) /\
    Introspect_get demo "add" s1 = (Ok intro, s1).
Proof.
  eassert (Hget : Introspect_get demo "add" demo_state = (Ok _, _))
    by (vm_compute; reflexivity).
  do 2 eexists. split; [ exact Hget | ].
  destruct (Introspect_get_memoizes demo "add" demo_state _ _ Hget)
    as (_ & _ & _ & _ & _ & _ & H & _).
  exact H.
Defined.

(** On the old engine a correct call of [add] ends with
    [AttributeError]. *)
Lemma call_on_old_libvips_witness :
  call demo_old "add" [VImage 1; VImage 2] [] demo_state =
    (Raise AttributeError, demo_state).
Proof.
  apply (call_on_old_libvips demo_old "add" [VImage 1; VImage 2] []
           demo_state).
  - reflexivity.
  - vm_compute. reflexivity.
  - vm_compute. reflexivity.
Defined.

(** [stats] is called with the named argument [nosuch]: the call ends
    with [KeyError], and [nosuch] is no argument of [stats]. *)
Lemma call_errors_about_named_arguments_witness :
  exists intro,
    Introspect_init demo "stats" = Ok intro /\
    fst (call demo "stats" [VImage 1] [("nosuch", VInt 1)] demo_state) =
      Raise (KeyError "nosuch") /\
    "nosuch" ∉ map fst (arguments intro).
Proof.
  eassert (Hinit : Introspect_init demo "stats" = Ok _)
    by (vm_compute; reflexivity).
  eassert (Hrun : call demo "stats" [VImage 1] [("nosuch", VInt 1)]
                    demo_state = (Raise (KeyError "nosuch"), _))
    by (vm_compute; reflexivity).
  eexists. split; [ exact Hinit | ]. split; [ by rewrite Hrun | ].
  assert (Hn : _introspect_cache demo_state !! "stats" = None)
    by (vm_compute; reflexivity).
  exact (proj2 (call_errors_about_named_arguments demo "stats" [VImage 1]
                  [("nosuch", VInt 1)] demo_state _ _ _ Hinit
                  (or_introl Hn) Hrun)).
Defined.


(** The text of [add] is built by the first call and returned by the
    second. *)
Lemma generate_docstring_memoizes_witness :
  exists text s1,
    generate_docstring demo demo_strings "add"
      {| python := demo_state; _docstring_cache := ∅ |} =
      (Returns text, s1) /\
    generate_docstring demo demo_strings "add" s1 = (Returns text, s1).
Proof.
  eassert (Hrun : generate_docstring demo demo_strings "add"
                    {| python := demo_state; _docstring_cache := ∅ |} =
                  (Returns _, _))
    by (vm_compute; reflexivity).
  do 2 eexists. split; [ exact Hrun | ].
  destruct (generate_docstring_memoizes demo demo_strings "add" _ _ _ Hrun)
    as (_ & _ & H & _).
  exact H.
Defined.

(** [add] is not deprecated and has a description: it has a text. *)
Lemma generate_docstring_outcome_witness :
  exists intro text,
    Introspect_init demo "add" = Ok intro /\
    docstring demo demo_strings "add" intro = Returns text.
Proof.
  eassert (Hinit : Introspect_init demo "add" = Ok _)
    by (vm_compute; reflexivity).
  eassert (Hrun : fst (generate_docstring demo demo_strings "add"
                         {| python := demo_state; _docstring_cache := ∅ |}) =
                  Returns _)
    by (vm_compute; reflexivity).
  assert (Hn : _introspect_cache demo_state !! "add" = None)
    by (vm_compute; reflexivity).
  assert (Hd : _docstring_cache
                 {| python := demo_state; _docstring_cache := ∅ |} !! "add" =
               None)
    by (vm_compute; reflexivity).
  pose proof (generate_docstring_outcome demo demo_strings "add" _
                {| python := demo_state; _docstring_cache := ∅ |}
                Hinit (or_introl Hn) Hd) as H.
  rewrite Hrun in H. destruct H as (_ & _ & H).
  do 2 eexists. split; [ exact Hinit | exact H ].
Defined.

(** The same for the sphinx text of [add]. *)
Lemma generate_sphinx_outcome_witness :
  exists intro text,
    Introspect_init demo "add" = Ok intro /\
    sphinx demo demo_strings "add" intro = Returns text.
Proof.
  eassert (Hinit : Introspect_init demo "add" = Ok _)
    by (vm_compute; reflexivity).
  eassert (Hrun : fst (generate_sphinx demo demo_strings "add" demo_state) =
                  Returns _)
    by (vm_compute; reflexivity).
  assert (Hn : _introspect_cache demo_state !! "add" = None)
    by (vm_compute; reflexivity).
  destruct (generate_sphinx_outcome demo demo_strings "add" _ demo_state
              Hinit (or_introl Hn)) as [_ H].
  rewrite Hrun in H. destruct H as (_ & _ & H).
  do 2 eexists. split; [ exact Hinit | exact H ].
Defined.

(** [add] has image inputs: it is documented as a method, with its two
    required inputs. *)
Lemma generate_sphinx_signature_witness :
  exists text,
    fst (generate_sphinx demo demo_strings "add" demo_state) = Returns text /\
    String.prefix ".. method:: add(left, right)" text = true.
Proof.
  eassert (Hinit : Introspect_init demo "add" = Ok _)
    by (vm_compute; reflexivity).
  eassert (Hrun : fst (generate_sphinx demo demo_strings "add" demo_state) =
                  Returns _)
    by (vm_compute; reflexivity).
  assert (Hn : _introspect_cache demo_state !! "add" = None)
    by (vm_compute; reflexivity).
  eexists. split; [ exact Hrun | ].
  pose proof (generate_sphinx_signature demo demo_strings "add" _ demo_state
                _ Hinit (or_introl Hn) Hrun) as H.
  vm_compute. reflexivity.
Defined.

(** In the text of [add] the section [Args:] has [left] twice: once as
    [self], once as the first required input. *)
Lemma generate_docstring_arguments_witness :
  exists text before after,
    fst (generate_docstring demo demo_strings "add"
           {| python := demo_state; _docstring_cache := ∅ |}) =
      Returns text /\
    text =
      before +:+ nl +:+ "Args:" +:+ nl +:+
      ("    left (Image): left" +:+ nl +:+
       "    left (Image): left" +:+ nl +:+
       "    right (Image): right" +:+ nl) +:+
      after.
Proof.
  eassert (Hinit : Introspect_init demo "add" = Ok _)
    by (vm_compute; reflexivity).
  eassert (Hrun : fst (generate_docstring demo demo_strings "add"
                         {| python := demo_state; _docstring_cache := ∅ |}) =
                  Returns _)
    by (vm_compute; reflexivity).
  assert (Hn : _introspect_cache demo_state !! "add" = None)
    by (vm_compute; reflexivity).
  assert (Hd : _docstring_cache
                 {| python := demo_state; _docstring_cache := ∅ |} !! "add" =
               None)
    by (vm_compute; reflexivity).
  destruct (generate_docstring_arguments demo demo_strings "add" _
              {| python := demo_state; _docstring_cache := ∅ |} _
              Hinit (or_introl Hn) Hd Hrun)
    as (_ & before & after & Ht).
  eexists. exists before, after. split; [ exact Hrun | ].
  rewrite Ht. reflexivity.
Defined.
